(** * lrumap: a tick-driven expiring map

    Shallow embedding of [lrumap] (package [lrumap], Go) and the proofs of
    the properties its specification states.

    The Go program keeps its nodes on the garbage-collected heap and links
    them by pointers: a node is a member of a doubly linked hash chain
    ([next]/[prev]) and of a singly linked wheel slot ([frameLink]) at the
    same time.  The embedding keeps that sharing: the heap is an explicit
    store of nodes, a pointer is an address into it ([None] is [nil]), and
    every field write of the source is a store update. *)

From Stdlib Require Import ZArith List Lia.
From Stdlib Require Import Strings.Byte.
From stdpp Require Import base option list sorting gmap.

Open Scope Z_scope.

(** ** Machine integers *)

(** [tick] and [hashValue] are [uint64]: arithmetic wraps modulo 2^64. *)
Definition wrap64 (z : Z) : Z := z mod 2 ^ 64.

(** [int] is a signed 64-bit integer (two's complement wrap-around). *)
Definition wrapInt (z : Z) : Z := (z + 2 ^ 63) mod 2 ^ 64 - 2 ^ 63.

Definition byteZ (b : byte) : Z := Z.of_N (Byte.to_N b).

#[global] Instance byte_eq_decision : EqDecision byte := Byte.byte_eq_dec.

(** ** fnvHash *)

Definition fnvBasis : Z := 14695981039346656037.
Definition fnvPrime : Z := 1099511628211.

(** [for i := 0; i < len( *s ); i++ { h ^= hashValue(( *s )[i]); h *= fnvPrime }]
    The first argument bounds the number of iterations; [fnvHash] passes
    [len( *s )], which the loop never exceeds. *)
Fixpoint fnvLoop (n : nat) (s : list byte) (i : nat) (h : Z) : Z :=
  match n with
  | O => h
  | S n' =>
      match s !! i with
      | None => h
      | Some b =>
          let h1 := Z.lxor h (byteZ b) in
          let h2 := wrap64 (h1 * fnvPrime) in
          fnvLoop n' s (S i) h2
      end
  end.

Definition fnvHash (s : list byte) : Z := fnvLoop (length s) s 0%nat fnvBasis.

(** The specification's wording of 64-bit FNV-1a, for comparison with
    [fnvHash]: start from the offset basis; for each byte in order, XOR the
    byte into the hash, then multiply by the prime, modulo 2^64. *)
Definition fnv1a64_step (h : Z) (b : byte) : Z :=
  (Z.lxor h (byteZ b) * 1099511628211) mod 2 ^ 64.

Definition fnv1a64 (s : list byte) : Z :=
  fold_left fnv1a64_step s 14695981039346656037.

(** ** Outcomes *)

(** A Go call either returns or does not: it may panic, or loop for ever.
    [OutOfFuel] stands for a list walk that exceeds the number of nodes of
    the heap, which only a cyclic list does.  A dangling address cannot
    exist in Go; a load from one is reported as [NilDereference] so that
    the functions stay total. *)
Inductive fault : Type := DivideByZero | NilDereference | OutOfFuel.

Inductive result (A : Type) : Type :=
| Ok (a : A)
| Fail (f : fault).
Arguments Ok {A} a.
Arguments Fail {A} f.

#[global] Instance result_bind : MBind result := λ A B k m,
  match m with
  | Ok a => k a
  | Fail f => Fail f
  end.

(** The two errors the source creates with [errors.New]. *)
Inductive error : Type :=
| ErrTTLOverMaxTick   (* "TTL is over maxTick" *)
| ErrDuplicatedKey.   (* "Duplicated key" *)

(** ** LruData *)

(** [type LruData interface { Key() *[]byte }]; [Key] gives the bytes the
    returned pointer refers to. *)
Class LruData (D : Type) := Key : D → list byte.

(** A pointer to a node is [option addr]; [None] is [nil]. *)
Abbreviation addr := nat.

Section Lrumap.
Context {D : Type} {LD : LruData D}.

(** [type node struct]: the fields [latest] and [ttl] are never read nor
    written and are left out. *)
Record node : Type := mkNode {
  next : option addr;
  prev : option addr;
  frameLink : option addr;
  data : option D
}.

Definition set_next (v : option addr) (n : node) : node :=
  mkNode v (prev n) (frameLink n) (data n).
Definition set_prev (v : option addr) (n : node) : node :=
  mkNode (next n) v (frameLink n) (data n).
Definition set_frameLink (v : option addr) (n : node) : node :=
  mkNode (next n) (prev n) v (data n).

(** The heap: the nodes allocated so far, by address. *)
Abbreviation store := (list node).

Definition load (h : store) (p : addr) : result node :=
  match h !! p with
  | Some n => Ok n
  | None => Fail NilDereference
  end.

Definition write (h : store) (p : addr) (n : node) : store := <[p := n]> h.

(** [new(node)]: the address of a fresh node is the size of the store, so
    addresses grow in allocation order. *)
Definition alloc (h : store) (n : node) : store * addr := (h ++ [n], length h).

(** [func (x *node) attach(target *node)] *)
Definition attach (h : store) (x target : addr) : result store :=
  xn ← load h x;
  let nxt := next xn in
  let h := write h x (set_next (Some target) xn) in
  tn ← load h target;
  let h := write h target (set_prev (Some x) tn) in
  match nxt with
  | None => Ok h
  | Some q =>
      qn ← load h q;
      let h := write h q (set_prev (Some target) qn) in
      tn ← load h target;
      Ok (write h target (set_next (Some q) tn))
  end.

(** [func (x *node) detach()] *)
Definition detach (h : store) (x : addr) : result store :=
  xn ← load h x;
  h ← match next xn with
      | None => Ok h
      | Some q => qn ← load h q; Ok (write h q (set_prev (prev xn) qn))
      end;
  xn ← load h x;
  h ← match prev xn with
      | None => Ok h
      | Some p => pn ← load h p; Ok (write h p (set_next (next xn) pn))
      end;
  xn ← load h x;
  let h := write h x (set_next None xn) in
  xn ← load h x;
  Ok (write h x (set_prev None xn)).

(** [func (x *node) matchKey(key *[]byte) bool]: [x.data.Key()] panics on a
    nil [data]. *)
Definition matchKey (h : store) (x : addr) (key : list byte) : result bool :=
  xn ← load h x;
  match data xn with
  | None => Fail NilDereference
  | Some d => Ok (bool_decide (Key d = key))
  end.

(** [func (x *node) equals(target *node) bool] *)
Definition equals (h : store) (x target : addr) : result bool :=
  xn ← load h x;
  tn ← load h target;
  match data xn, data tn with
  | Some _, Some dt => matchKey h x (Key dt)
  | _, _ => Ok false
  end.

(** [func (x *bucket) insert(newNode *node) error]; a bucket is its [root]
    node, and [p] starts at [&x.root]. *)
Fixpoint insertLoop (fuel : nat) (h : store) (p newNode : addr)
  : result (store * option error) :=
  pn ← load h p;
  match next pn with
  | None => h' ← attach h p newNode; Ok (h', None)
  | Some q =>
      match fuel with
      | O => Fail OutOfFuel
      | S fuel' =>
          e ← equals h p newNode;
          if (e : bool) then Ok (h, Some ErrDuplicatedKey)
          else insertLoop fuel' h q newNode
      end
  end.

Definition insert (h : store) (bkt newNode : addr) : result (store * option error) :=
  insertLoop (length h) h bkt newNode.

(** [func (x *bucket) search(key *[]byte) *node] *)
Fixpoint searchLoop (fuel : nat) (h : store) (p : option addr) (key : list byte)
  : result (option addr) :=
  match p with
  | None => Ok None
  | Some a =>
      match fuel with
      | O => Fail OutOfFuel
      | S fuel' =>
          m ← matchKey h a key;
          if (m : bool) then Ok (Some a)
          else an ← load h a; searchLoop fuel' h (next an) key
      end
  end.

Definition search (h : store) (bkt : addr) (key : list byte) : result (option addr) :=
  root ← load h bkt;
  searchLoop (length h) h (next root) key.

(** [func (x *frame) prune() *[]LruData], the loop; the caller clears
    [x.link]. *)
Fixpoint pruneLoop (fuel : nat) (h : store) (link : option addr)
    (prunedData : list (option D)) : result (store * list (option D)) :=
  match link with
  | None => Ok (h, prunedData)
  | Some a =>
      match fuel with
      | O => Fail OutOfFuel
      | S fuel' =>
          h' ← detach h a;
          an ← load h' a;
          pruneLoop fuel' h' (frameLink an) (prunedData ++ [data an])
      end
  end.

(** [type LruMap struct].  [table] maps a hash value to the address of the
    bucket, which is the address of its [root] node; a [frame] is its
    [link]. *)
Record LruMap : Type := mkLruMap {
  heap : store;
  table : gmap Z addr;
  frames : list (option addr);
  current : Z;
  maxTick : Z;
  count : Z
}.

Definition emptyNode : node := mkNode None None None None.

(** [func New(maxTick tick) *LruMap]: [maxTick+1] is computed in [uint64],
    so [New(2^64-1)] makes a slice of no frame.  The limit of [make] on
    the size of a slice is not modelled. *)
Definition New (maxTick : Z) : LruMap :=
  mkLruMap [] ∅ (replicate (Z.to_nat (wrap64 (maxTick + 1))) None) 0 maxTick 0.

(** [func (x *LruMap) getFrame(t tick) *frame], as the index of the frame;
    [%] panics on a zero divisor. *)
Definition getFrame (x : LruMap) (t : Z) : result nat :=
  let n := Z.of_nat (length (frames x)) in
  if Z.eqb n 0 then Fail DivideByZero
  else Ok (Z.to_nat (t mod n)).

(** [func (x *frame) add(target *node)] on the frame with index [p] of
    the slice [frs]. *)
Definition frameAdd (h : store) (frs : list (option addr)) (p : nat) (target : addr)
  : result (store * list (option addr)) :=
  let nxt := default None (frs !! p) in
  let frs := <[p := Some target]> frs in
  tn ← load h target;
  Ok (write h target (set_frameLink nxt tn), frs).

(** [func (x *LruMap) Put(obj LruData, ttl tick) error].  A panic ends the
    program: no state is returned with it. *)
Definition Put (x : LruMap) (obj : D) (ttl : Z) : result (LruMap * option error) :=
  if Z.ltb (maxTick x) ttl then Ok (x, Some ErrTTLOverMaxTick)
  else
    let hv := fnvHash (Key obj) in
    let '(h1, tbl, bkt) :=
      match table x !! hv with
      | Some b => (heap x, table x, b)
      | None =>
          let '(h, b) := alloc (heap x) emptyNode in
          (h, <[hv := b]> (table x), b)
      end in
    let '(h2, newNode) := alloc h1 (mkNode None None None (Some obj)) in
    '(h3, _) ← insert h2 bkt newNode;
    cur ← getFrame x (wrap64 (current x + ttl));
    '(h4, frs) ← frameAdd h3 (frames x) cur newNode;
    Ok (mkLruMap h4 tbl frs (current x) (maxTick x) (wrapInt (count x + 1)), None).

(** [func (x *LruMap) Get(key *[]byte) LruData] *)
Definition Get (x : LruMap) (key : list byte) : result (option D) :=
  let hv := fnvHash key in
  match table x !! hv with
  | None => Ok None
  | Some bkt =>
      searched ← search (heap x) bkt key;
      match searched with
      | None => Ok None
      | Some a => sn ← load (heap x) a; Ok (data sn)
      end
  end.

(** [func (x *frame) prune() *[]LruData] on the frame with index [p] *)
Definition framePrune (x : LruMap) (p : nat) : result (LruMap * list (option D)) :=
  '(h, prunedData) ← pruneLoop (length (heap x)) (heap x)
                       (default None (frames x !! p)) [];
  Ok (mkLruMap h (table x) (<[p := None]> (frames x))
        (current x) (maxTick x) (count x), prunedData).

(** The loop of [Prune]: [n] iterations remain, [i] is the loop counter. *)
Fixpoint pruneFrames (n : nat) (x : LruMap) (i : Z) (res : list (option D))
  : result (LruMap * list (option D)) :=
  match n with
  | O => Ok (x, res)
  | S n' =>
      f ← getFrame x (wrap64 (current x + i));
      '(x', pruned) ← framePrune x f;
      pruneFrames n' x' (i + 1) (res ++ pruned)
  end.

(** [func (x *LruMap) Prune(progress tick) *[]LruData]; the returned
    pointer is never nil, the result is the slice it points to. *)
Definition Prune (x : LruMap) (progress : Z) : result (LruMap * list (option D)) :=
  '(x', res) ← pruneFrames (Z.to_nat progress) x 0 [];
  Ok (mkLruMap (heap x') (table x') (frames x') (wrap64 (current x' + progress))
        (maxTick x') (wrapInt (count x' - Z.of_nat (length res))), res).

(** [func (x *LruMap) Size() int] *)
Definition Size (x : LruMap) : Z := count x.

(** ** Runs *)

(** The calls of the public interface; the arguments of type [tick] are
    [uint64] values. *)
Inductive op : Type :=
| OpPut (obj : D) (ttl : Z)
| OpGet (key : list byte)
| OpPrune (progress : Z)
| OpSize.

Definition isTick (t : Z) : Prop := 0 ≤ t < 2 ^ 64.

Definition op_valid (o : op) : Prop :=
  match o with
  | OpPut _ ttl => isTick ttl
  | OpPrune progress => isTick progress
  | _ => True
  end.

(** The store after a call that returns. *)
Definition exec (x : LruMap) (o : op) : result LruMap :=
  match o with
  | OpPut obj ttl => '(x', _) ← Put x obj ttl; Ok x'
  | OpGet key => _ ← Get x key; Ok x
  | OpPrune progress => '(x', _) ← Prune x progress; Ok x'
  | OpSize => Ok x
  end.

(** The stores a program can hold: [New], then calls that returned. *)
Inductive reachable : LruMap → Prop :=
| reachable_New (maxTick : Z) :
    isTick maxTick → reachable (New maxTick)
| reachable_exec (x x' : LruMap) (o : op) :
    reachable x → op_valid o → exec x o = Ok x' → reachable x'.

(** ** Observers *)

(** The nodes met from [p] along [next], [p] first. *)
Fixpoint walkNext (fuel : nat) (h : store) (p : option addr) : list addr :=
  match p, fuel with
  | Some a, S fuel' =>
      a :: walkNext fuel' h (match h !! a with Some n => next n | None => None end)
  | _, _ => []
  end.

(** The nodes met from [p] along [frameLink], [p] first. *)
Fixpoint walkFrame (fuel : nat) (h : store) (p : option addr) : list addr :=
  match p, fuel with
  | Some a, S fuel' =>
      a :: walkFrame fuel' h (match h !! a with Some n => frameLink n | None => None end)
  | _, _ => []
  end.

(** The hash chain of the bucket of [hv], from the node after the root. *)
Definition chainOf (x : LruMap) (hv : Z) : list addr :=
  match table x !! hv with
  | None => []
  | Some bkt =>
      walkNext (length (heap x)) (heap x)
        (match heap x !! bkt with Some root => next root | None => None end)
  end.

(** The nodes linked in the wheel: the entries put and not yet pruned. *)
Definition liveNodes (x : LruMap) : list addr :=
  concat (map (walkFrame (length (heap x)) (heap x)) (frames x)).

(** The payload of the node at [a]. *)
Definition dataAt (h : store) (a : addr) : option D :=
  match h !! a with
  | Some n => data n
  | None => None
  end.

Definition keyAt (h : store) (a : addr) : option (list byte) :=
  Key <$> dataAt h a.

End Lrumap.

Arguments node D : clear implicits.
Arguments LruMap D : clear implicits.
Arguments op D : clear implicits.

(** ** The payload of the test suite *)

(** [type testData struct { data []byte }], stored by pointer: [ident]
    stands for the identity of the object, which tells two objects with
    equal keys apart. *)
Module Test.
Record testData : Type := mkTestData { data : list byte; ident : nat }.

#[global] Instance testData_LruData : LruData testData := data.

Definition key1 : list byte := ["a"; "b"; "c"]%byte.
Definition key2 : list byte := ["x"; "y"; "z"]%byte.

Definition obj1 : testData := mkTestData key1 1.
Definition obj2 : testData := mkTestData key1 2.
Definition obj3 : testData := mkTestData key1 3.

(** The store after [calls], when each of them returns. *)
Definition run (x : LruMap testData) (calls : list (op testData))
  : result (LruMap testData) :=
  foldl (λ r o, x ← r; exec x o) (Ok x) calls.

Definition state_of (r : result (LruMap testData)) : LruMap testData :=
  match r with
  | Ok x => x
  | Fail _ => New 0
  end.

(** One entry, then two and three entries with the same key. *)
Definition st_put1 : LruMap testData :=
  state_of (run (New 12) [OpPut obj1 3]).
Definition st_put2 : LruMap testData :=
  state_of (run (New 12) [OpPut obj1 3; OpPut obj2 3]).
Definition st_put3 : LruMap testData :=
  state_of (run (New 12) [OpPut obj1 3; OpPut obj2 3; OpPut obj3 3]).

(** An empty store of one frame after one tick. *)
Definition st_tick1 : LruMap testData :=
  state_of (run (New 0) [OpPrune 1]).

(** [lrumap.New(math.MaxUint64)]: [maxTick+1] wraps to 0 frames. *)
Definition st_noframes : LruMap testData := New (2 ^ 64 - 1).

(** [TestBasicScenario]: the store after [Put(&data, 3)] and one to four
    [Prune(1)]. *)
Definition st_adv1 : LruMap testData :=
  state_of (run (New 12) [OpPut obj1 3; OpPrune 1]).
Definition st_adv2 : LruMap testData :=
  state_of (run (New 12) [OpPut obj1 3; OpPrune 1; OpPrune 1]).
Definition st_adv3 : LruMap testData :=
  state_of (run (New 12) [OpPut obj1 3; OpPrune 1; OpPrune 1; OpPrune 1]).
Definition st_adv4 : LruMap testData :=
  state_of (run (New 12) [OpPut obj1 3; OpPrune 1; OpPrune 1; OpPrune 1; OpPrune 1]).

(** Two entries with one key and the ttls 3 and 5, before and after
    [Prune(4)]. *)
Definition st_two : LruMap testData :=
  state_of (run (New 12) [OpPut obj1 3; OpPut obj2 5]).
Definition st_two_adv : LruMap testData :=
  state_of (run (New 12) [OpPut obj1 3; OpPut obj2 5; OpPrune 4]).

(** Two entries in the frame 3 of 13, after a [Prune(20)], which comes to
    that frame at the ticks 3 and 16. *)
Definition st_drain2 : LruMap testData :=
  state_of (run (New 12) [OpPut obj1 3; OpPut obj2 3; OpPrune 20]).
End Test.

(** ** The shape of a store *)

Section Shape.
Context {D : Type} {LD : LruData D}.
Abbreviation store := (list (node D)).

(** A field of the node at [a]; [None] when [a] is not allocated. *)
Definition fieldAt {A : Type} (f : node D → A) (h : store) (a : addr) : option A :=
  f <$> h !! a.

(** [l] is the list of the nodes after [p] in a hash chain: linked forward
    by [next] up to [nil], and backward by [prev]. *)
Fixpoint is_chain (h : store) (p : addr) (l : list addr) : Prop :=
  match l with
  | [] => fieldAt next h p = Some None
  | a :: l' =>
      fieldAt next h p = Some (Some a) ∧
      fieldAt prev h a = Some (Some p) ∧
      is_chain h a l'
  end.

(** [l] is the list of the nodes of a wheel slot whose [link] is [head]. *)
Fixpoint is_flist (h : store) (head : option addr) (l : list addr) : Prop :=
  match l with
  | [] => head = None
  | a :: l' =>
      head = Some a ∧
      ∃ nxt, fieldAt frameLink h a = Some nxt ∧ is_flist h nxt l'
  end.

(** The [root] of a bucket carries no payload and has no predecessor. *)
Definition is_root (h : store) (r : addr) : Prop :=
  fieldAt data h r = Some None ∧ fieldAt prev h r = Some None.

(** A node outside every hash chain. *)
Definition is_orphan (h : store) (a : addr) : Prop :=
  fieldAt next h a = Some None ∧ fieldAt prev h a = Some None.

(** The hash table: [chains hv] is the chain of the bucket of [hv]. *)
Record chains_ok (h : store) (tbl : gmap Z addr) (chains : Z → list addr) : Prop := {
  ck_inj : ∀ hv1 hv2 r, tbl !! hv1 = Some r → tbl !! hv2 = Some r → hv1 = hv2;
  ck_root : ∀ hv r, tbl !! hv = Some r → is_root h r ∧ is_chain h r (chains hv);
  ck_none : ∀ hv, tbl !! hv = None → chains hv = [];
  ck_sorted : ∀ hv, StronglySorted lt (chains hv);
  ck_hash : ∀ hv a, a ∈ chains hv →
              ∃ d, fieldAt data h a = Some (Some d) ∧ fnvHash (Key d) = hv
}.

(** A node of the wheel carries a payload, and is either in the chain of
    its hash or in no chain. *)
Definition node_ok (h : store) (chains : Z → list addr) (a : addr) : Prop :=
  ∃ d, fieldAt data h a = Some (Some d) ∧
       (a ∈ chains (fnvHash (Key d)) ∨ is_orphan h a).

(** The index of the frame of tick [t]. *)
Definition frameOf (x : LruMap D) (t : Z) : nat :=
  Z.to_nat (wrap64 t mod Z.of_nat (length (frames x))).

(** The whole store: [slots] lists the nodes of each frame; every node of
    a slot is due at a tick between [current + j] and [current + maxTick]. *)
Record lru_ok (x : LruMap D) (chains : Z → list addr)
    (slots : list (list addr)) (j : Z) : Prop := {
  ok_maxTick : isTick (maxTick x);
  ok_frames : Z.of_nat (length (frames x)) = wrap64 (maxTick x + 1);
  ok_current : isTick (current x);
  ok_count : - 2 ^ 63 ≤ count x < 2 ^ 63;
  ok_chains : chains_ok (heap x) (table x) chains;
  ok_slots : Forall2 (is_flist (heap x)) (frames x) slots;
  ok_nodup : NoDup (concat slots);
  ok_nodes : ∀ a, a ∈ concat slots → node_ok (heap x) chains a;
  ok_linked : ∀ hv a, a ∈ chains hv → a ∈ concat slots;
  ok_due : ∀ i l a, slots !! i = Some l → a ∈ l →
             ∃ r, j ≤ r ≤ maxTick x ∧ i = frameOf x (current x + r)
}.

Definition Inv (x : LruMap D) : Prop :=
  ∃ chains slots, lru_ok x chains slots 0.

(** The wheel, frame by frame: the nodes linked from each frame, the node
    at [link] first. *)
Definition wheel (x : LruMap D) : list (list addr) :=
  map (walkFrame (length (heap x)) (heap x)) (frames x).

(** The frames the loop of [Prune] visits in [n] iterations from the loop
    counter [j], in the order of the visits. *)
Fixpoint visits (x : LruMap D) (j : Z) (n : nat) : list nat :=
  match n with
  | O => []
  | S n' => frameOf x (current x + j) :: visits x (j + 1) n'
  end.

(** Emptying the frames [fs] one after the other: the nodes taken out, in
    the order they are met, and the frames left. *)
Fixpoint taken (slots : list (list addr)) (fs : list nat) : list addr :=
  match fs with
  | [] => []
  | f :: fs' => default [] (slots !! f) ++ taken (<[f := []]> slots) fs'
  end.

Fixpoint drained (slots : list (list addr)) (fs : list nat) : list (list addr) :=
  match fs with
  | [] => slots
  | f :: fs' => drained (<[f := []]> slots) fs'
  end.

(** The stores of a program that keeps the contract of [LruData] ("Key()
    must returns unique key that is byte slice in the table"): it puts an
    object only when [Get] finds nothing under the key of the object. *)
Inductive reachable_unique : LruMap D → Prop :=
| unique_New (maxTick : Z) :
    isTick maxTick → reachable_unique (New maxTick)
| unique_Put (x x' : LruMap D) (obj : D) (ttl : Z) (e : option error) :
    reachable_unique x → isTick ttl →
    Get x (Key obj) = Ok None → Put x obj ttl = Ok (x', e) →
    reachable_unique x'
| unique_Prune (x x' : LruMap D) (progress : Z) (res : list (option D)) :
    reachable_unique x → isTick progress →
    Prune x progress = Ok (x', res) → reachable_unique x'.

(** [Put] from [newNode := node{data: obj}] on, once the bucket [bkt] is
    found or created ([h1] and [tbl] are the heap and the table then). *)
Definition Put_node (x : LruMap D) (obj : D) (ttl : Z)
    (h1 : store) (tbl : gmap Z addr) (bkt : addr)
  : result (LruMap D * option error) :=
  let '(h2, newNode) := alloc h1 (mkNode None None None (Some obj)) in
  '(h3, _) ← insert h2 bkt newNode;
  cur ← getFrame x (wrap64 (current x + ttl));
  '(h4, frs) ← frameAdd h3 (frames x) cur newNode;
  Ok (mkLruMap h4 tbl frs (current x) (maxTick x) (wrapInt (count x + 1)), None).

End Shape.

(** * Proofs *)

Section Facts.
Context {D : Type} {LD : LruData D}.
Abbreviation store := (list (node D)).
Implicit Types (h : store) (x : LruMap D) (a b p q r : addr).

(** ** Loads and writes *)

Lemma bind_Ok {A B} (a : A) (k : A → result B) : (Ok a ≫= k) = k a.
Proof. done. Qed.

Lemma bind_Fail {A B} f (k : A → result B) : (Fail f ≫= k) = Fail f.
Proof. done. Qed.

Lemma load_Some h a n : h !! a = Some n → load h a = Ok n.
Proof. unfold load. by intros ->. Qed.

Lemma length_write h a n : length (write h a n) = length h.
Proof. apply length_insert. Qed.

Lemma lookup_write h a n b :
  (a < length h)%nat →
  write h a n !! b = if decide (a = b) then Some n else h !! b.
Proof.
  intros Ha. unfold write. rewrite list_lookup_insert.
  destruct (decide (a = b)) as [->|].
  - by rewrite decide_True.
  - rewrite decide_False; [done | tauto].
Qed.

Lemma fieldAt_write {A} (f : node D → A) h a n b :
  (a < length h)%nat →
  fieldAt f (write h a n) b = if decide (a = b) then Some (f n) else fieldAt f h b.
Proof.
  intros Ha. unfold fieldAt. rewrite lookup_write by done. by case_decide.
Qed.

Lemma lookup_alloc h a n : h !! a = Some n → (a < length h)%nat.
Proof. apply lookup_lt_Some. Qed.

Lemma fieldAt_Some {A} (f : node D → A) h a v :
  fieldAt f h a = Some v ↔ ∃ n, h !! a = Some n ∧ f n = v.
Proof.
  unfold fieldAt. destruct (h !! a) as [n|]; simpl; naive_solver.
Qed.

Lemma fieldAt_app_l {A} (f : node D → A) h k a :
  (a < length h)%nat → fieldAt f (h ++ k) a = fieldAt f h a.
Proof. intros. unfold fieldAt. by rewrite lookup_app_l. Qed.

Lemma fieldAt_app_new {A} (f : node D → A) h n :
  fieldAt f (h ++ [n]) (length h) = Some (f n).
Proof. unfold fieldAt. by rewrite list_lookup_middle. Qed.

Lemma fieldAt_lt {A} (f : node D → A) h a v :
  fieldAt f h a = Some v → (a < length h)%nat.
Proof. intros (n & Hn & _)%fieldAt_Some. by eapply lookup_lt_Some. Qed.

Lemma fieldAt_app_Some {A} (f : node D → A) h k a v :
  fieldAt f h a = Some v → fieldAt f (h ++ k) a = Some v.
Proof. intros Hv. rewrite fieldAt_app_l; [done | by eapply fieldAt_lt]. Qed.

(** ** Chains and slots depend on the links of their nodes only *)

Lemma is_chain_ext h h' p l :
  (∀ b, b ∈ p :: l → fieldAt next h' b = fieldAt next h b) →
  (∀ b, b ∈ l → fieldAt prev h' b = fieldAt prev h b) →
  is_chain h p l → is_chain h' p l.
Proof.
  revert p. induction l as [|a l IH]; intros p Hn Hp; simpl.
  - intros Hc. rewrite Hn; [done | set_solver].
  - intros (H1 & H2 & H3). split_and!.
    + rewrite Hn; [done | set_solver].
    + rewrite Hp; [done | set_solver].
    + apply IH; [| |done]; intros; [apply Hn | apply Hp]; set_solver.
Qed.

Lemma is_flist_ext h h' head l :
  (∀ b, b ∈ l → fieldAt frameLink h' b = fieldAt frameLink h b) →
  is_flist h head l → is_flist h' head l.
Proof.
  revert head. induction l as [|a l IH]; intros head Hf; simpl; [done|].
  intros (-> & nxt & H1 & H2). split; [done|]. exists nxt. split.
  - rewrite Hf; [done | set_solver].
  - apply IH; [|done]. intros; apply Hf; set_solver.
Qed.

Lemma is_chain_alloc h p l :
  is_chain h p l → ∀ b, b ∈ p :: l → (b < length h)%nat.
Proof.
  revert p. induction l as [|a l IH]; intros p; simpl.
  - intros Hc b ->%list_elem_of_singleton. by eapply fieldAt_lt.
  - intros (H1 & H2 & H3) b [->|Hb]%elem_of_cons.
    + by eapply fieldAt_lt.
    + by eapply IH.
Qed.

Lemma is_flist_alloc h head l :
  is_flist h head l → ∀ b, b ∈ l → (b < length h)%nat.
Proof.
  revert head. induction l as [|a l IH]; intros head; simpl.
  - intros _ b Hb. by apply elem_of_nil in Hb.
  - intros (-> & nxt & H1 & H2) b [->|Hb]%elem_of_cons.
    + by eapply fieldAt_lt.
    + by eapply IH.
Qed.

Lemma is_chain_inj h p l1 l2 : is_chain h p l1 → is_chain h p l2 → l1 = l2.
Proof.
  revert p l2. induction l1 as [|a l1 IH]; intros p [|b l2]; simpl; try done.
  - intros H1 (H2 & _). congruence.
  - intros (H1 & _) H2. congruence.
  - intros (H1 & _ & H3) (H4 & _ & H6).
    assert (a = b) as -> by congruence. f_equal. by eapply IH.
Qed.

Lemma is_flist_inj h head l1 l2 : is_flist h head l1 → is_flist h head l2 → l1 = l2.
Proof.
  revert head l2. induction l1 as [|a l1 IH]; intros head [|b l2]; simpl; try done.
  - intros -> (? & _). done.
  - intros (-> & _) ?. done.
  - intros (-> & n1 & H1 & H2) (Hb & n2 & H3 & H4).
    assert (a = b) as -> by congruence. f_equal.
    assert (n1 = n2) as -> by congruence. by eapply IH.
Qed.

(** ** detach *)

(** What [detach] does to the links when the neighbours of [a] are
    allocated and distinct nodes: the two writes to the neighbours and the
    two writes to [a] do not interfere. *)
Lemma detach_fields h a na :
  h !! a = Some na →
  (∀ c, next na = Some c → c ≠ a ∧ h !! c ≠ None) →
  (∀ p, prev na = Some p → p ≠ a ∧ h !! p ≠ None) →
  (∀ c p, next na = Some c → prev na = Some p → c ≠ p) →
  ∃ h', detach h a = Ok h' ∧ length h' = length h ∧
    (∀ b, fieldAt next h' b =
            if decide (b = a) then Some None
            else if decide (Some b = prev na) then Some (next na)
            else fieldAt next h b) ∧
    (∀ b, fieldAt prev h' b =
            if decide (b = a) then Some None
            else if decide (Some b = next na) then Some (prev na)
            else fieldAt prev h b) ∧
    (∀ b, fieldAt frameLink h' b = fieldAt frameLink h b) ∧
    (∀ b, fieldAt data h' b = fieldAt data h b).
Proof.
  intros Ha Hnext Hprev Hne. unfold detach.
  pose proof (lookup_alloc _ _ _ Ha) as La.
  rewrite (load_Some _ _ _ Ha). simpl.
  destruct (next na) as [c|] eqn:En; destruct (prev na) as [p|] eqn:Ep.
  - destruct (Hnext c eq_refl) as [Hca Hc]. destruct (Hprev p eq_refl) as [Hpa Hp].
    specialize (Hne c p eq_refl eq_refl).
    destruct (h !! c) as [nc|] eqn:Ec; [|done]. destruct (h !! p) as [np|] eqn:Epp; [|done].
    pose proof (lookup_alloc _ _ _ Ec) as Lc. pose proof (lookup_alloc _ _ _ Epp) as Lp.
    rewrite (load_Some _ _ _ Ec). simpl.
    unfold load. rewrite !lookup_write, ?decide_False, Ha by (rewrite ?length_write; done).
    simpl. rewrite Ep.
    rewrite !lookup_write, ?decide_False, Epp by (rewrite ?length_write; done).
    simpl. rewrite En.
    rewrite !lookup_write, ?decide_False, Ha by (rewrite ?length_write; done).
    simpl.
    rewrite !lookup_write, ?decide_True by (rewrite ?length_write; done).
    simpl.
    eexists. split; [done|]. split; [by rewrite !length_write|].
    split_and!; intros b;
      rewrite !fieldAt_write by (rewrite ?length_write; done);
      repeat case_decide; simplify_eq; try done;
      unfold fieldAt; by rewrite ?Ec, ?Epp, ?Ha; simpl; try rewrite ?En, ?Ep.
  - destruct (Hnext c eq_refl) as [Hca Hc].
    destruct (h !! c) as [nc|] eqn:Ec; [|done].
    pose proof (lookup_alloc _ _ _ Ec) as Lc.
    rewrite (load_Some _ _ _ Ec). simpl.
    unfold load. rewrite !lookup_write, ?decide_False, Ha by (rewrite ?length_write; done).
    simpl. rewrite Ep. simpl.
    rewrite !lookup_write, ?decide_False, Ha by (rewrite ?length_write; done).
    simpl.
    rewrite !lookup_write, ?decide_True by (rewrite ?length_write; done).
    simpl.
    eexists. split; [done|]. split; [by rewrite !length_write|].
    split_and!; intros b;
      rewrite !fieldAt_write by (rewrite ?length_write; done);
      repeat case_decide; simplify_eq; try done;
      unfold fieldAt; by rewrite ?Ec, ?Ha; simpl; try rewrite ?En, ?Ep.
  - destruct (Hprev p eq_refl) as [Hpa Hp].
    destruct (h !! p) as [np|] eqn:Epp; [|done].
    pose proof (lookup_alloc _ _ _ Epp) as Lp.
    rewrite bind_Ok. unfold load. rewrite Ha. simpl. rewrite Ep. rewrite Epp. simpl. rewrite En.
    rewrite !lookup_write, ?decide_False, Ha by (rewrite ?length_write; done).
    simpl.
    rewrite !lookup_write, ?decide_True by (rewrite ?length_write; done).
    simpl.
    eexists. split; [done|]. split; [by rewrite !length_write|].
    split_and!; intros b;
      rewrite !fieldAt_write by (rewrite ?length_write; done);
      repeat case_decide; simplify_eq; try done;
      unfold fieldAt; by rewrite ?Epp, ?Ha; simpl; try rewrite ?En, ?Ep.
  - rewrite bind_Ok. unfold load. rewrite Ha. simpl. rewrite Ep, bind_Ok. rewrite Ha. simpl.
    rewrite !lookup_write, ?decide_True by (rewrite ?length_write; done).
    simpl.
    eexists. split; [done|]. split; [by rewrite !length_write|].
    split_and!; intros b;
      rewrite !fieldAt_write by (rewrite ?length_write; done);
      repeat case_decide; simplify_eq; try done;
      unfold fieldAt; by rewrite ?Ha; simpl; try rewrite ?En, ?Ep.
Qed.

Lemma is_chain_prev_in h p l1 a l2 :
  is_chain h p (l1 ++ a :: l2) →
  ∃ q, fieldAt prev h a = Some (Some q) ∧ q ∈ p :: l1.
Proof.
  revert p. induction l1 as [|b l1 IH]; intros p; simpl.
  - intros (_ & Hp & _). exists p. split; [done | set_solver].
  - intros (_ & _ & Hc). destruct (IH _ Hc) as (q & Hq & Hin).
    exists q. split; [done | set_solver].
Qed.

Lemma is_chain_next_head h p l1 a l2 :
  is_chain h p (l1 ++ a :: l2) → fieldAt next h a = Some (head l2).
Proof.
  revert p. induction l1 as [|b l1 IH]; intros p; simpl.
  - intros (_ & _ & Hc). destruct l2; simpl in *; [done | by destruct Hc].
  - intros (_ & _ & Hc). by eapply IH.
Qed.

Lemma filter_ne_notin a (l : list addr) :
  a ∉ l → filter (λ b, b ≠ a) l = l.
Proof.
  induction l as [|b l IH]; [done|]. intros Hn.
  rewrite filter_cons_True by set_solver. f_equal. apply IH. set_solver.
Qed.

Lemma filter_ne_middle a (l1 l2 : list addr) :
  a ∉ l1 → a ∉ l2 → filter (λ b, b ≠ a) (l1 ++ a :: l2) = l1 ++ l2.
Proof.
  intros H1 H2. rewrite filter_app, filter_cons_False by naive_solver.
  by rewrite !filter_ne_notin.
Qed.

Lemma StronglySorted_filter_lt (P : addr → Prop) `{∀ b, Decision (P b)} (l : list addr) :
  StronglySorted lt l → StronglySorted lt (filter P l).
Proof.
  induction 1 as [|b l Hs IH Hall]; [constructor|].
  rewrite filter_cons. case_decide; [|done].
  constructor; [done|]. apply Forall_forall. intros c [_ Hc]%list_elem_of_filter.
  rewrite Forall_forall in Hall. by apply Hall.
Qed.

Lemma StronglySorted_lt_NoDup (l : list addr) : StronglySorted lt l → NoDup l.
Proof.
  induction 1 as [|b l Hs IH Hall]; constructor; [|done].
  intros Hb. rewrite Forall_forall in Hall. specialize (Hall _ Hb). lia.
Qed.

(** Unlinking [a] from the chain it is in. *)
Lemma is_chain_detach h h' a na l2 :
  h !! a = Some na →
  (∀ b, fieldAt next h' b =
          if decide (b = a) then Some None
          else if decide (Some b = prev na) then Some (next na)
          else fieldAt next h b) →
  (∀ b, fieldAt prev h' b =
          if decide (b = a) then Some None
          else if decide (Some b = next na) then Some (prev na)
          else fieldAt prev h b) →
  ∀ l1 r,
    is_chain h r (l1 ++ a :: l2) → NoDup (r :: l1 ++ a :: l2) →
    is_chain h' r (l1 ++ l2).
Proof.
  intros Ha Hn Hp. induction l1 as [|b l1 IH]; intros r Hc Hnd.
  - simpl in *. destruct Hc as (Hra & Har & Hc).
    apply NoDup_cons in Hnd as [Hr Hnd]. apply NoDup_cons in Hnd as [Hal2 Hnd].
    assert (prev na = Some r) as Epr.
    { apply fieldAt_Some in Har as (n & Hn' & Hpr). congruence. }
    assert (r ≠ a) by set_solver.
    destruct l2 as [|c l2]; simpl in *.
    + assert (next na = None) as Enx.
      { apply fieldAt_Some in Hc as (n & Hn' & Hnx). congruence. }
      rewrite Hn, decide_False, decide_True by done. by rewrite Enx.
    + destruct Hc as (Hac & Hca & Hc).
      assert (next na = Some c) as Enx.
      { apply fieldAt_Some in Hac as (n & Hn' & Hnx). congruence. }
      apply NoDup_cons in Hnd as [Hcl2 Hnd].
      assert (c ≠ a) by set_solver. assert (c ≠ r) by set_solver.
      split_and!.
      * rewrite Hn, decide_False, decide_True by done. by rewrite Enx.
      * rewrite Hp, decide_False, decide_True by done. by rewrite Epr.
      * eapply is_chain_ext; [| |exact Hc].
        -- intros b Hb. rewrite Hn, decide_False, decide_False; [done| |].
           ++ rewrite Epr. intros [= ->]. set_solver.
           ++ intros ->. set_solver.
        -- intros b Hb. rewrite Hp, decide_False, decide_False; [done| |].
           ++ rewrite Enx. intros [= ->]. set_solver.
           ++ intros ->. set_solver.
  - simpl in Hc. destruct Hc as (Hrb & Hbr & Hc). simpl.
    pose proof Hnd as Hnd'.
    apply NoDup_cons in Hnd as [Hr Hnd].
    destruct (is_chain_prev_in _ _ _ _ _ Hc) as (q & Hq & Hqin).
    pose proof (is_chain_next_head _ _ _ _ _ Hc) as Hnx.
    assert (prev na = Some q) as Epr.
    { apply fieldAt_Some in Hq as (n & Hn' & Hpr). congruence. }
    assert (next na = head l2) as Enx.
    { apply fieldAt_Some in Hnx as (n & Hn' & Hnx). congruence. }
    pose proof Hnd as Hnd2. simpl in Hnd2.
    apply NoDup_cons in Hnd2 as [Hb Hnd2].
    split_and!.
    + rewrite Hn, decide_False, decide_False; [done| |].
      * rewrite Epr. intros [= ->]. set_solver.
      * intros ->. set_solver.
    + rewrite Hp, decide_False, decide_False; [done| |].
      * rewrite Enx. destruct l2 as [|c l2]; simpl; [done|].
        intros [= ->]. set_solver.
      * intros ->. set_solver.
    + by apply IH.
Qed.

Lemma chain_root_ne h tbl chains hv hv' r a :
  chains_ok h tbl chains → tbl !! hv = Some r → a ∈ chains hv' → r ≠ a.
Proof.
  intros Hok Hr Ha ->.
  destruct (ck_root _ _ _ Hok _ _ Hr) as [[Hd _] _].
  destruct (ck_hash _ _ _ Hok _ _ Ha) as (d & Hd' & _). congruence.
Qed.

Lemma chain_hash_inj h tbl chains hv hv' a :
  chains_ok h tbl chains → a ∈ chains hv → a ∈ chains hv' → hv = hv'.
Proof.
  intros Hok H1 H2.
  destruct (ck_hash _ _ _ Hok _ _ H1) as (d & Hd & <-).
  destruct (ck_hash _ _ _ Hok _ _ H2) as (d' & Hd' & <-). congruence.
Qed.

Lemma chain_has_root h tbl chains hv a :
  chains_ok h tbl chains → a ∈ chains hv → ∃ r, tbl !! hv = Some r.
Proof.
  intros Hok Ha. destruct (tbl !! hv) as [r|] eqn:E; [by exists r|].
  rewrite (ck_none _ _ _ Hok _ E) in Ha. by apply elem_of_nil in Ha.
Qed.

Lemma chain_NoDup h tbl chains hv r :
  chains_ok h tbl chains → tbl !! hv = Some r → NoDup (r :: chains hv).
Proof.
  intros Hok Hr. apply NoDup_cons. split.
  - intros Hin. by eapply chain_root_ne.
  - apply StronglySorted_lt_NoDup, (ck_sorted _ _ _ Hok).
Qed.

(** [detach] on a node of the wheel: the node leaves the chain it is in,
    if any, and nothing else changes. *)
Lemma chains_ok_detach h tbl chains a d :
  chains_ok h tbl chains →
  fieldAt data h a = Some (Some d) →
  a ∈ chains (fnvHash (Key d)) ∨ is_orphan h a →
  ∃ h', detach h a = Ok h' ∧ length h' = length h ∧
    (∀ b, fieldAt frameLink h' b = fieldAt frameLink h b) ∧
    (∀ b, fieldAt data h' b = fieldAt data h b) ∧
    chains_ok h' tbl (λ hv, filter (λ b, b ≠ a) (chains hv)) ∧
    is_orphan h' a ∧
    (∀ b d', fieldAt data h b = Some (Some d') → is_orphan h b →
             b ∉ chains (fnvHash (Key d')) → is_orphan h' b).
Proof.
  intros Hok Hda Hcase.
  set (hva := fnvHash (Key d)) in *.
  destruct (proj1 (fieldAt_Some _ _ _ _) Hda) as (na & Ha & Hdna).
  (* where the neighbours of [a] are *)
  assert (∀ hv, a ∈ chains hv → hv = hva) as Hhva.
  { intros hv Hin. destruct (ck_hash _ _ _ Hok _ _ Hin) as (d' & Hd' & <-).
    unfold hva. congruence. }
  assert (a ∉ chains hva → next na = None ∧ prev na = None) as Horph.
  { intros Hn. destruct Hcase as [?|[H1 H2]]; [done|].
    apply fieldAt_Some in H1 as (n1 & ? & ?), H2 as (n2 & ? & ?).
    split; congruence. }
  assert (∀ q, prev na = Some q →
            a ∈ chains hva ∧ (tbl !! hva = Some q ∨ q ∈ chains hva)) as Hprev.
  { intros q Hq. destruct (decide (a ∈ chains hva)) as [Hin|Hn].
    - split; [done|]. destruct (chain_has_root _ _ _ _ _ Hok Hin) as [r Hr].
      destruct (list_elem_of_split _ _ Hin) as (l1 & l2 & El).
      destruct (ck_root _ _ _ Hok _ _ Hr) as [_ Hc]. rewrite El in Hc.
      destruct (is_chain_prev_in _ _ _ _ _ Hc) as (q' & Hq' & Hqin).
      apply fieldAt_Some in Hq' as (n & ? & ?).
      assert (q' = q) as -> by congruence.
      apply elem_of_cons in Hqin as [->|Hqin]; [by left|].
      right. rewrite El. set_solver.
    - destruct (Horph Hn). congruence. }
  assert (∀ c, next na = Some c → a ∈ chains hva ∧ c ∈ chains hva) as Hnext.
  { intros c Hc. destruct (decide (a ∈ chains hva)) as [Hin|Hn].
    - split; [done|]. destruct (chain_has_root _ _ _ _ _ Hok Hin) as [r Hr].
      destruct (list_elem_of_split _ _ Hin) as (l1 & l2 & El).
      destruct (ck_root _ _ _ Hok _ _ Hr) as [_ Hch]. rewrite El in Hch.
      pose proof (is_chain_next_head _ _ _ _ _ Hch) as Hnx.
      apply fieldAt_Some in Hnx as (n & ? & Hnx).
      assert (head l2 = Some c) as Hhd by congruence.
      destruct l2 as [|c' l2]; simplify_eq/=. rewrite El. set_solver.
    - destruct (Horph Hn). congruence. }
  assert (∀ hv r, tbl !! hv = Some r → r ≠ a) as Hroot_a.
  { intros hv r Hr ->. destruct (ck_root _ _ _ Hok _ _ Hr) as [[Hd _] _]. congruence. }
  assert (∀ hv b, b ∈ chains hv → (b < length h)%nat) as Halloc.
  { intros hv b Hb. destruct (ck_hash _ _ _ Hok _ _ Hb) as (d' & Hd' & _).
    by eapply fieldAt_lt. }
  assert (∀ hv r, tbl !! hv = Some r → (r < length h)%nat) as Hralloc.
  { intros hv r Hr. destruct (ck_root _ _ _ Hok _ _ Hr) as [[Hd _] _].
    by eapply fieldAt_lt. }
  destruct (detach_fields h a na Ha) as (h' & Hdet & Hlen & Hn & Hp & Hfl & Hdt).
  { intros c Hc. destruct (Hnext c Hc) as [Hin Hcin]. split.
    - intros ->. destruct (chain_has_root _ _ _ _ _ Hok Hin) as [r Hr].
      destruct (list_elem_of_split _ _ Hin) as (l1 & l2 & El).
      destruct (ck_root _ _ _ Hok _ _ Hr) as [_ Hch]. rewrite El in Hch.
      pose proof (is_chain_next_head _ _ _ _ _ Hch) as Hnx.
      apply fieldAt_Some in Hnx as (n & ? & Hnx).
      assert (head l2 = Some a) as Hhd by congruence.
      destruct l2 as [|c' l2]; simplify_eq/=.
      pose proof (chain_NoDup _ _ _ _ _ Hok Hr) as Hnd. rewrite El in Hnd.
      apply NoDup_cons in Hnd as [_ Hnd]. apply NoDup_app in Hnd as (_ & _ & Hnd).
      apply NoDup_cons in Hnd as [Hnd _]. set_solver.
    - apply Halloc in Hcin. intros E%lookup_ge_None. lia. }
  { intros q Hq. destruct (Hprev q Hq) as [Hin [Hr|Hqin]]; split.
    - by eapply Hroot_a.
    - apply Hralloc in Hr. intros E%lookup_ge_None. lia.
    - intros ->. destruct (chain_has_root _ _ _ _ _ Hok Hin) as [r Hr].
      destruct (list_elem_of_split _ _ Hin) as (l1 & l2 & El).
      destruct (ck_root _ _ _ Hok _ _ Hr) as [_ Hch]. rewrite El in Hch.
      destruct (is_chain_prev_in _ _ _ _ _ Hch) as (q' & Hq' & Hq'in).
      apply fieldAt_Some in Hq' as (n & ? & ?).
      assert (q' = a) as -> by congruence.
      pose proof (chain_NoDup _ _ _ _ _ Hok Hr) as Hnd. rewrite El in Hnd.
      apply elem_of_cons in Hq'in as [->|Hq'in]; [by eapply Hroot_a|].
      apply NoDup_cons in Hnd as [_ Hnd]. apply NoDup_app in Hnd as (_ & Hnd & _).
      apply (Hnd a); set_solver.
    - apply Halloc in Hqin. intros E%lookup_ge_None. lia. }
  { intros c q Hc Hq ->. destruct (Hnext q Hc) as [Hin Hcin].
    destruct (chain_has_root _ _ _ _ _ Hok Hin) as [r Hr].
    destruct (list_elem_of_split _ _ Hin) as (l1 & l2 & El).
    destruct (ck_root _ _ _ Hok _ _ Hr) as [_ Hch]. rewrite El in Hch.
    destruct (is_chain_prev_in _ _ _ _ _ Hch) as (q' & Hq' & Hq'in).
    apply fieldAt_Some in Hq' as (n & ? & ?).
    assert (q' = q) as -> by congruence.
    pose proof (is_chain_next_head _ _ _ _ _ Hch) as Hnx.
    apply fieldAt_Some in Hnx as (n' & ? & Hnx).
    assert (head l2 = Some q) as Hhd by congruence.
    destruct l2 as [|c' l2]; simplify_eq/=.
    pose proof (chain_NoDup _ _ _ _ _ Hok Hr) as Hnd. rewrite El in Hnd.
    apply elem_of_cons in Hq'in as [->|Hq'in].
    - apply NoDup_cons in Hnd as [Hnd _]. set_solver.
    - apply NoDup_cons in Hnd as [_ Hnd]. apply NoDup_app in Hnd as (_ & Hnd & _).
      apply (Hnd q); set_solver. }
  exists h'. split; [done|]. split; [done|]. split; [done|]. split; [done|].
  split; [|split].
  - (* the chains *)
    split.
    + apply (ck_inj _ _ _ Hok).
    + intros hv r Hr. destruct (ck_root _ _ _ Hok _ _ Hr) as [[Hrd Hrp] Hch].
      split.
      * split; [by rewrite Hdt|].
        rewrite Hp, decide_False, decide_False; [done| |by eapply Hroot_a].
        intros Hrn. symmetry in Hrn. destruct (Hnext _ Hrn) as [_ Hrin].
        by eapply chain_root_ne.
      * destruct (decide (a ∈ chains hv)) as [Hin|Hn'].
        -- destruct (list_elem_of_split _ _ Hin) as (l1 & l2 & El).
           pose proof (chain_NoDup _ _ _ _ _ Hok Hr) as Hnd. rewrite El in Hnd.
           rewrite El in Hch. rewrite El.
           pose proof Hnd as Hnd'.
           apply NoDup_cons in Hnd' as [_ Hnd'].
           apply NoDup_app in Hnd' as (_ & Hd1 & Hd2).
           apply NoDup_cons in Hd2 as [Hd2 _].
           rewrite filter_ne_middle; [|intros ?; apply (Hd1 a); set_solver|done].
           by eapply is_chain_detach.
        -- rewrite filter_ne_notin by done.
           assert (hv = hva → next na = None ∧ prev na = None) as Hsame.
           { intros ->. by apply Horph. }
           eapply is_chain_ext; [| |exact Hch].
           ++ intros b Hb. rewrite Hn.
              rewrite decide_False.
              2:{ intros ->. apply elem_of_cons in Hb as [->|Hb]; [|done].
                  by eapply Hroot_a. }
              rewrite decide_False; [done|].
              intros Hbq. symmetry in Hbq. destruct (Hprev _ Hbq) as [Hin [Hq|Hq]].
              ** apply elem_of_cons in Hb as [->|Hb].
                 --- assert (hv = hva) as -> by (by eapply (ck_inj _ _ _ Hok)). done.
                 --- by destruct (chain_root_ne _ _ _ _ _ _ _ Hok Hq Hb).
              ** apply elem_of_cons in Hb as [->|Hb].
                 --- by destruct (chain_root_ne _ _ _ _ _ _ _ Hok Hr Hq).
                 --- assert (hv = hva) as -> by (by eapply chain_hash_inj). done.
           ++ intros b Hb. rewrite Hp.
              rewrite decide_False by (by intros ->).
              rewrite decide_False; [done|].
              intros Hbc. symmetry in Hbc. destruct (Hnext _ Hbc) as [Hin Hc].
              assert (hv = hva) as -> by (by eapply chain_hash_inj). done.
    + intros hv Hnone. by rewrite (ck_none _ _ _ Hok _ Hnone).
    + intros hv. apply StronglySorted_filter_lt, (ck_sorted _ _ _ Hok).
    + intros hv b [_ Hb]%list_elem_of_filter. rewrite Hdt.
      by apply (ck_hash _ _ _ Hok).
  - split; [rewrite Hn | rewrite Hp]; by rewrite decide_True.
  - intros b d' Hdb [Hbn Hbp] Hbnot. split.
    + rewrite Hn. case_decide; [done|]. rewrite decide_False; [done|].
      intros Hbq. symmetry in Hbq. destruct (Hprev _ Hbq) as [Hin [Hq|Hq]].
      * destruct (ck_root _ _ _ Hok _ _ Hq) as [[Hrd _] _]. congruence.
      * destruct (ck_hash _ _ _ Hok _ _ Hq) as (d2 & Hd2 & Hh2).
        assert (d2 = d') as -> by congruence. by rewrite Hh2 in Hbnot.
    + rewrite Hp. case_decide; [done|]. rewrite decide_False; [done|].
      intros Hbc. symmetry in Hbc. destruct (Hnext _ Hbc) as [Hin Hc].
      destruct (ck_hash _ _ _ Hok _ _ Hc) as (d2 & Hd2 & Hh2).
      assert (d2 = d') as -> by congruence. by rewrite Hh2 in Hbnot.
Qed.

Lemma chains_ok_ext h tbl chains chains' :
  (∀ hv, chains hv = chains' hv) → chains_ok h tbl chains → chains_ok h tbl chains'.
Proof.
  intros E [H1 H2 H3 H4 H5]. split; intros; rewrite <-?E; eauto.
  apply H5. by rewrite E.
Qed.

Lemma dataAt_fieldAt h a : dataAt h a = default None (fieldAt data h a).
Proof. unfold dataAt, fieldAt. by destruct (h !! a). Qed.

Lemma node_ok_detach h h' chains a b :
  (∀ c, fieldAt data h' c = fieldAt data h c) →
  is_orphan h' a →
  (∀ c d', fieldAt data h c = Some (Some d') → is_orphan h c →
           c ∉ chains (fnvHash (Key d')) → is_orphan h' c) →
  node_ok h chains b →
  node_ok h' (λ hv, filter (λ c, c ≠ a) (chains hv)) b.
Proof.
  intros Hdt Ha Horph (d & Hd & Hcase). exists d. split; [by rewrite Hdt|].
  destruct (decide (b = a)) as [->|Hne]; [by right|].
  destruct (decide (b ∈ chains (fnvHash (Key d)))) as [Hin|Hn].
  - left. by apply list_elem_of_filter.
  - right. destruct Hcase as [?|Ho]; [done|]. by eapply Horph.
Qed.

(** ** frame.prune *)

Lemma pruneLoop_spec tbl l :
  ∀ h chains link acc fuel,
    chains_ok h tbl chains → is_flist h link l → NoDup l →
    (length l ≤ fuel)%nat →
    (∀ a, a ∈ l → node_ok h chains a) →
    ∃ h', pruneLoop fuel h link acc = Ok (h', acc ++ map (dataAt h) l) ∧
      length h' = length h ∧
      (∀ b, fieldAt frameLink h' b = fieldAt frameLink h b) ∧
      (∀ b, fieldAt data h' b = fieldAt data h b) ∧
      chains_ok h' tbl (λ hv, filter (λ b, b ∉ l) (chains hv)) ∧
      (∀ b, node_ok h chains b →
            node_ok h' (λ hv, filter (λ b, b ∉ l) (chains hv)) b).
Proof.
  induction l as [|a l IH]; intros h chains link acc fuel Hok Hfl Hnd Hfuel Hnodes.
  - simpl in Hfl. subst link. exists h. simpl. rewrite app_nil_r.
    destruct fuel; simpl; (split; [done|]); (split; [done|]);
      (split; [done|]); (split; [done|]); split.
    1,3: eapply chains_ok_ext; [|done]; intros hv; symmetry;
         induction (chains hv) as [|c k IHk]; [done|];
         rewrite filter_cons_True by set_solver; by f_equal.
    all: intros b (d & Hd & Hc); exists d; split; [done|];
         destruct Hc as [Hc|Hc]; [left|by right];
         apply list_elem_of_filter; split; [set_solver|done].
  - simpl in Hfl. destruct Hfl as (-> & nxt & Hnxt & Hfl).
    destruct fuel as [|fuel]; [simpl in Hfuel; lia|]. simpl.
    apply NoDup_cons in Hnd as [Hal Hnd].
    destruct (Hnodes a) as (d & Hd & Hcase); [set_solver|].
    destruct (chains_ok_detach _ _ _ _ _ Hok Hd Hcase)
      as (h1 & Hdet & Hlen & Hfl1 & Hdt1 & Hok1 & Horph & Hkeep).
    rewrite Hdet, bind_Ok.
    assert (∃ an, h1 !! a = Some an ∧ frameLink an = nxt ∧ data an = Some d)
      as (an & Han & Hanf & Hand).
    { specialize (Hfl1 a). specialize (Hdt1 a). rewrite Hnxt in Hfl1. rewrite Hd in Hdt1.
      apply fieldAt_Some in Hfl1 as (n1 & Hn1 & ?), Hdt1 as (n2 & Hn2 & ?).
      exists n1. split; [done|]. split; [done|]. congruence. }
    rewrite (load_Some _ _ _ Han), bind_Ok. rewrite Hanf, Hand.
    destruct (IH h1 (λ hv, filter (λ b, b ≠ a) (chains hv)) nxt (acc ++ [Some d]) fuel)
      as (h' & Hrun & Hlen' & Hfl' & Hdt' & Hok' & Hnodes'); try done.
    + eapply is_flist_ext; [|done]. intros; apply Hfl1.
    + simpl in Hfuel. lia.
    + intros b Hb. eapply node_ok_detach; try done. apply Hnodes. set_solver.
    + exists h'. split.
      { rewrite Hrun. f_equal. f_equal. rewrite <-app_assoc. simpl. f_equal.
        f_equal.
        - by rewrite dataAt_fieldAt, Hd.
        - apply map_ext. intros b. by rewrite !dataAt_fieldAt, Hdt1. }
      split; [congruence|].
      split; [intros b; by rewrite Hfl', Hfl1|].
      split; [intros b; by rewrite Hdt', Hdt1|].
      assert (∀ hv, filter (λ b, b ∉ l) (filter (λ b, b ≠ a) (chains hv))
                    = filter (λ b, b ∉ a :: l) (chains hv)) as Efilter.
      { intros hv. rewrite list_filter_filter. apply list_filter_iff.
        intros b. set_solver. }
      split.
      * eapply chains_ok_ext; [|exact Hok']. done.
      * intros b Hb.
        destruct (Hnodes' b) as (d' & Hd' & Hc').
        { by eapply node_ok_detach. }
        exists d'. split; [done|]. by rewrite <-Efilter.
Qed.

Lemma concat_insert_nil (slots : list (list addr)) f fl :
  slots !! f = Some fl → concat slots ≡ₚ fl ++ concat (<[f := []]> slots).
Proof.
  intros Hf. pose proof (lookup_lt_Some _ _ _ Hf) as Hlt.
  rewrite insert_take_drop by done.
  rewrite <-(take_drop_middle _ _ _ Hf) at 1.
  rewrite !concat_app. simpl. rewrite Permutation_app_swap_app. done.
Qed.

Lemma NoDup_length_le (l : list addr) (n : nat) :
  NoDup l → (∀ b, b ∈ l → (b < n)%nat) → (length l ≤ n)%nat.
Proof.
  intros Hnd Hlt. rewrite <-(length_seq n 0%nat).
  apply submseteq_length, NoDup_submseteq; [done|].
  intros b Hb. apply elem_of_seq. specialize (Hlt _ Hb). lia.
Qed.

Lemma elem_of_concat_lookup (slots : list (list addr)) i l a :
  slots !! i = Some l → a ∈ l → a ∈ concat slots.
Proof.
  intros Hi Ha. apply list_elem_of_In, in_concat. exists l.
  split; apply list_elem_of_In; [by eapply list_elem_of_lookup_2 | done].
Qed.

Lemma framePrune_ok x chains slots j f fl :
  lru_ok x chains slots j → slots !! f = Some fl →
  ∃ x', framePrune x f = Ok (x', map (dataAt (heap x)) fl) ∧
    lru_ok x' (λ hv, filter (λ b, b ∉ fl) (chains hv)) (<[f := []]> slots) j ∧
    table x' = table x ∧ current x' = current x ∧ maxTick x' = maxTick x ∧
    count x' = count x ∧ length (frames x') = length (frames x) ∧
    (∀ b, fieldAt data (heap x') b = fieldAt data (heap x) b).
Proof.
  intros Hok Hf. destruct Hok as [Hmt Hfr Hcur Hcnt Hch Hsl Hnd Hnodes Hlinked Hdue].
  pose proof (concat_insert_nil _ _ _ Hf) as Hperm.
  destruct (Forall2_lookup_r _ _ _ _ _ Hsl Hf) as (head & Hhead & Hfl).
  assert (NoDup fl) as Hndfl.
  { rewrite Hperm in Hnd. by apply NoDup_app in Hnd as (? & _ & _). }
  destruct (pruneLoop_spec (table x) fl (heap x) chains head [] (length (heap x)))
    as (h' & Hrun & Hlen & Hflk & Hdt & Hch' & Hnodes'); try done.
  { apply NoDup_length_le; [done|]. by eapply is_flist_alloc. }
  { intros a Ha. apply Hnodes. by eapply elem_of_concat_lookup. }
  unfold framePrune. rewrite Hhead. simpl. rewrite Hrun, bind_Ok. simpl.
  eexists. split; [done|]. simpl.
  split; [|by rewrite length_insert].
  split; simpl; try done.
  - by rewrite length_insert.
  - apply Forall2_insert; [|done].
    eapply Forall2_impl; [exact Hsl|]. intros hd l Hl.
    eapply is_flist_ext; [|done]. intros; apply Hflk.
  - rewrite Hperm in Hnd. by apply NoDup_app in Hnd as (_ & _ & ?).
  - intros a Ha. apply Hnodes', Hnodes. rewrite Hperm. set_solver.
  - intros hv a [Hnot Ha]%list_elem_of_filter.
    specialize (Hlinked _ _ Ha). rewrite Hperm in Hlinked. set_solver.
  - intros i l a Hi Ha. unfold frameOf. simpl. rewrite length_insert.
    destruct (decide (f = i)) as [->|Hne].
    + rewrite list_lookup_insert_eq in Hi by (by eapply lookup_lt_Some).
      simplify_eq. by apply elem_of_nil in Ha.
    + rewrite list_lookup_insert_ne in Hi by done. by eapply Hdue.
Qed.

(** ** Prune *)

Lemma getFrame_ok x t :
  (0 < length (frames x))%nat →
  getFrame x (wrap64 t) = Ok (frameOf x t) ∧ (frameOf x t < length (frames x))%nat.
Proof.
  intros Hlen. unfold getFrame, frameOf.
  destruct (Z.eqb_spec (Z.of_nat (length (frames x))) 0) as [E|E]; [lia|].
  split; [done|].
  pose proof (Z.mod_pos_bound (wrap64 t) (Z.of_nat (length (frames x)))). lia.
Qed.

Lemma getFrame_empty x t : length (frames x) = 0%nat → getFrame x t = Fail DivideByZero.
Proof. intros E. unfold getFrame. by rewrite E. Qed.

Lemma lru_ok_due_step x chains slots j :
  lru_ok x chains slots j →
  slots !! frameOf x (current x + j) = Some [] →
  lru_ok x chains slots (j + 1).
Proof.
  intros [Hmt Hfr Hcur Hcnt Hch Hsl Hnd Hnodes Hlinked Hdue] Hempty.
  split; try done.
  intros i l a Hi Ha. destruct (Hdue i l a Hi Ha) as (r & Hr & ->).
  exists r. split; [|done].
  destruct (decide (r = j)) as [->|]; [|lia].
  rewrite Hempty in Hi. simplify_eq. by apply elem_of_nil in Ha.
Qed.

Lemma filter_all (P : addr → Prop) `{!∀ b, Decision (P b)} (l : list addr) :
  (∀ b, b ∈ l → P b) → filter P l = l.
Proof.
  induction l as [|a l IH]; intros Hall; [done|].
  rewrite filter_cons_True by (apply Hall; left). f_equal.
  apply IH. intros b Hb. apply Hall. by right.
Qed.

Lemma visits_ext x1 x n :
  ∀ j, length (frames x1) = length (frames x) → current x1 = current x →
       visits x1 j n = visits x j n.
Proof.
  induction n as [|n IH]; intros j Hl Hc; [done|]. simpl.
  rewrite IH by done. unfold frameOf. by rewrite Hl, Hc.
Qed.

Lemma pruneFrames_ok n :
  ∀ x chains slots j res,
    lru_ok x chains slots j →
    (0 < length (frames x))%nat ∨ n = 0%nat →
    ∃ x' chains' slots' addrs,
      pruneFrames n x j res = Ok (x', res ++ map (dataAt (heap x)) addrs) ∧
      lru_ok x' chains' slots' (j + Z.of_nat n) ∧
      addrs ++ concat slots' ≡ₚ concat slots ∧
      table x' = table x ∧ current x' = current x ∧ maxTick x' = maxTick x ∧
      count x' = count x ∧ length (frames x') = length (frames x) ∧
      (∀ b, fieldAt data (heap x') b = fieldAt data (heap x) b) ∧
      (∀ hv, chains' hv = filter (λ b, b ∉ addrs) (chains hv)) ∧
      addrs = taken slots (visits x j n) ∧
      slots' = drained slots (visits x j n).
Proof.
  induction n as [|n IH]; intros x chains slots j res Hok Hlen.
  - exists x, chains, slots, []. simpl. rewrite app_nil_r, Z.add_0_r.
    split_and!; try done. intros hv. symmetry. apply filter_all.
    intros b _. apply not_elem_of_nil.
  - destruct Hlen as [Hlen|?]; [|done].
    destruct (getFrame_ok x (current x + j) Hlen) as [Hget Hlt].
    simpl. rewrite Hget, bind_Ok.
    assert (∃ fl, slots !! frameOf x (current x + j) = Some fl) as [fl Hfl].
    { apply lookup_lt_is_Some. by rewrite <-(Forall2_length _ _ _ (ok_slots _ _ _ _ Hok)). }
    destruct (framePrune_ok _ _ _ _ _ _ Hok Hfl)
      as (x1 & Hrun & Hok1 & Htb & Hcu & Hmt & Hcn & Hln & Hdt).
    rewrite Hrun, bind_Ok. simpl.
    apply lru_ok_due_step in Hok1.
    2:{ unfold frameOf in *. rewrite Hln, Hcu.
        apply list_lookup_insert_eq. by eapply lookup_lt_Some. }
    destruct (IH x1 _ _ (j + 1) (res ++ map (dataAt (heap x)) fl) Hok1)
      as (x' & chains' & slots' & addrs & Hrun' & Hok' & Hperm & Htb' & Hcu' & Hmt' & Hcn' & Hln'
          & Hdt' & Hch' & Had' & Hsl').
    { left. by rewrite Hln. }
    assert (visits x1 (j + 1) n = visits x (j + 1) n) as Hvis.
    { by apply visits_ext. }
    rewrite Hvis in Had', Hsl'.
    exists x', chains', slots', (fl ++ addrs). split.
    { rewrite Hrun'. f_equal. f_equal. rewrite <-app_assoc, map_app. f_equal. f_equal.
      apply map_ext. intros b. by rewrite !dataAt_fieldAt, Hdt. }
    split.
    { replace (j + Z.of_nat (S n)) with (j + 1 + Z.of_nat n) by lia. done. }
    split.
    { rewrite <-app_assoc, Hperm. symmetry. by apply concat_insert_nil. }
    split_and!; try congruence.
    + intros hv. rewrite Hch', list_filter_filter. apply list_filter_iff.
      intros b. rewrite elem_of_app. tauto.
    + simpl. rewrite Hfl. simpl. by rewrite <-Had'.
Qed.

Lemma pruneFrames_empty n x j res :
  length (frames x) = 0%nat → n ≠ 0%nat →
  pruneFrames n x j res = Fail DivideByZero.
Proof.
  intros E Hn. destruct n; [done|]. simpl. by rewrite getFrame_empty.
Qed.

Lemma wrap64_range z : isTick (wrap64 z).
Proof. unfold isTick, wrap64. apply Z.mod_pos_bound. lia. Qed.

Lemma wrapInt_range z : - 2 ^ 63 ≤ wrapInt z < 2 ^ 63.
Proof.
  unfold wrapInt. pose proof (Z.mod_pos_bound (z + 2 ^ 63) (2 ^ 64)). lia.
Qed.

Lemma wrap64_add_sub (c d e : Z) : wrap64 (wrap64 (c + d) + (e - d)) = wrap64 (c + e).
Proof.
  unfold wrap64. rewrite Zplus_mod_idemp_l. f_equal. lia.
Qed.

Lemma Prune_ok x chains slots (p : Z) :
  lru_ok x chains slots 0 → isTick p →
  (0 < length (frames x))%nat ∨ p = 0 →
  ∃ x' chains' slots' addrs,
    Prune x p = Ok (x', map (dataAt (heap x)) addrs) ∧
    lru_ok x' chains' slots' 0 ∧
    addrs ++ concat slots' ≡ₚ concat slots ∧
    (maxTick x < p → concat slots' = []) ∧
    table x' = table x ∧ current x' = wrap64 (current x + p) ∧
    maxTick x' = maxTick x ∧
    count x' = wrapInt (count x - Z.of_nat (length addrs)) ∧
    length (frames x') = length (frames x) ∧
    (∀ b, fieldAt data (heap x') b = fieldAt data (heap x) b) ∧
    (∀ hv, chains' hv = filter (λ b, b ∉ addrs) (chains hv)) ∧
    addrs = taken slots (visits x 0 (Z.to_nat p)) ∧
    slots' = drained slots (visits x 0 (Z.to_nat p)).
Proof.
  intros Hok Hp Hlen.
  destruct (pruneFrames_ok (Z.to_nat p) x chains slots 0 [] Hok)
    as (x1 & chains' & slots' & addrs & Hrun & Hok1 & Hperm & Htb & Hcu & Hmt & Hcn & Hln
        & Hdt & Hch' & Had & Hsl').
  { destruct Hlen as [?| ->]; [by left | by right]. }
  unfold Prune. rewrite Hrun, bind_Ok. simpl.
  exists (mkLruMap (heap x1) (table x1) (frames x1) (wrap64 (current x1 + p))
            (maxTick x1)
            (wrapInt (count x1 - Z.of_nat (length (map (dataAt (heap x)) addrs))))),
    chains', slots', addrs.
  rewrite Z2Nat.id in Hok1 by (destruct Hp; lia). simpl in Hok1.
  destruct Hok1 as [Hmt1 Hfr1 Hcur1 Hcnt1 Hch1 Hsl1 Hnd1 Hnodes1 Hlinked1 Hdue1].
  split; [done|]. split.
  { split; simpl; try done.
    - apply wrap64_range.
    - apply wrapInt_range.
    - intros i l a Hi Ha. destruct (Hdue1 i l a Hi Ha) as (r & Hr & ->).
      exists (r - p). split; [unfold isTick in *; lia|]. unfold frameOf. simpl.
      by rewrite wrap64_add_sub. }
  split; [done|]. split.
  { intros Hlt. destruct (concat slots') as [|a k] eqn:E; [done|].
    assert (a ∈ concat slots') as Ha by (rewrite E; set_solver).
    apply list_elem_of_In, in_concat in Ha as (l & Hl & Ha).
    apply list_elem_of_In, list_elem_of_lookup in Hl as [i Hi].
    apply list_elem_of_In in Ha.
    destruct (Hdue1 i l a Hi Ha) as (r & Hr & _). lia. }
  simpl. rewrite length_map. split_and!; congruence.
Qed.

(** ** insert *)

(** [attach] at the tail of a chain: [next] of the tail and [prev] of the
    new node are the only links written. *)
Lemma attach_fields h q new nq nn :
  h !! q = Some nq → next nq = None → h !! new = Some nn → q ≠ new →
  ∃ h', attach h q new = Ok h' ∧ length h' = length h ∧
    (∀ b, fieldAt next h' b =
            if decide (b = q) then Some (Some new) else fieldAt next h b) ∧
    (∀ b, fieldAt prev h' b =
            if decide (b = new) then Some (Some q) else fieldAt prev h b) ∧
    (∀ b, fieldAt frameLink h' b = fieldAt frameLink h b) ∧
    (∀ b, fieldAt data h' b = fieldAt data h b).
Proof.
  intros Hq Hnq Hnew Hne. unfold attach.
  pose proof (lookup_alloc _ _ _ Hq) as Lq.
  pose proof (lookup_alloc _ _ _ Hnew) as Lnew.
  unfold load. rewrite Hq. simpl. rewrite Hnq.
  rewrite lookup_write, decide_False, Hnew by done. simpl.
  eexists. split; [done|]. split; [by rewrite !length_write|].
  split_and!; intros b;
    rewrite !fieldAt_write by (rewrite ?length_write; done);
    repeat case_decide; simplify_eq; try done;
    unfold fieldAt; by rewrite ?Hq, ?Hnew.
Qed.

Lemma default_last_cons (p b : addr) (l : list addr) :
  default p (last (b :: l)) = default b (last l).
Proof. rewrite last_cons. by destruct (last l). Qed.

Lemma default_last_in (b : addr) (l : list addr) : default b (last l) ∈ b :: l.
Proof.
  destruct (last l) as [c|] eqn:E; simpl; [|set_solver].
  apply last_Some_elem_of in E. set_solver.
Qed.

(** The loop of [insert] stops either at a node that is not the last of
    the chain and whose key equals the new one, or at the last node, to
    which the new node is attached. *)
Lemma insertLoop_spec h new nn dn :
  h !! new = Some nn → data nn = Some dn →
  ∀ l p fuel, is_chain h p l → (length l ≤ fuel)%nat →
    insertLoop fuel h p new = Ok (h, Some ErrDuplicatedKey) ∨
    insertLoop fuel h p new = (h' ← attach h (default p (last l)) new; Ok (h', None)).
Proof.
  intros Hnew Hdn. induction l as [|b l IH]; intros p fuel Hc Hfuel.
  - simpl in Hc. apply fieldAt_Some in Hc as (np & Hp & Hnp). right.
    destruct fuel; simpl; unfold load; by rewrite Hp; simpl; rewrite Hnp.
  - simpl in Hc. destruct Hc as (Hpb & _ & Hc).
    apply fieldAt_Some in Hpb as (np & Hp & Hnp).
    destruct fuel as [|fuel]; [simpl in Hfuel; lia|].
    assert (insertLoop (S fuel) h p new =
            (e ← equals h p new;
             if (e : bool) then Ok (h, Some ErrDuplicatedKey)
             else insertLoop fuel h b new)) as ->.
    { simpl. unfold load at 1. rewrite Hp. simpl. by rewrite Hnp. }
    assert (∃ e, equals h p new = Ok e) as [e He].
    { unfold equals, load. rewrite Hp, Hnew. simpl. rewrite Hdn.
      destruct (data np) as [d|] eqn:Ed; [|by eexists].
      unfold matchKey, load. rewrite Hp. simpl. rewrite Ed. by eexists. }
    rewrite He, bind_Ok. destruct e; [by left|].
    rewrite default_last_cons. apply IH; [done | simpl in Hfuel; lia].
Qed.

Lemma elem_of_removelast (l : list addr) b : b ∈ removelast l → b ∈ l.
Proof.
  induction l as [|a [|c l] IH]; simpl; [done| |].
  - intros Hb. by apply elem_of_nil in Hb.
  - intros [->|Hb]%elem_of_cons; [by left|]. right. by apply IH.
Qed.

Lemma elem_of_removelast_cons (l : list addr) a b :
  b ∈ removelast l → b ∈ removelast (a :: l).
Proof. destruct l as [|c l]; [done|]. intros Hb. by right. Qed.

(** The loop of [insert] compares the new node with the node the walk
    starts from and with every node of the chain but the last one: it
    reports a duplicate exactly when one of them carries the key. *)
Lemma insertLoop_dup h new nn dn :
  h !! new = Some nn → data nn = Some dn →
  ∀ l p fuel h', is_chain h p l →
    insertLoop fuel h p new = Ok (h', Some ErrDuplicatedKey) →
    ∃ b, b ∈ removelast (p :: l) ∧ keyAt h b = Some (Key dn).
Proof.
  intros Hnew Hdn. induction l as [|b l IH]; intros p fuel h' Hc Hrun.
  - simpl in Hc. apply fieldAt_Some in Hc as (np & Hp & Hnp). exfalso.
    destruct fuel; simpl in Hrun; unfold load in Hrun; rewrite Hp in Hrun;
      simpl in Hrun; rewrite Hnp in Hrun;
      by destruct (attach h p new).
  - simpl in Hc. destruct Hc as (Hpb & _ & Hc).
    apply fieldAt_Some in Hpb as (np & Hp & Hnp).
    destruct fuel as [|fuel].
    { exfalso. simpl in Hrun. unfold load in Hrun. rewrite Hp in Hrun.
      simpl in Hrun. by rewrite Hnp in Hrun. }
    assert (insertLoop (S fuel) h p new =
            (e ← equals h p new;
             if (e : bool) then Ok (h, Some ErrDuplicatedKey)
             else insertLoop fuel h b new)) as E.
    { simpl. unfold load at 1. rewrite Hp. simpl. by rewrite Hnp. }
    rewrite E in Hrun. clear E.
    destruct (equals h p new) as [[|]|f] eqn:He; [| |done]; rewrite bind_Ok in Hrun.
    + exists p. split; [by left|].
      unfold equals, load in He. rewrite Hp, Hnew in He. simpl in He.
      rewrite Hdn in He. destruct (data np) as [d|] eqn:Ed; [|done].
      unfold matchKey, load in He. rewrite Hp in He. simpl in He.
      rewrite Ed in He. injection He as He. apply bool_decide_eq_true in He.
      unfold keyAt, dataAt. rewrite Hp. simpl. rewrite Ed. simpl. by rewrite He.
    + destruct (IH b fuel h' Hc Hrun) as (c & Hcin & Hk).
      exists c. split; [by right | done].
Qed.

Lemma insertLoop_nodup h new nn dn :
  h !! new = Some nn → data nn = Some dn →
  ∀ l p fuel h', is_chain h p l →
    insertLoop fuel h p new = Ok (h', None) →
    ∀ b, b ∈ removelast (p :: l) → keyAt h b ≠ Some (Key dn).
Proof.
  intros Hnew Hdn. induction l as [|b l IH]; intros p fuel h' Hc Hrun c Hcin.
  - by apply elem_of_nil in Hcin.
  - simpl in Hc. destruct Hc as (Hpb & _ & Hc).
    apply fieldAt_Some in Hpb as (np & Hp & Hnp).
    destruct fuel as [|fuel].
    { exfalso. simpl in Hrun. unfold load in Hrun. rewrite Hp in Hrun.
      simpl in Hrun. by rewrite Hnp in Hrun. }
    assert (insertLoop (S fuel) h p new =
            (e ← equals h p new;
             if (e : bool) then Ok (h, Some ErrDuplicatedKey)
             else insertLoop fuel h b new)) as E.
    { simpl. unfold load at 1. rewrite Hp. simpl. by rewrite Hnp. }
    rewrite E in Hrun. clear E.
    destruct (equals h p new) as [[|]|f] eqn:He; [| |done]; rewrite bind_Ok in Hrun;
      [done|].
    change (removelast (p :: b :: l)) with (p :: removelast (b :: l)) in Hcin.
    apply elem_of_cons in Hcin as [->|Hcin]; [|by eapply IH].
    unfold equals, load in He. rewrite Hp, Hnew in He. simpl in He.
    rewrite Hdn in He. unfold keyAt, dataAt. rewrite Hp. simpl.
    destruct (data np) as [d|] eqn:Ed; [|done].
    unfold matchKey, load in He. rewrite Hp in He. simpl in He.
    rewrite Ed in He. injection He as He. apply bool_decide_eq_false in He.
    simpl. congruence.
Qed.

Lemma is_chain_snoc h h' new :
  ∀ l r, is_chain h r l → NoDup (r :: l) → new ∉ r :: l →
    (∀ b, fieldAt next h' b =
            if decide (b = default r (last l)) then Some (Some new)
            else fieldAt next h b) →
    (∀ b, fieldAt prev h' b =
            if decide (b = new) then Some (Some (default r (last l)))
            else fieldAt prev h b) →
    fieldAt next h new = Some None →
    is_chain h' r (l ++ [new]).
Proof.
  induction l as [|b l IH]; intros r Hc Hnd Hnew Hn Hp Hnn; simpl in *.
  - split_and!.
    + rewrite Hn. by rewrite decide_True.
    + rewrite Hp. by rewrite decide_True.
    + rewrite Hn, decide_False; [done | set_solver].
  - destruct Hc as (Hrb & Hbr & Hc).
    apply NoDup_cons in Hnd as [Hr Hnd].
    pose proof (default_last_in b l) as Hin.
    split_and!.
    + rewrite Hn, decide_False; [done|]. rewrite default_last_cons.
      intros ->. done.
    + rewrite Hp, decide_False; [done | set_solver].
    + apply IH; try done.
      * set_solver.
      * intros c. rewrite Hn. by rewrite default_last_cons.
      * intros c. rewrite Hp. by rewrite default_last_cons.
Qed.

Lemma StronglySorted_lt_snoc (l : list addr) (new : addr) :
  StronglySorted lt l → (∀ b, b ∈ l → (b < new)%nat) →
  StronglySorted lt (l ++ [new]).
Proof.
  intros Hs Hlt. apply StronglySorted_app_2; [|done | repeat constructor].
  intros b c Hb ->%list_elem_of_singleton. by apply Hlt.
Qed.

Lemma is_chain_last h l : ∀ r, is_chain h r l → fieldAt next h (default r (last l)) = Some None.
Proof.
  induction l as [|b l IH]; intros r; simpl; [done|].
  intros (_ & _ & Hc). rewrite default_last_cons. by apply IH.
Qed.

(** [insert] on a fresh node: the node is appended to the chain of its
    hash, unless a node of the chain other than the last has its key. *)
Lemma insert_ok h tbl chains hv r new obj :
  chains_ok h tbl chains → tbl !! hv = Some r →
  fieldAt data h new = Some (Some obj) → fnvHash (Key obj) = hv →
  is_orphan h new →
  (∀ hv' b, b ∈ chains hv' → (b < new)%nat) →
  ∃ h' e chains', insert h r new = Ok (h', e) ∧ length h' = length h ∧
    (∀ b, fieldAt frameLink h' b = fieldAt frameLink h b) ∧
    (∀ b, fieldAt data h' b = fieldAt data h b) ∧
    chains_ok h' tbl chains' ∧
    ((e = Some ErrDuplicatedKey ∧ chains' = chains) ∨
     (e = None ∧
      chains' = (λ hv', if decide (hv' = hv) then chains hv ++ [new] else chains hv'))) ∧
    (∀ b, node_ok h chains b ∨ b = new → node_ok h' chains' b) ∧
    (e = Some ErrDuplicatedKey ↔
     ∃ b, b ∈ removelast (chains hv) ∧ keyAt h b = Some (Key obj)).
Proof.
  intros Hok Hr Hdata Hhv Horph Hfresh.
  destruct (ck_root _ _ _ Hok _ _ Hr) as [[Hrd Hrp] Hch].
  pose proof (chain_NoDup _ _ _ _ _ Hok Hr) as Hnd.
  destruct (proj1 (fieldAt_Some _ _ _ _) Hdata) as (nn & Hnew & Hdn).
  assert (new ∉ r :: chains hv) as Hnotin.
  { intros [->|Hin]%elem_of_cons; [congruence|]. specialize (Hfresh _ _ Hin). lia. }
  assert (node_ok h chains new) as Hnode_new.
  { exists obj. split; [done | by right]. }
  unfold insert.
  destruct (insertLoop_spec h new nn obj Hnew Hdn (chains hv) r (length h) Hch)
    as [Hrun|Hrun].
  { apply NoDup_cons in Hnd as [_ Hnd]. apply NoDup_length_le; [done|].
    intros b Hb. eapply is_chain_alloc; [exact Hch | set_solver]. }
  - (* a duplicate is reported: nothing is written *)
    exists h, (Some ErrDuplicatedKey), chains. rewrite Hrun.
    split_and!; try done; [by left| |].
    { intros b [?| ->]; done. }
    split; [intros _|done].
    destruct (insertLoop_dup h new nn obj Hnew Hdn _ _ _ _ Hch Hrun) as (b & Hb & Hk).
    exists b. split; [|done].
    destruct (chains hv) as [|c l]; [by apply elem_of_nil in Hb|].
    change (removelast (r :: c :: l)) with (r :: removelast (c :: l)) in Hb.
    apply elem_of_cons in Hb as [->|Hb]; [|done].
    unfold keyAt in Hk. rewrite dataAt_fieldAt, Hrd in Hk. done.
  - (* the node is attached to the last node of the chain *)
    set (q := default r (last (chains hv))) in *.
    pose proof (default_last_in r (chains hv)) as Hq. fold q in Hq.
    pose proof (is_chain_last _ _ _ Hch) as Hqn. fold q in Hqn.
    apply fieldAt_Some in Hqn as (nq & Hnq & Hnqn).
    assert (q ≠ new) as Hqnew by (intros ->; done).
    destruct (attach_fields h q new nq nn Hnq Hnqn Hnew Hqnew)
      as (h' & Hatt & Hlen & Hn & Hp & Hfl & Hdt).
    rewrite Hatt, bind_Ok in Hrun.
    set (chains' := λ hv', if decide (hv' = hv) then chains hv ++ [new] else chains hv').
    assert (∀ hv' b, b ∈ chains hv' → b ∈ chains' hv') as Hsub.
    { intros hv' b Hb. unfold chains'. case_decide; [subst; set_solver | done]. }
    assert (∀ hv' b, b ∈ chains hv' → b ≠ new) as Hold.
    { intros hv' b Hb ->. specialize (Hfresh _ _ Hb). lia. }
    exists h', None, chains'. rewrite Hrun.
    split; [done|]. split; [done|]. split; [done|]. split; [done|].
    split; [|split; [by right|split]].
    3:{ split; [done|]. intros (b & Hb & Hk). exfalso.
        eapply (insertLoop_nodup h new nn obj Hnew Hdn _ _ _ _ Hch Hrun);
          [by apply elem_of_removelast_cons | done]. }
    + split.
      * apply (ck_inj _ _ _ Hok).
      * intros hv' r' Hr'. destruct (ck_root _ _ _ Hok _ _ Hr') as [[Hrd' Hrp'] Hch'].
        split.
        -- split; [by rewrite Hdt|]. rewrite Hp, decide_False; [done|].
           intros ->. congruence.
        -- unfold chains'. case_decide as Ehv.
           ++ subst hv'. assert (r' = r) as -> by congruence.
              eapply is_chain_snoc; try done. by destruct Horph.
           ++ eapply is_chain_ext; [| |exact Hch'].
              ** intros b Hb. rewrite Hn, decide_False; [done|]. intros ->.
                 apply elem_of_cons in Hb as [Hb|Hb], Hq as [Hq|Hq].
                 --- rewrite Hq in Hb. subst r'. by eapply Ehv, (ck_inj _ _ _ Hok).
                 --- rewrite Hb in Hq. by destruct (chain_root_ne _ _ _ _ _ _ _ Hok Hr' Hq).
                 --- rewrite Hq in Hb. by destruct (chain_root_ne _ _ _ _ _ _ _ Hok Hr Hb).
                 --- by eapply Ehv, chain_hash_inj.
              ** intros b Hb. rewrite Hp, decide_False; [done|]. by eapply Hold.
      * intros hv' Hnone. unfold chains'. rewrite decide_False by congruence.
        by apply (ck_none _ _ _ Hok).
      * intros hv'. unfold chains'. case_decide.
        -- apply StronglySorted_lt_snoc; [apply (ck_sorted _ _ _ Hok)|].
           intros b Hb. by eapply Hfresh.
        -- apply (ck_sorted _ _ _ Hok).
      * intros hv' a. unfold chains'. rewrite Hdt. case_decide as Ehv.
        -- intros [Ha| ->%list_elem_of_singleton]%elem_of_app.
           ++ rewrite Ehv. by apply (ck_hash _ _ _ Hok).
           ++ exists obj. split; [done | congruence].
        -- apply (ck_hash _ _ _ Hok).
    + intros b Hb. destruct (decide (b = new)) as [->|Hbnew].
      * exists obj. split; [by rewrite Hdt|]. left.
        unfold chains'. rewrite decide_True by done. set_solver.
      * destruct Hb as [(d & Hd & Hcase)|?]; [|done].
        exists d. split; [by rewrite Hdt|].
        destruct (decide (b ∈ chains (fnvHash (Key d)))) as [Hin|Hnin].
        { left. by apply Hsub. }
        right. destruct Hcase as [?|[Hbn Hbp]]; [done|]. split.
        -- rewrite Hn, decide_False; [done|]. intros ->.
           apply elem_of_cons in Hq as [Hq|Hq].
           ++ rewrite Hq in Hd. congruence.
           ++ destruct (ck_hash _ _ _ Hok _ _ Hq) as (d2 & Hd2 & Hh2).
              assert (d2 = d) as -> by congruence. by rewrite Hh2 in Hnin.
        -- by rewrite Hp, decide_False.
Qed.

(** ** Allocation *)

Lemma is_chain_app_heap h k l : ∀ p, is_chain h p l → is_chain (h ++ k) p l.
Proof.
  induction l as [|a l IH]; intros p; simpl.
  - apply fieldAt_app_Some.
  - intros (H1 & H2 & H3). split_and!; [by apply fieldAt_app_Some..|by apply IH].
Qed.

Lemma is_flist_app_heap h k l : ∀ head, is_flist h head l → is_flist (h ++ k) head l.
Proof.
  induction l as [|a l IH]; intros head; simpl; [done|].
  intros (-> & nxt & H1 & H2). split; [done|]. exists nxt.
  split; [by apply fieldAt_app_Some | by apply IH].
Qed.

Lemma chains_ok_app_heap h k tbl chains :
  chains_ok h tbl chains → chains_ok (h ++ k) tbl chains.
Proof.
  intros [H1 H2 H3 H4 H5]. split; try done.
  - intros hv r Hr. destruct (H2 _ _ Hr) as [[Hd Hp] Hc].
    split; [split; by apply fieldAt_app_Some | by apply is_chain_app_heap].
  - intros hv a Ha. destruct (H5 _ _ Ha) as (d & Hd & Hh).
    exists d. split; [by apply fieldAt_app_Some | done].
Qed.

Lemma node_ok_app_heap h k chains a :
  node_ok h chains a → node_ok (h ++ k) chains a.
Proof.
  intros (d & Hd & Hc). exists d. split; [by apply fieldAt_app_Some|].
  destruct Hc as [?|[Hn Hp]]; [by left|]. right. split; by apply fieldAt_app_Some.
Qed.

(** [bkt = &bucket{}; x.table[hv] = bkt] *)
Lemma chains_ok_bucket h tbl chains hv :
  chains_ok h tbl chains → tbl !! hv = None →
  chains_ok (h ++ [emptyNode]) (<[hv := length h]> tbl) chains.
Proof.
  intros Hok Hnone. pose proof (chains_ok_app_heap _ [emptyNode] _ _ Hok) as Hok'.
  destruct Hok' as [H1 H2 H3 H4 H5].
  assert (∀ hv' r, tbl !! hv' = Some r → (r < length h)%nat) as Hlt.
  { intros hv' r Hr. destruct (ck_root _ _ _ Hok _ _ Hr) as [[Hd _] _].
    by eapply fieldAt_lt. }
  split; try done.
  - intros hv1 hv2 r. rewrite !lookup_insert. repeat case_decide; subst; try done.
    + intros [= <-] Hr. apply Hlt in Hr. lia.
    + intros Hr [= <-]. apply Hlt in Hr. lia.
    + apply H1.
  - intros hv' r. rewrite lookup_insert. case_decide as E.
    + intros [= <-]. subst hv'. rewrite (ck_none _ _ _ Hok _ Hnone). simpl.
      unfold is_root. by rewrite !fieldAt_app_new.
    + apply H2.
  - intros hv'. rewrite lookup_insert. case_decide; [done | apply H3].
Qed.

(** Chains and nodes read [next], [prev] and [data] only. *)
Lemma chains_ok_same h h' tbl chains :
  (∀ b, fieldAt next h' b = fieldAt next h b) →
  (∀ b, fieldAt prev h' b = fieldAt prev h b) →
  (∀ b, fieldAt data h' b = fieldAt data h b) →
  chains_ok h tbl chains → chains_ok h' tbl chains.
Proof.
  intros Hn Hp Hd [H1 H2 H3 H4 H5]. split; try done.
  - intros hv r Hr. destruct (H2 _ _ Hr) as [[Hrd Hrp] Hc].
    split; [split; congruence|]. eapply is_chain_ext; [..|exact Hc]; intros; done.
  - intros hv a Ha. rewrite Hd. by apply H5.
Qed.

Lemma node_ok_same h h' chains a :
  (∀ b, fieldAt next h' b = fieldAt next h b) →
  (∀ b, fieldAt prev h' b = fieldAt prev h b) →
  (∀ b, fieldAt data h' b = fieldAt data h b) →
  node_ok h chains a → node_ok h' chains a.
Proof.
  intros Hn Hp Hd (d & Hda & Hc). exists d. split; [by rewrite Hd|].
  destruct Hc as [?|[H1 H2]]; [by left|]. right. split; congruence.
Qed.

Lemma concat_insert_cons (slots : list (list addr)) f fl a :
  slots !! f = Some fl → concat (<[f := a :: fl]> slots) ≡ₚ a :: concat slots.
Proof.
  intros Hf. pose proof (lookup_lt_Some _ _ _ Hf) as Hlt.
  rewrite insert_take_drop by done.
  rewrite <-(take_drop_middle _ _ _ Hf) at 3.
  rewrite !concat_app. simpl.
  by rewrite <-Permutation_middle.
Qed.

(** ** Put *)

Lemma Put_unfold x obj (ttl : Z) :
  Put x obj ttl =
  if Z.ltb (maxTick x) ttl then Ok (x, Some ErrTTLOverMaxTick)
  else
    match table x !! fnvHash (Key obj) with
    | Some b => Put_node x obj ttl (heap x) (table x) b
    | None =>
        Put_node x obj ttl (heap x ++ [emptyNode])
          (<[fnvHash (Key obj) := length (heap x)]> (table x)) (length (heap x))
    end.
Proof.
  unfold Put, Put_node. destruct (Z.ltb (maxTick x) ttl); [done|].
  by destruct (table x !! fnvHash (Key obj)).
Qed.

Lemma write_frameLink_fields h a n v :
  h !! a = Some n →
  (∀ b, fieldAt next (write h a (set_frameLink v n)) b = fieldAt next h b) ∧
  (∀ b, fieldAt prev (write h a (set_frameLink v n)) b = fieldAt prev h b) ∧
  (∀ b, fieldAt data (write h a (set_frameLink v n)) b = fieldAt data h b) ∧
  (∀ b, fieldAt frameLink (write h a (set_frameLink v n)) b =
          if decide (b = a) then Some v else fieldAt frameLink h b).
Proof.
  intros Ha. pose proof (lookup_alloc _ _ _ Ha) as La.
  split_and!; intros b; rewrite fieldAt_write by done;
    repeat case_decide; simplify_eq; try done; unfold fieldAt; by rewrite Ha.
Qed.

Lemma Put_node_ok x chains slots obj (ttl : Z) h1 tbl1 bkt k :
  lru_ok x chains slots 0 → isTick ttl → ttl ≤ maxTick x →
  (0 < length (frames x))%nat →
  h1 = heap x ++ k → chains_ok h1 tbl1 chains →
  tbl1 !! fnvHash (Key obj) = Some bkt →
  ∃ x' chains' slots' new,
    Put_node x obj ttl h1 tbl1 bkt = Ok (x', None) ∧
    lru_ok x' chains' slots' 0 ∧
    (length (heap x) ≤ new)%nat ∧
    concat slots' ≡ₚ new :: concat slots ∧
    fieldAt data (heap x') new = Some (Some obj) ∧
    (∀ b v, fieldAt data (heap x) b = Some v → fieldAt data (heap x') b = Some v) ∧
    (∀ hv, chains' hv = chains hv ∨
           (hv = fnvHash (Key obj) ∧ chains' hv = chains hv ++ [new])) ∧
    table x' = tbl1 ∧
    current x' = current x ∧ maxTick x' = maxTick x ∧
    count x' = wrapInt (count x + 1) ∧
    length (frames x') = length (frames x) ∧
    slots' = <[frameOf x (current x + ttl) :=
                 new :: default [] (slots !! frameOf x (current x + ttl))]> slots ∧
    ((chains' = chains ∧
      ∃ b, b ∈ removelast (chains (fnvHash (Key obj))) ∧
           keyAt (heap x) b = Some (Key obj)) ∨
     (chains' = (λ hv, if decide (hv = fnvHash (Key obj))
                       then chains (fnvHash (Key obj)) ++ [new] else chains hv) ∧
      ¬ ∃ b, b ∈ removelast (chains (fnvHash (Key obj))) ∧
             keyAt (heap x) b = Some (Key obj))).
Proof.
  intros Hok Httl Hle Hlen Eh1 Hch1 Hbkt.
  destruct Hok as [Hmt Hfr Hcur Hcnt Hch Hsl Hnd Hnodes Hlinked Hdue].
  set (hv := fnvHash (Key obj)) in *.
  set (new := length h1).
  set (nn0 := mkNode None None None (Some obj)).
  assert (∀ hv' b, b ∈ chains hv' → (b < length (heap x))%nat) as Hchlt.
  { intros hv' b Hb. destruct (ck_hash _ _ _ Hch _ _ Hb) as (d & Hd & _).
    by eapply fieldAt_lt. }
  assert (∀ b, b ∈ concat slots → (b < length (heap x))%nat) as Hsllt.
  { intros b Hb. destruct (Hnodes _ Hb) as (d & Hd & _). by eapply fieldAt_lt. }
  assert (length (heap x) ≤ new)%nat as Hnewge.
  { unfold new. rewrite Eh1, length_app. lia. }
  destruct (insert_ok (h1 ++ [nn0]) tbl1 chains hv bkt new obj)
    as (h3 & e & chains' & Hins & Hlen3 & Hfl3 & Hdt3 & Hch3 & Hcase & Hnodes3 & Hdup);
    try done.
  { by apply chains_ok_app_heap. }
  { exact (fieldAt_app_new data h1 nn0). }
  { split; [exact (fieldAt_app_new next h1 nn0) | exact (fieldAt_app_new prev h1 nn0)]. }
  { intros hv' b Hb. apply Hchlt in Hb. lia. }
  destruct (getFrame_ok x (current x + ttl) Hlen) as [Hget Hlt].
  set (cur := frameOf x (current x + ttl)) in *.
  assert (fieldAt data h3 new = Some (Some obj)) as Hd3.
  { rewrite Hdt3. exact (fieldAt_app_new data h1 nn0). }
  destruct (proj1 (fieldAt_Some _ _ _ _) Hd3) as (tn & Htn & Htnd).
  unfold Put_node, alloc. fold new nn0.
  rewrite Hins, bind_Ok. cbn beta iota. rewrite Hget, bind_Ok.
  unfold frameAdd. rewrite (load_Some _ _ _ Htn), !bind_Ok. cbn beta iota.
  set (nxt := default None (frames x !! cur)).
  destruct (write_frameLink_fields h3 new tn nxt Htn) as (Hn4 & Hp4 & Hd4 & Hf4).
  set (h4 := write h3 new (set_frameLink nxt tn)) in *.
  assert (∃ fl, slots !! cur = Some fl) as [fl Hfl].
  { apply lookup_lt_is_Some. by rewrite <-(Forall2_length _ _ _ Hsl). }
  destruct (Forall2_lookup_r _ _ _ _ _ Hsl Hfl) as (head & Hhead & Hflist).
  assert (nxt = head) as Enxt by (unfold nxt; by rewrite Hhead).
  pose proof (concat_insert_cons slots cur fl new Hfl) as Hperm.
  assert (new ∉ concat slots) as Hnewsl.
  { intros Hin. apply Hsllt in Hin. lia. }
  (* the frame links of the old nodes are untouched *)
  assert (∀ b, (b < length (heap x))%nat →
               fieldAt frameLink h4 b = fieldAt frameLink (heap x) b) as Hflold.
  { intros b Hb. rewrite Hf4, decide_False by lia. rewrite Hfl3.
    rewrite Eh1, <-app_assoc. by apply fieldAt_app_l. }
  assert (∀ l hd, is_flist (heap x) hd l → is_flist h4 hd l) as Hflist4.
  { intros l hd Hl. eapply is_flist_ext; [|exact Hl].
    intros b Hb. apply Hflold. by eapply is_flist_alloc. }
  eexists _, chains', (<[cur := new :: fl]> slots), new.
  split; [done|]. split.
  { split; simpl; try done.
    - by rewrite length_insert.
    - apply wrapInt_range.
    - by apply (chains_ok_same h3).
    - apply Forall2_insert.
      + eapply Forall2_impl; [exact Hsl|]. intros hd l. apply Hflist4.
      + simpl. split; [done|]. exists nxt. split.
        * by rewrite Hf4, decide_True.
        * rewrite Enxt. by apply Hflist4.
    - rewrite Hperm. by apply NoDup_cons.
    - intros a Ha. rewrite Hperm in Ha. apply (node_ok_same h3); try done.
      apply Hnodes3. apply elem_of_cons in Ha as [->|Ha]; [by right|].
      left. rewrite Eh1, <-app_assoc. by apply node_ok_app_heap, Hnodes.
    - intros hv' a Ha. rewrite Hperm.
      destruct Hcase as [[_ ->]|[_ ->]].
      + set_solver.
      + case_decide; [|set_solver].
        apply elem_of_app in Ha as [Ha|Ha]; [subst; set_solver | set_solver].
    - intros i l a Hi Ha. unfold frameOf. simpl. rewrite length_insert.
      destruct (decide (cur = i)) as [<-|Hne].
      + rewrite list_lookup_insert_eq in Hi by (by eapply lookup_lt_Some).
        simplify_eq. apply elem_of_cons in Ha as [->|Ha].
        * exists ttl. split; [unfold isTick in *; lia | done].
        * by eapply Hdue.
      + rewrite list_lookup_insert_ne in Hi by done. by eapply Hdue. }
  simpl. split; [done|]. split; [done|]. split.
  { by rewrite Hd4. }
  split.
  { intros b v Hv. rewrite Hd4, Hdt3, Eh1, <-app_assoc. by apply fieldAt_app_Some. }
  split.
  { intros hv'. destruct Hcase as [[_ ->]|[_ ->]]; [by left|].
    case_decide; [right; by subst | by left]. }
  split; [done|]. split; [done|]. split; [done|]. split; [done|].
  split; [by rewrite length_insert|]. split.
  { fold cur. by rewrite Hfl. }
  assert (∀ b, b ∈ removelast (chains hv) →
               keyAt (h1 ++ [nn0]) b = keyAt (heap x) b) as Hkey.
  { intros b Hb%elem_of_removelast. unfold keyAt. f_equal.
    rewrite !dataAt_fieldAt. f_equal.
    rewrite Eh1, <-app_assoc. apply fieldAt_app_l. by eapply Hchlt. }
  destruct Hcase as [[He ->]|[He ->]]; [left|right]; (split; [done|]).
  - destruct (proj1 Hdup He) as (b & Hb & Hk).
    exists b. split; [done|]. by rewrite <-(Hkey _ Hb).
  - intros (b & Hb & Hk). rewrite <-(Hkey _ Hb) in Hk.
    assert (e = Some ErrDuplicatedKey) by (apply Hdup; eauto). congruence.
Qed.

Lemma Put_ok x chains slots obj (ttl : Z) :
  lru_ok x chains slots 0 → isTick ttl → ttl ≤ maxTick x →
  (0 < length (frames x))%nat →
  ∃ x' chains' slots' new,
    Put x obj ttl = Ok (x', None) ∧
    lru_ok x' chains' slots' 0 ∧
    (length (heap x) ≤ new)%nat ∧
    concat slots' ≡ₚ new :: concat slots ∧
    fieldAt data (heap x') new = Some (Some obj) ∧
    (∀ b v, fieldAt data (heap x) b = Some v → fieldAt data (heap x') b = Some v) ∧
    (∀ hv, chains' hv = chains hv ∨
           (hv = fnvHash (Key obj) ∧ chains' hv = chains hv ++ [new])) ∧
    current x' = current x ∧ maxTick x' = maxTick x ∧
    count x' = wrapInt (count x + 1) ∧
    length (frames x') = length (frames x) ∧
    slots' = <[frameOf x (current x + ttl) :=
                 new :: default [] (slots !! frameOf x (current x + ttl))]> slots ∧
    ((chains' = chains ∧
      ∃ b, b ∈ removelast (chains (fnvHash (Key obj))) ∧
           keyAt (heap x) b = Some (Key obj)) ∨
     (chains' = (λ hv, if decide (hv = fnvHash (Key obj))
                       then chains (fnvHash (Key obj)) ++ [new] else chains hv) ∧
      ¬ ∃ b, b ∈ removelast (chains (fnvHash (Key obj))) ∧
             keyAt (heap x) b = Some (Key obj))).
Proof.
  intros Hok Httl Hle Hlen. rewrite Put_unfold.
  rewrite (proj2 (Z.ltb_ge _ _)) by lia.
  destruct (table x !! fnvHash (Key obj)) as [b|] eqn:E.
  - destruct (Put_node_ok x chains slots obj ttl (heap x) (table x) b [])
      as (x' & chains' & slots' & new & H1 & H2 & H3 & H4 & H5 & H6 & H7 & _ & H8);
      try done.
    + by rewrite app_nil_r.
    + apply (ok_chains _ _ _ _ Hok).
    + by exists x', chains', slots', new.
  - destruct (Put_node_ok x chains slots obj ttl (heap x ++ [emptyNode])
                (<[fnvHash (Key obj) := length (heap x)]> (table x))
                (length (heap x)) [emptyNode])
      as (x' & chains' & slots' & new & H1 & H2 & H3 & H4 & H5 & H6 & H7 & _ & H8);
      try done.
    + apply chains_ok_bucket; [apply (ok_chains _ _ _ _ Hok) | done].
    + apply lookup_insert_eq.
    + by exists x', chains', slots', new.
Qed.

Lemma Put_node_no_error x obj (ttl : Z) h1 tbl bkt x' e :
  Put_node x obj ttl h1 tbl bkt = Ok (x', e) →
  e = None ∧ current x' = current x ∧ maxTick x' = maxTick x.
Proof.
  unfold Put_node, alloc.
  destruct (insert _ _ _) as [[h3 e3]|f]; [|done]. rewrite bind_Ok. cbn beta iota.
  destruct (getFrame _ _) as [cur|f]; [|done]. rewrite bind_Ok.
  destruct (frameAdd _ _ _ _) as [[h4 frs]|f]; [|done]. rewrite bind_Ok.
  intros [= <- <-]. done.
Qed.

Lemma Put_node_frames_empty x obj (ttl : Z) h1 tbl bkt x' e :
  length (frames x) = 0%nat → Put_node x obj ttl h1 tbl bkt ≠ Ok (x', e).
Proof.
  intros E. unfold Put_node, alloc.
  destruct (insert _ _ _) as [[h3 e3]|f]; [|done]. rewrite bind_Ok. cbn beta iota.
  by rewrite getFrame_empty.
Qed.

Lemma Put_inv x obj (ttl : Z) x' e :
  Put x obj ttl = Ok (x', e) →
  (maxTick x < ttl ∧ e = Some ErrTTLOverMaxTick ∧ x' = x) ∨
  (ttl ≤ maxTick x ∧ e = None ∧ (0 < length (frames x))%nat ∧
   current x' = current x ∧ maxTick x' = maxTick x).
Proof.
  rewrite Put_unfold. destruct (Z.ltb_spec (maxTick x) ttl) as [Hlt|Hge].
  - intros [= <- <-]. by left.
  - intros Hrun. right.
    assert ((0 < length (frames x))%nat) as Hlen.
    { destruct (length (frames x)) eqn:E; [|lia]. exfalso.
      destruct (table x !! fnvHash (Key obj)); by eapply Put_node_frames_empty. }
    destruct (table x !! fnvHash (Key obj));
      apply Put_node_no_error in Hrun as (-> & ? & ?); done.
Qed.

(** ** Get *)

Lemma matchKey_Some h a na d key :
  h !! a = Some na → data na = Some d →
  matchKey h a key = Ok (bool_decide (Key d = key)).
Proof. intros Ha Hd. unfold matchKey, load. rewrite Ha. simpl. by rewrite Hd. Qed.

Lemma searchLoop_spec h key l :
  ∀ r nr fuel,
    is_chain h r l → h !! r = Some nr →
    (∀ a, a ∈ l → ∃ d, fieldAt data h a = Some (Some d)) →
    (length l ≤ fuel)%nat →
    searchLoop fuel h (next nr) key =
      Ok (head (filter (λ a, keyAt h a = Some key) l)).
Proof.
  induction l as [|a l IH]; intros r nr fuel Hc Hr Hdata Hfuel.
  - simpl in Hc. apply fieldAt_Some in Hc as (n & Hn & Hnx).
    assert (n = nr) as -> by congruence. rewrite Hnx. by destruct fuel.
  - simpl in Hc. destruct Hc as (Hra & _ & Hc).
    apply fieldAt_Some in Hra as (n & Hn & Hnx).
    assert (n = nr) as -> by congruence. rewrite Hnx.
    destruct fuel as [|fuel]; [simpl in Hfuel; lia|]. simpl.
    destruct (Hdata a) as (d & Hd); [set_solver|].
    destruct (proj1 (fieldAt_Some _ _ _ _) Hd) as (na & Hna & Hnad).
    rewrite (matchKey_Some _ _ _ _ _ Hna Hnad), bind_Ok.
    assert (keyAt h a = Some (Key d)) as Hkey.
    { unfold keyAt. by rewrite dataAt_fieldAt, Hd. }
    rewrite filter_cons. case_bool_decide as Ek.
    + rewrite decide_True; [done|]. by rewrite Hkey, Ek.
    + rewrite decide_False by (rewrite Hkey; congruence).
      rewrite (load_Some _ _ _ Hna), bind_Ok.
      apply (IH a); try done; [set_solver | simpl in Hfuel; lia].
Qed.

Lemma chain_length_le h tbl chains hv :
  chains_ok h tbl chains → (length (chains hv) ≤ length h)%nat.
Proof.
  intros Hok. apply NoDup_length_le.
  - apply StronglySorted_lt_NoDup, (ck_sorted _ _ _ Hok).
  - intros b Hb. destruct (ck_hash _ _ _ Hok _ _ Hb) as (d & Hd & _).
    by eapply fieldAt_lt.
Qed.

(** [Get] returns the payload of the first node of the chain whose key
    is [key]. *)
Lemma Get_ok x chains slots j key :
  lru_ok x chains slots j →
  Get x key =
    Ok (head (filter (λ a, keyAt (heap x) a = Some key) (chains (fnvHash key)))
          ≫= dataAt (heap x)).
Proof.
  intros Hok. pose proof (ok_chains _ _ _ _ Hok) as Hch. unfold Get.
  destruct (table x !! fnvHash key) as [r|] eqn:E.
  - destruct (ck_root _ _ _ Hch _ _ E) as [[Hrd _] Hc].
    apply fieldAt_Some in Hrd as (nr & Hr & _).
    unfold search. rewrite (load_Some _ _ _ Hr), bind_Ok.
    rewrite (searchLoop_spec _ key _ r nr _ Hc Hr).
    + rewrite bind_Ok. destruct (head _) as [a|] eqn:Eh; [|done]. simpl.
      apply head_Some_elem_of, list_elem_of_filter in Eh as [_ Ha].
      destruct (ck_hash _ _ _ Hch _ _ Ha) as (d & Hd & _).
      destruct (proj1 (fieldAt_Some _ _ _ _) Hd) as (na & Hna & Hnad).
      rewrite (load_Some _ _ _ Hna), bind_Ok. unfold dataAt. by rewrite Hna.
    + intros a Ha. destruct (ck_hash _ _ _ Hch _ _ Ha) as (d & Hd & _). eauto.
    + by eapply chain_length_le.
  - by rewrite (ck_none _ _ _ Hch _ E).
Qed.

(** ** The observers *)

Lemma walkNext_spec h l :
  ∀ r nr fuel,
    is_chain h r l → h !! r = Some nr → (length l ≤ fuel)%nat →
    walkNext fuel h (next nr) = l.
Proof.
  induction l as [|a l IH]; intros r nr fuel Hc Hr Hfuel; simpl in Hc.
  - apply fieldAt_Some in Hc as (n & Hn & Hnx).
    assert (n = nr) as -> by congruence. rewrite Hnx. by destruct fuel.
  - destruct Hc as (Hra & _ & Hc).
    apply fieldAt_Some in Hra as (n & Hn & Hnx).
    assert (n = nr) as -> by congruence. rewrite Hnx.
    destruct fuel as [|fuel]; [simpl in Hfuel; lia|]. simpl. f_equal.
    assert (∃ na, h !! a = Some na) as [na Hna].
    { destruct l; simpl in Hc; [|destruct Hc as [Hc _]];
        apply fieldAt_Some in Hc as (na & ? & _); eauto. }
    rewrite Hna. apply (IH a); [done..|simpl in Hfuel; lia].
Qed.

Lemma walkFrame_spec h l :
  ∀ head fuel,
    is_flist h head l → (length l ≤ fuel)%nat → walkFrame fuel h head = l.
Proof.
  induction l as [|a l IH]; intros head fuel Hl Hfuel; simpl in Hl.
  - subst. by destruct fuel.
  - destruct Hl as (-> & nxt & Hnxt & Hl).
    destruct fuel as [|fuel]; [simpl in Hfuel; lia|]. simpl. f_equal.
    apply fieldAt_Some in Hnxt as (na & Hna & <-). rewrite Hna.
    apply IH; [done | simpl in Hfuel; lia].
Qed.

Lemma walkFrame_map h n (frs : list (option addr)) (sls : list (list addr)) :
  Forall2 (is_flist h) frs sls →
  (∀ i l, sls !! i = Some l → (length l ≤ n)%nat) →
  map (walkFrame n h) frs = sls.
Proof.
  induction 1 as [|head l frs sls Hl Hsl IH]; intros Hlen; [done|].
  simpl. f_equal.
  - apply walkFrame_spec; [done|]. by apply (Hlen 0%nat).
  - apply IH. intros i l' Hi. by apply (Hlen (S i)).
Qed.

Lemma chainOf_spec x chains slots j hv :
  lru_ok x chains slots j → chainOf x hv = chains hv.
Proof.
  intros Hok. pose proof (ok_chains _ _ _ _ Hok) as Hch. unfold chainOf.
  destruct (table x !! hv) as [r|] eqn:E.
  - destruct (ck_root _ _ _ Hch _ _ E) as [[Hrd _] Hc].
    apply fieldAt_Some in Hrd as (nr & Hr & _). rewrite Hr.
    eapply walkNext_spec; [done..|]. by eapply chain_length_le.
  - by rewrite (ck_none _ _ _ Hch _ E).
Qed.

Lemma liveNodes_spec x chains slots j :
  lru_ok x chains slots j → liveNodes x = concat slots.
Proof.
  intros Hok. unfold liveNodes. f_equal.
  pose proof (ok_slots _ _ _ _ Hok) as Hsl.
  pose proof (ok_nodup _ _ _ _ Hok) as Hnd.
  assert (∀ i l, slots !! i = Some l → (length l ≤ length (heap x))%nat) as Hlen.
  { intros i l Hi. pose proof (concat_insert_nil _ _ _ Hi) as Hperm.
    rewrite Hperm in Hnd. apply NoDup_app in Hnd as (Hnd & _ & _).
    apply NoDup_length_le; [done|].
    destruct (Forall2_lookup_r _ _ _ _ _ Hsl Hi) as (head & _ & Hl).
    by eapply is_flist_alloc. }
  by apply walkFrame_map.
Qed.

(** ** Every reachable store has the shape *)

Lemma concat_replicate_nil (n : nat) : concat (replicate n ([] : list addr)) = [].
Proof. induction n as [|n IH]; [done | exact IH]. Qed.

Lemma lru_ok_New (m : Z) :
  isTick m →
  lru_ok (New m : LruMap D) (λ _, [])
    (replicate (Z.to_nat (wrap64 (m + 1))) []) 0.
Proof.
  intros Hm. pose proof (wrap64_range (m + 1)) as Hw. unfold isTick in *.
  pose proof (concat_replicate_nil (Z.to_nat (wrap64 (m + 1)))) as Ec.
  split; simpl; try done; try lia.
  - rewrite length_replicate. lia.
  - split; try done.
    + intros hv. constructor.
    + intros hv a Ha. by apply elem_of_nil in Ha.
  - by apply Forall2_replicate.
  - rewrite Ec. constructor.
  - rewrite Ec. intros a Ha. by apply elem_of_nil in Ha.
  - intros hv a Ha. by apply elem_of_nil in Ha.
  - intros i l a Hi Ha. apply lookup_replicate in Hi as [-> _].
    by apply elem_of_nil in Ha.
Qed.

Lemma Prune_frames_empty x (p : Z) x' res :
  length (frames x) = 0%nat → isTick p → Prune x p = Ok (x', res) → p = 0.
Proof.
  intros E Hp. unfold Prune. destruct (decide (p = 0)) as [|Hne]; [done|].
  rewrite pruneFrames_empty; [done..|]. unfold isTick in Hp. lia.
Qed.

Theorem reachable_Inv x : reachable x → Inv x.
Proof.
  induction 1 as [m Hm|x x' o Hreach IH Hvalid Hexec].
  - eexists _, _. by apply lru_ok_New.
  - destruct IH as (chains & slots & Hok).
    destruct o as [obj ttl|key|p|]; simpl in *.
    + destruct (Put x obj ttl) as [[x1 e]|f] eqn:Hput; [|done].
      rewrite bind_Ok in Hexec. simplify_eq.
      destruct (Put_inv _ _ _ _ _ Hput) as [(_ & _ & ->)|(Hle & _ & Hlen & _)].
      * by exists chains, slots.
      * destruct (Put_ok x chains slots obj ttl Hok Hvalid Hle Hlen)
          as (x2 & chains' & slots' & new & Hrun & Hok' & _).
        rewrite Hput in Hrun. simplify_eq. by exists chains', slots'.
    + destruct (Get x key); [|done]. rewrite bind_Ok in Hexec. simplify_eq.
      by exists chains, slots.
    + destruct (Prune x p) as [[x1 res]|f] eqn:Hprune; [|done].
      rewrite bind_Ok in Hexec. simplify_eq.
      destruct (Prune_ok x chains slots p Hok Hvalid)
        as (x2 & chains' & slots' & addrs & Hrun & Hok' & _).
      { destruct (length (frames x)) eqn:E; [right|left; lia].
        by eapply Prune_frames_empty. }
      rewrite Hprune in Hrun. simplify_eq. by exists chains', slots'.
    + simplify_eq. by exists chains, slots.
Qed.

Lemma reachable_frames x :
  reachable x → Z.of_nat (length (frames x)) = wrap64 (maxTick x + 1) ∧
                isTick (maxTick x) ∧ isTick (current x) ∧
                - 2 ^ 63 ≤ count x < 2 ^ 63.
Proof.
  intros (chains & slots & Hok)%reachable_Inv.
  destruct Hok. done.
Qed.

Lemma wrap64_small (z : Z) : isTick z → wrap64 z = z.
Proof. intros Hz. unfold wrap64. apply Z.mod_small. exact Hz. Qed.

Lemma wrapInt_small (z : Z) : - 2 ^ 63 ≤ z < 2 ^ 63 → wrapInt z = z.
Proof. intros Hz. unfold wrapInt. rewrite Z.mod_small; lia. Qed.

Lemma Prune_zero x :
  isTick (current x) → - 2 ^ 63 ≤ count x < 2 ^ 63 → Prune x 0 = Ok (x, []).
Proof.
  intros Hc Hn. unfold Prune. simpl.
  rewrite Z.add_0_r, Z.sub_0_r, wrap64_small, wrapInt_small by done.
  by destruct x.
Qed.

Lemma framePrune_current x f x' res :
  framePrune x f = Ok (x', res) → current x' = current x.
Proof.
  unfold framePrune. destruct (pruneLoop _ _ _ _) as [[h pd]|]; [|done].
  rewrite bind_Ok. by intros [= <- _].
Qed.

Lemma pruneFrames_current n :
  ∀ x (i : Z) acc x' res,
    pruneFrames n x i acc = Ok (x', res) → current x' = current x.
Proof.
  induction n as [|n IH]; intros x i acc x' res; simpl.
  - by intros [= <- _].
  - destruct (getFrame _ _) as [f|]; [|done]. rewrite bind_Ok.
    destruct (framePrune x f) as [[x1 pr]|] eqn:E; [|done]. rewrite bind_Ok.
    intros Hrun. apply IH in Hrun. apply framePrune_current in E. congruence.
Qed.

Lemma Prune_current x (p : Z) x' res :
  Prune x p = Ok (x', res) → current x' = wrap64 (current x + p).
Proof.
  unfold Prune. destruct (pruneFrames _ _ _ _) as [[x1 r1]|] eqn:E; [|done].
  rewrite bind_Ok. intros [= <- _]. simpl.
  by rewrite (pruneFrames_current _ _ _ _ _ _ E).
Qed.

End Facts.

(** * The claims *)

(** ** fnvHash is FNV-1a *)

Lemma fnvLoop_fold (s2 : list byte) :
  ∀ (s1 : list byte) (h : Z),
    fnvLoop (length s2) (s1 ++ s2) (length s1) h = fold_left fnv1a64_step s2 h.
Proof.
  induction s2 as [|b s2 IH]; intros s1 h; [done|].
  simpl. rewrite list_lookup_middle by done.
  replace (s1 ++ b :: s2) with ((s1 ++ [b]) ++ s2) by (by rewrite <-app_assoc).
  replace (S (length s1)) with (length (s1 ++ [b])) by (rewrite length_app; simpl; lia).
  by rewrite IH.
Qed.

Example fnvHash_empty : fnvHash [] = 0xcbf29ce484222325.
Proof. reflexivity. Qed.

Example fnvHash_a : fnvHash ["a"%byte] = 0xaf63dc4c8601ec8c.
Proof. reflexivity. Qed.

Example fnvHash_foobar :
  fnvHash ["f"; "o"; "o"; "b"; "a"; "r"]%byte = 0x85944171f73967e8.
Proof. reflexivity. Qed.

(** C7: the hash that [Put] and [Get] compute over the key bytes,
    [fnvHash], is 64-bit FNV-1a: from the offset basis
    14695981039346656037, each byte in order is XORed into the hash, which
    is then multiplied by the prime 1099511628211 modulo 2^64. *)
Theorem fnvHash_is_fnv1a64 (s : list byte) :
  fnvHash s = fnv1a64 s ∧ 0 ≤ fnvHash s < 2 ^ 64.
Proof.
  assert (fnvHash s = fnv1a64 s) as E.
  { unfold fnvHash, fnv1a64. exact (fnvLoop_fold s [] fnvBasis). }
  split; [done|]. rewrite E. unfold fnv1a64. clear E.
  assert (∀ h, 0 ≤ h < 2 ^ 64 → 0 ≤ fold_left fnv1a64_step s h < 2 ^ 64) as Hr.
  { induction s as [|b s IH]; intros h Hh; [done|]. simpl. apply IH.
    unfold fnv1a64_step. apply Z.mod_pos_bound. lia. }
  apply Hr. lia.
Qed.

Section Claims.
Context {D : Type} {LD : LruData D}.
Implicit Types (x : LruMap D) (obj : D) (ttl progress : Z) (key : list byte).

(** [Put] never returns the error of [insert]: the only error it returns
    is "TTL is over maxTick". *)
Lemma Put_never_reports_duplicate x obj ttl x' e :
  Put x obj ttl = Ok (x', e) → e ≠ Some ErrDuplicatedKey.
Proof.
  intros Hput.
  by destruct (Put_inv _ _ _ _ _ Hput) as [(_ & -> & _)|(_ & -> & _)].
Qed.

(** C4: [Put(obj, ttl)] fails with the error "TTL is over maxTick" if and
    only if [ttl > maxTick], and a [Put] rejected so leaves the whole
    store (heap, hash table, frames, current tick, count) as it was. *)
Theorem Put_ttl_over_maxTick x obj ttl :
  (maxTick x < ttl ↔ ∃ x', Put x obj ttl = Ok (x', Some ErrTTLOverMaxTick)) ∧
  (∀ x', Put x obj ttl = Ok (x', Some ErrTTLOverMaxTick) → x' = x).
Proof.
  split; [split|].
  - intros Hlt. exists x. rewrite Put_unfold.
    by rewrite (proj2 (Z.ltb_lt _ _) Hlt).
  - intros [x' Hrun].
    by destruct (Put_inv _ _ _ _ _ Hrun) as [(? & _)|(_ & ? & _)].
  - intros x' Hrun.
    by destruct (Put_inv _ _ _ _ _ Hrun) as [(_ & _ & ?)|(_ & ? & _)].
Qed.

(** The live nodes are the entries put and not yet pruned: a [Put] that
    returns nil links one fresh node, carrying the payload, into the
    wheel, and [Prune] unlinks the nodes whose payloads it returns. *)
Lemma liveNodes_Put x obj ttl x' :
  reachable x → isTick ttl → Put x obj ttl = Ok (x', None) →
  ∃ new : addr,
    liveNodes x' ≡ₚ new :: liveNodes x ∧ new ∉ liveNodes x ∧
    dataAt (heap x') new = Some obj ∧
    ∀ a : addr, a ∈ liveNodes x → dataAt (heap x') a = dataAt (heap x) a.
Proof.
  intros Hreach Httl Hput.
  destruct (reachable_Inv _ Hreach) as (chains & slots & Hok).
  destruct (Put_inv _ _ _ _ _ Hput) as [(_ & ? & _)|(Hle & _ & Hlen & _)]; [done|].
  destruct (Put_ok x chains slots obj ttl Hok Httl Hle Hlen)
    as (x2 & chains' & slots' & new & Hrun & Hok' & Hnew & Hperm & Hd & Hold & _).
  rewrite Hput in Hrun. simplify_eq.
  rewrite (liveNodes_spec _ _ _ _ Hok), (liveNodes_spec _ _ _ _ Hok').
  exists new. split; [done|]. split; [|split].
  - intros Hin. destruct (ok_nodes _ _ _ _ Hok _ Hin) as (d & Hda & _).
    apply fieldAt_lt in Hda. lia.
  - by rewrite dataAt_fieldAt, Hd.
  - intros a Hin. destruct (ok_nodes _ _ _ _ Hok _ Hin) as (d & Hda & _).
    by rewrite !dataAt_fieldAt, (Hold _ _ Hda), Hda.
Qed.

Lemma liveNodes_Prune x progress x' res :
  reachable x → isTick progress → Prune x progress = Ok (x', res) →
  ∃ addrs : list addr,
    res = map (dataAt (heap x)) addrs ∧ addrs ++ liveNodes x' ≡ₚ liveNodes x.
Proof.
  intros Hreach Hp Hprune.
  destruct (reachable_Inv _ Hreach) as (chains & slots & Hok).
  destruct (Prune_ok x chains slots progress Hok Hp)
    as (x2 & chains' & slots' & addrs & Hrun & Hok' & Hperm & _).
  { destruct (length (frames x)) eqn:E; [right|left; lia].
    by eapply Prune_frames_empty. }
  rewrite Hprune in Hrun. simplify_eq.
  rewrite (liveNodes_spec _ _ _ _ Hok), (liveNodes_spec _ _ _ _ Hok').
  by exists addrs.
Qed.

Lemma wrapInt_add (a b : Z) : wrapInt (wrapInt a + b) = wrapInt (a + b).
Proof.
  unfold wrapInt. f_equal.
  replace (Z.modulo (a + 2 ^ 63) (2 ^ 64) - 2 ^ 63 + b + 2 ^ 63)
    with (Z.modulo (a + 2 ^ 63) (2 ^ 64) + b) by lia.
  rewrite Zplus_mod_idemp_l. f_equal. lia.
Qed.

(** X13: [Size()] is the number of live nodes (as an [int]): every [Put] that
    returns nil counts its node, whether or not the node is in a chain. *)
Lemma Size_counts_live_nodes x :
  reachable x → Size x = wrapInt (Z.of_nat (length (liveNodes x))).
Proof.
  unfold Size. induction 1 as [m Hm|x x' o Hreach IH Hvalid Hexec].
  - pose proof (lru_ok_New (D := D) m Hm) as Hok.
    by rewrite (liveNodes_spec _ _ _ _ Hok), concat_replicate_nil.
  - destruct (reachable_Inv _ Hreach) as (chains & slots & Hok).
    rewrite (liveNodes_spec _ _ _ _ Hok) in IH.
    destruct o as [obj ttl|key|p|]; simpl in *.
    + destruct (Put x obj ttl) as [[x1 e]|f] eqn:Hput; [|done].
      rewrite bind_Ok in Hexec. simplify_eq.
      destruct (Put_inv _ _ _ _ _ Hput) as [(_ & _ & ->)|(Hle & _ & Hlen & _)].
      * by rewrite (liveNodes_spec _ _ _ _ Hok).
      * destruct (Put_ok x chains slots obj ttl Hok Hvalid Hle Hlen)
          as (x2 & chains' & slots' & new & Hrun & Hok' & _ & Hperm & _ & _ & _ & _ & _ & Hcnt & _).
        rewrite Hput in Hrun. simplify_eq.
        rewrite (liveNodes_spec _ _ _ _ Hok'), Hcnt, IH, wrapInt_add, Hperm.
        f_equal. simpl. lia.
    + destruct (Get x key); [|done]. rewrite bind_Ok in Hexec. simplify_eq.
      by rewrite (liveNodes_spec _ _ _ _ Hok).
    + destruct (Prune x p) as [[x1 res]|f] eqn:Hprune; [|done].
      rewrite bind_Ok in Hexec. simplify_eq.
      destruct (Prune_ok x chains slots p Hok Hvalid)
        as (x2 & chains' & slots' & addrs & Hrun & Hok' & Hperm & _ & _ & _ & _ & Hcnt & _).
      { destruct (length (frames x)) eqn:E; [right|left; lia].
        by eapply Prune_frames_empty. }
      rewrite Hprune in Hrun. simplify_eq.
      rewrite (liveNodes_spec _ _ _ _ Hok'), Hcnt, IH.
      replace (wrapInt (Z.of_nat (length (concat slots))) - Z.of_nat (length addrs))
        with (wrapInt (Z.of_nat (length (concat slots))) + - Z.of_nat (length addrs))
        by lia.
      rewrite wrapInt_add, <-Hperm, length_app. f_equal. lia.
    + simplify_eq. by rewrite (liveNodes_spec _ _ _ _ Hok).
Qed.

(** C5: on every reachable store, one [Prune(maxTick+1)] returns the
    payload of every live node (every node linked in the wheel) exactly
    once, leaves the wheel empty, and afterwards [Get] returns nil for
    every key. *)
Theorem Prune_drains_all x :
  reachable x →
  ∃ x' res addrs,
    Prune x (wrap64 (maxTick x + 1)) = Ok (x', res) ∧
    addrs ≡ₚ liveNodes x ∧
    res = map (dataAt (heap x)) addrs ∧
    liveNodes x' = [] ∧
    ∀ key, Get x' key = Ok None.
Proof.
  intros Hreach. destruct (reachable_Inv _ Hreach) as (chains & slots & Hok).
  pose proof (ok_frames _ _ _ _ Hok) as Hfr.
  pose proof (ok_maxTick _ _ _ _ Hok) as Hmt.
  pose proof (wrap64_range (maxTick x + 1)) as Hp.
  destruct (Prune_ok x chains slots (wrap64 (maxTick x + 1)) Hok Hp)
    as (x' & chains' & slots' & addrs & Hrun & Hok' & Hperm & Hall & _ & _ & _ & _ & Hlen & _).
  { unfold isTick in *. lia. }
  assert (concat slots' = []) as Hempty.
  { destruct (decide (wrap64 (maxTick x + 1) = 0)) as [E|E].
    - assert (slots' = []) as ->; [|done]. apply length_zero_iff_nil.
      rewrite <-(Forall2_length _ _ _ (ok_slots _ _ _ _ Hok')), Hlen. lia.
    - apply Hall. unfold wrap64, isTick in *.
      destruct (decide (maxTick x + 1 < 2 ^ 64)).
      + rewrite Z.mod_small by lia. lia.
      + replace (maxTick x + 1) with (2 ^ 64) in E by lia. done. }
  exists x', (map (dataAt (heap x)) addrs), addrs. split; [done|].
  split. { rewrite Hempty, app_nil_r in Hperm. by rewrite (liveNodes_spec _ _ _ _ Hok). }
  split; [done|]. split. { by rewrite (liveNodes_spec _ _ _ _ Hok'). }
  intros key. rewrite (Get_ok _ _ _ _ key Hok').
  destruct (chains' (fnvHash key)) as [|a l] eqn:E; [done|].
  pose proof (ok_linked _ _ _ _ Hok' (fnvHash key) a) as Hin.
  rewrite E, Hempty in Hin. exfalso. eapply not_elem_of_nil, Hin. set_solver.
Qed.

(** C6, amended: on a reachable store with at least one frame
    ([maxTick < 2^64-1]) [Prune(progress)] returns for every progress, and
    [Prune(0)] returns on every reachable store; [Prune(0)] leaves the
    whole store as it was and returns an empty slice. *)
Theorem Prune_never_fails x progress :
  reachable x → isTick progress →
  maxTick x < 2 ^ 64 - 1 ∨ progress = 0 →
  ∃ x' res, Prune x progress = Ok (x', res) ∧
            (progress = 0 → x' = x ∧ res = []).
Proof.
  intros Hreach Hp Hcase.
  destruct (reachable_frames _ Hreach) as (Hfr & Hmt & Hcur & Hcnt).
  destruct (decide (progress = 0)) as [->|Hne].
  - exists x, []. by rewrite Prune_zero.
  - destruct Hcase as [Hlt|?]; [|done].
    destruct (reachable_Inv _ Hreach) as (chains & slots & Hok).
    destruct (Prune_ok x chains slots progress Hok Hp)
      as (x' & _ & _ & addrs & Hrun & _).
    { left. unfold wrap64, isTick in *. rewrite Z.mod_small in Hfr by lia. lia. }
    eexists _, _. split; [done|]. done.
Qed.

(** C8, amended: no call lowers the current tick unless the 64-bit
    counter overflows: [Put], [Get] and [Size] leave it as it is, and
    [Prune(progress)] sets it to [current + progress] modulo 2^64, which
    is [current + progress], at least [current], when
    [current + progress < 2^64]. *)
Theorem current_monotone x (o : op D) x' :
  reachable x → op_valid o → exec x o = Ok x' →
  (∀ progress, o = OpPrune progress →
     current x' = wrap64 (current x + progress)) ∧
  ((∀ progress, o ≠ OpPrune progress) → current x' = current x) ∧
  ((∀ progress, o = OpPrune progress → current x + progress < 2 ^ 64) →
   current x ≤ current x' ∧
   ∀ progress, o = OpPrune progress → current x' = current x + progress).
Proof.
  intros Hreach Hvalid Hexec.
  destruct (reachable_frames _ Hreach) as (_ & _ & Hcur & _).
  destruct o as [obj ttl|key|p|]; simpl in *.
  - destruct (Put x obj ttl) as [[x1 e]|f] eqn:Hput; [|done].
    rewrite bind_Ok in Hexec. simplify_eq.
    assert (current x' = current x) as ->.
    { by destruct (Put_inv _ _ _ _ _ Hput) as [(_ & _ & ->)|(_ & _ & _ & ? & _)]. }
    split; [done|]. split; [done|]. intros _. split; [lia | done].
  - destruct (Get x key); [|done]. rewrite bind_Ok in Hexec. simplify_eq.
    split; [done|]. split; [done|]. intros _. split; [lia | done].
  - destruct (Prune x p) as [[x1 res]|f] eqn:Hprune; [|done].
    rewrite bind_Ok in Hexec. simplify_eq.
    apply Prune_current in Hprune. split; [|split].
    + intros ? [= <-]. done.
    + intros Hne. by destruct (Hne p).
    + intros Hov. specialize (Hov p eq_refl).
      rewrite wrap64_small in Hprune by (unfold isTick in *; lia).
      unfold isTick in *. split; [lia|]. intros ? [= <-]. done.
  - simplify_eq. split; [done|]. split; [done|]. intros _. split; [lia | done].
Qed.


(** C10: on a reachable store, [Prune(progress)] with [progress] greater
    than the number of frames [maxTick+1] returns the payload of each live
    node at most once (and of all of them), and leaves the wheel empty:
    a frame met again has nothing left. *)
Theorem Prune_at_most_once x progress :
  reachable x → isTick progress → maxTick x + 1 < progress →
  ∃ x' res addrs,
    Prune x progress = Ok (x', res) ∧
    res = map (dataAt (heap x)) addrs ∧
    NoDup addrs ∧
    (∀ a : addr, a ∈ addrs → a ∈ liveNodes x) ∧
    liveNodes x' = [].
Proof.
  intros Hreach Hp Hlt.
  destruct (reachable_Inv _ Hreach) as (chains & slots & Hok).
  pose proof (ok_frames _ _ _ _ Hok) as Hfr.
  pose proof (ok_maxTick _ _ _ _ Hok) as Hmt.
  destruct (Prune_ok x chains slots progress Hok Hp)
    as (x' & chains' & slots' & addrs & Hrun & Hok' & Hperm & Hall & _).
  { left. unfold wrap64, isTick in *. rewrite Z.mod_small in Hfr by lia. lia. }
  rewrite Hall, app_nil_r in Hperm by lia.
  exists x', (map (dataAt (heap x)) addrs), addrs.
  rewrite (liveNodes_spec _ _ _ _ Hok), (liveNodes_spec _ _ _ _ Hok').
  split; [done|]. split; [done|]. split.
  { rewrite Hperm. apply (ok_nodup _ _ _ _ Hok). }
  split; [|by apply Hall; lia].
  intros a Ha. by rewrite <-Hperm.
Qed.

End Claims.

(** ** The claims on the stores of the test suite *)

Lemma run_reachable (calls : list (op Test.testData)) :
  ∀ x x', reachable x → Forall op_valid calls →
          Test.run x calls = Ok x' → reachable x'.
Proof.
  unfold Test.run. induction calls as [|o calls IH]; intros x x' Hx Hv; simpl.
  - by intros [= <-].
  - apply Forall_cons in Hv as [Ho Hv].
    destruct (exec x o) as [x1|f] eqn:E.
    + apply IH; [|done]. by eapply reachable_exec.
    + clear. induction calls as [|o' calls IH]; [done|]. done.
Qed.

Ltac run_reachable_tac calls :=
  apply (run_reachable calls (New 12));
  [ apply reachable_New; unfold isTick; lia
  | repeat constructor; simpl; unfold isTick; lia
  | vm_compute; reflexivity ].

Lemma st_put1_reachable : reachable Test.st_put1.
Proof. run_reachable_tac [OpPut Test.obj1 3]. Qed.

Lemma st_put2_reachable : reachable Test.st_put2.
Proof. run_reachable_tac [OpPut Test.obj1 3; OpPut Test.obj2 3]. Qed.

(** C1: a second [Put] with the key of a live entry is not rejected.  The
    loop of [bucket.insert] never compares the last node of the chain, so
    the second node is linked into the chain; the third [Put] is reported
    as "Duplicated key" by [insert], but [Put] drops that error, links the
    node into the wheel and counts it. *)
Theorem Put_duplicate_not_rejected :
  Put (New 12) Test.obj1 3 = Ok (Test.st_put1, None) ∧
  Get Test.st_put1 Test.key1 = Ok (Some Test.obj1) ∧
  Size Test.st_put1 = 1 ∧
  Put Test.st_put1 Test.obj2 3 = Ok (Test.st_put2, None) ∧
  Size Test.st_put2 = 2 ∧
  chainOf Test.st_put2 (fnvHash Test.key1) = [1; 2]%nat ∧
  liveNodes Test.st_put2 = [2; 1]%nat ∧
  Put Test.st_put2 Test.obj3 3 = Ok (Test.st_put3, None) ∧
  Size Test.st_put3 = 3 ∧
  chainOf Test.st_put3 (fnvHash Test.key1) = [1; 2]%nat ∧
  liveNodes Test.st_put3 = [3; 2; 1]%nat.
Proof. vm_compute. repeat split; reflexivity. Qed.

(** C2: in a store of capacity 12, after [Put] of "abc" with ttl 3 the
    third [Prune(1)] returns nothing and "abc" is still found; the entry
    is returned by the fourth [Prune(1)]: [Prune(progress)] prunes the
    frames of the ticks [current .. current+progress-1], and the entry is
    in the frame of tick [current+ttl]. *)
Theorem Prune_third_tick_returns_nothing :
  Put (New 12) Test.obj1 3 = Ok (Test.st_put1, None) ∧
  Get Test.st_put1 Test.key1 = Ok (Some Test.obj1) ∧
  Get Test.st_put1 Test.key2 = Ok None ∧
  Prune Test.st_put1 1 = Ok (Test.st_adv1, []) ∧
  Get Test.st_adv1 Test.key1 = Ok (Some Test.obj1) ∧
  Prune Test.st_adv1 1 = Ok (Test.st_adv2, []) ∧
  Get Test.st_adv2 Test.key1 = Ok (Some Test.obj1) ∧
  Prune Test.st_adv2 1 = Ok (Test.st_adv3, []) ∧
  Get Test.st_adv3 Test.key1 = Ok (Some Test.obj1) ∧
  Size Test.st_adv3 = 1 ∧
  Prune Test.st_adv3 1 = Ok (Test.st_adv4, [Some Test.obj1]) ∧
  Get Test.st_adv4 Test.key1 = Ok None ∧
  Size Test.st_adv4 = 0.
Proof. vm_compute. repeat split; reflexivity. Qed.

(** C3: after two [Put]s of one key, [Size()] is 2 while [Get] finds one
    key only. *)
Theorem Size_counts_duplicate_keys :
  reachable Test.st_put2 ∧
  Size Test.st_put2 = 2 ∧
  ∀ key, (∃ d, Get Test.st_put2 key = Ok (Some d)) ↔ key = Test.key1.
Proof.
  split; [exact st_put2_reachable|]. split; [vm_compute; reflexivity|].
  intros key.
  destruct (reachable_Inv _ st_put2_reachable) as (chains & slots & Hok).
  rewrite (Get_ok _ _ _ _ key Hok), <-(chainOf_spec _ _ _ _ _ Hok).
  assert (table Test.st_put2 = {[ fnvHash Test.key1 := 0%nat ]}) as Etbl.
  { vm_compute. reflexivity. }
  assert (chainOf Test.st_put2 (fnvHash Test.key1) = [1; 2]%nat) as Ech.
  { vm_compute. reflexivity. }
  assert (keyAt (heap Test.st_put2) 1 = Some Test.key1) as Ek1.
  { vm_compute. reflexivity. }
  assert (keyAt (heap Test.st_put2) 2 = Some Test.key1) as Ek2.
  { vm_compute. reflexivity. }
  assert (dataAt (heap Test.st_put2) 1 = Some Test.obj1) as Ed1.
  { vm_compute. reflexivity. }
  destruct (decide (fnvHash key = fnvHash Test.key1)) as [E|E].
  - rewrite E, Ech. rewrite !filter_cons, filter_nil, Ek1, Ek2.
    destruct (decide (Some Test.key1 = Some key)) as [[= <-]|Hne].
    + simpl. rewrite Ed1. split; [done | by eexists].
    + simpl. split; [by intros [d [=]] | intros ->; by destruct Hne].
  - unfold chainOf. rewrite Etbl, lookup_singleton_ne by done. simpl.
    split; [by intros [d [=]] | intros ->; by destruct E].
Qed.

(** C6, the counterexample: a store made with [maxTick = 2^64-1] has no
    frame, and [Prune(1)] panics in [getFrame] on the division by the
    number of frames. *)
Lemma Prune_no_frames_panics :
  reachable Test.st_noframes ∧ isTick 1 ∧
  Prune Test.st_noframes 1 = Fail DivideByZero.
Proof.
  split; [|split].
  - apply reachable_New. unfold isTick. lia.
  - unfold isTick. lia.
  - vm_compute. reflexivity.
Qed.

(** C8, the counterexample: at tick 1, [Prune(2^64-1)] returns and the
    current tick is 0 afterwards. *)
Lemma current_wraps_around :
  reachable Test.st_tick1 ∧ op_valid (OpPrune (D := Test.testData) (2 ^ 64 - 1)) ∧
  current Test.st_tick1 = 1 ∧
  ∃ x', exec Test.st_tick1 (OpPrune (2 ^ 64 - 1)) = Ok x' ∧ current x' = 0.
Proof.
  assert (reachable Test.st_tick1) as Hreach.
  { apply (run_reachable [OpPrune 1] (New 0)).
    - apply reachable_New. unfold isTick. lia.
    - repeat constructor. simpl. unfold isTick. lia.
    - vm_compute. reflexivity. }
  assert (isTick (2 ^ 64 - 1)) as Hp by (unfold isTick; lia).
  split; [done|]. split; [done|]. split; [vm_compute; reflexivity|].
  destruct (reachable_Inv _ Hreach) as (chains & slots & Hok).
  destruct (Prune_ok _ chains slots (2 ^ 64 - 1) Hok Hp)
    as (x' & _ & _ & addrs & Hrun & _ & _ & _ & _ & Hcur & _).
  { left. vm_compute. lia. }
  exists x'. unfold exec. rewrite Hrun, bind_Ok. split; [done|].
  rewrite Hcur. vm_compute. reflexivity.
Qed.

(** ** The theorems at the stores of the test suite *)

Lemma Put_ttl_over_maxTick_witness :
  Put (New 12) Test.obj1 13 = Ok (New 12, Some ErrTTLOverMaxTick).
Proof.
  destruct (Put_ttl_over_maxTick (New 12) Test.obj1 13) as [[H1 _] H2].
  destruct H1 as [x' Hx']; [simpl; lia|].
  rewrite Hx'. rewrite (H2 x' Hx'). reflexivity.
Defined.

Lemma Prune_drains_all_witness :
  ∃ x' res addrs,
    Prune Test.st_put1 (wrap64 (maxTick Test.st_put1 + 1)) = Ok (x', res) ∧
    addrs ≡ₚ liveNodes Test.st_put1 ∧
    res = map (dataAt (heap Test.st_put1)) addrs ∧
    liveNodes x' = [] ∧
    ∀ key, Get x' key = Ok None.
Proof.
  apply Prune_drains_all.
  run_reachable_tac [OpPut Test.obj1 3].
Defined.

Lemma Prune_never_fails_witness :
  ∃ x' res, Prune Test.st_put1 5 = Ok (x', res) ∧
            (5 = 0 → x' = Test.st_put1 ∧ res = []).
Proof.
  apply Prune_never_fails.
  - run_reachable_tac [OpPut Test.obj1 3].
  - unfold isTick. lia.
  - left. vm_compute. reflexivity.
Defined.

Lemma current_monotone_witness :
  (∀ progress, OpPrune (D := Test.testData) 1 = OpPrune progress →
               current Test.st_adv1 = wrap64 (current Test.st_put1 + progress)) ∧
  ((∀ progress, OpPrune (D := Test.testData) 1 ≠ OpPrune progress) →
   current Test.st_adv1 = current Test.st_put1) ∧
  ((∀ progress, OpPrune (D := Test.testData) 1 = OpPrune progress →
                current Test.st_put1 + progress < 2 ^ 64) →
   current Test.st_put1 ≤ current Test.st_adv1 ∧
   ∀ progress, OpPrune (D := Test.testData) 1 = OpPrune progress →
               current Test.st_adv1 = current Test.st_put1 + progress).
Proof.
  apply (current_monotone Test.st_put1 (OpPrune 1) Test.st_adv1).
  - run_reachable_tac [OpPut Test.obj1 3].
  - simpl. unfold isTick. lia.
  - vm_compute. reflexivity.
Defined.


Lemma Prune_at_most_once_witness :
  ∃ x' res addrs,
    Prune Test.st_put1 20 = Ok (x', res) ∧
    res = map (dataAt (heap Test.st_put1)) addrs ∧
    NoDup addrs ∧
    (∀ a : addr, a ∈ addrs → a ∈ liveNodes Test.st_put1) ∧
    liveNodes x' = [].
Proof.
  apply Prune_at_most_once.
  - run_reachable_tac [OpPut Test.obj1 3].
  - unfold isTick. lia.
  - vm_compute. reflexivity.
Defined.

(** * More of the code *)

Section Extras.
Context {D : Type} {LD : LruData D}.
Implicit Types (x : LruMap D) (obj : D) (ttl progress : Z) (key : list byte).

(** ** Helpers *)

Lemma wheel_spec x chains slots j : lru_ok x chains slots j → wheel x = slots.
Proof.
  intros Hok. unfold wheel.
  pose proof (ok_slots _ _ _ _ Hok) as Hsl.
  pose proof (ok_nodup _ _ _ _ Hok) as Hnd.
  apply walkFrame_map; [done|].
  intros i l Hi. pose proof (concat_insert_nil _ _ _ Hi) as Hperm.
  rewrite Hperm in Hnd. apply NoDup_app in Hnd as (Hnd & _ & _).
  apply NoDup_length_le; [done|].
  destruct (Forall2_lookup_r _ _ _ _ _ Hsl Hi) as (head & _ & Hl).
  by eapply is_flist_alloc.
Qed.

Lemma frames_empty_iff x chains slots j :
  lru_ok x chains slots j →
  (length (frames x) = 0%nat ↔ maxTick x = 2 ^ 64 - 1) ∧
  ((0 < length (frames x))%nat → Z.of_nat (length (frames x)) = maxTick x + 1).
Proof.
  intros Hok. pose proof (ok_frames _ _ _ _ Hok) as Hfr.
  pose proof (ok_maxTick _ _ _ _ Hok) as Hmt. unfold isTick in Hmt.
  destruct (decide (maxTick x = 2 ^ 64 - 1)) as [E|E].
  - rewrite E in Hfr. replace (2 ^ 64 - 1 + 1) with (2 ^ 64) in Hfr by lia.
    unfold wrap64 in Hfr. rewrite Z.mod_same in Hfr by lia.
    split; [split; [done | lia] | lia].
  - unfold wrap64 in Hfr. rewrite Z.mod_small in Hfr by lia.
    split; [split; [lia | done] | lia].
Qed.

Lemma Put_node_no_frames x chains slots obj (ttl : Z) h1 tbl1 bkt k :
  lru_ok x chains slots 0 → length (frames x) = 0%nat →
  h1 = heap x ++ k → chains_ok h1 tbl1 chains →
  tbl1 !! fnvHash (Key obj) = Some bkt →
  Put_node x obj ttl h1 tbl1 bkt = Fail DivideByZero.
Proof.
  intros Hok Hlen Eh1 Hch1 Hbkt.
  set (nn0 := mkNode None None None (Some obj)).
  destruct (insert_ok (h1 ++ [nn0]) tbl1 chains (fnvHash (Key obj)) bkt (length h1) obj)
    as (h3 & e & chains' & Hins & _); try done.
  { by apply chains_ok_app_heap. }
  { exact (fieldAt_app_new data h1 nn0). }
  { split; [exact (fieldAt_app_new next h1 nn0) | exact (fieldAt_app_new prev h1 nn0)]. }
  { intros hv' b Hb.
    destruct (ck_hash _ _ _ (ok_chains _ _ _ _ Hok) _ _ Hb) as (d & Hd & _).
    apply fieldAt_lt in Hd. rewrite Eh1, length_app. lia. }
  unfold Put_node, alloc. fold nn0. rewrite Hins, bind_Ok. cbn beta iota.
  by rewrite getFrame_empty.
Qed.

(** ** Get *)

(** X1: [Get] returns on every reachable store: the walk along the chain meets
    no nil payload and ends.  A payload it returns has the key asked for
    and is the payload of a node of the chain of the key's hash that is
    linked in the wheel, that is of an entry put and not yet pruned. *)
Theorem Get_sound x key :
  reachable x →
  ∃ r, Get x key = Ok r ∧
    ∀ d, r = Some d →
      Key d = key ∧
      ∃ a : addr, a ∈ chainOf x (fnvHash key) ∧ a ∈ liveNodes x ∧
                  dataAt (heap x) a = Some d.
Proof.
  intros Hreach. destruct (reachable_Inv _ Hreach) as (chains & slots & Hok).
  eexists. split; [by apply (Get_ok _ _ _ _ key Hok)|].
  intros d Hd. destruct (head _) as [a|] eqn:Eh; [|done]. simpl in Hd.
  apply head_Some_elem_of, list_elem_of_filter in Eh as [Hk Ha].
  split.
  - unfold keyAt in Hk. rewrite Hd in Hk. simpl in Hk. congruence.
  - exists a. rewrite (chainOf_spec _ _ _ _ _ Hok), (liveNodes_spec _ _ _ _ Hok).
    split_and!; [done | by eapply ok_linked | done].
Qed.

(** ** Put *)

(** X2: The three outcomes of [Put] on a reachable store: the error "TTL is
    over maxTick" with the store unchanged when [ttl > maxTick]; a panic
    (division by zero in [getFrame]) when the store was made with
    [maxTick = 2^64-1] and so has no frame; and otherwise nil, with [Size]
    one more (as an [int]). *)
Theorem Put_outcome x obj ttl :
  reachable x → isTick ttl →
  (maxTick x < ttl ∧ Put x obj ttl = Ok (x, Some ErrTTLOverMaxTick)) ∨
  (ttl ≤ maxTick x ∧ maxTick x = 2 ^ 64 - 1 ∧
   Put x obj ttl = Fail DivideByZero) ∨
  (ttl ≤ maxTick x ∧ maxTick x < 2 ^ 64 - 1 ∧
   ∃ x', Put x obj ttl = Ok (x', None) ∧ Size x' = wrapInt (Size x + 1)).
Proof.
  intros Hreach Httl. destruct (reachable_Inv _ Hreach) as (chains & slots & Hok).
  destruct (frames_empty_iff _ _ _ _ Hok) as [Hempty _].
  pose proof (ok_maxTick _ _ _ _ Hok) as Hmt. unfold isTick in Hmt.
  destruct (Z.ltb_spec (maxTick x) ttl) as [Hlt|Hge].
  { left. split; [done|]. rewrite Put_unfold.
    by rewrite (proj2 (Z.ltb_lt _ _) Hlt). }
  right. destruct (decide (maxTick x = 2 ^ 64 - 1)) as [E|E].
  - left. split; [done|]. split; [done|].
    apply Hempty in E. rewrite Put_unfold.
    rewrite (proj2 (Z.ltb_ge _ _)) by lia.
    destruct (table x !! fnvHash (Key obj)) as [b|] eqn:Etb.
    + eapply (Put_node_no_frames x chains slots obj ttl (heap x) (table x) b []);
        try done; [by rewrite app_nil_r | apply (ok_chains _ _ _ _ Hok)].
    + eapply (Put_node_no_frames x chains slots obj ttl _ _ _ [emptyNode]);
        try done; [|apply lookup_insert_eq].
      apply chains_ok_bucket; [apply (ok_chains _ _ _ _ Hok) | done].
  - right. split; [done|]. split; [lia|].
    assert ((0 < length (frames x))%nat) as Hlen.
    { destruct (length (frames x)) eqn:El; [|lia]. by destruct E; apply Hempty. }
    destruct (Put_ok x chains slots obj ttl Hok Httl Hge Hlen)
      as (x' & chains' & slots' & new & Hrun & _ & _ & _ & _ & _ & _ & _ & _ & Hcnt & _).
    by exists x'.
Qed.

(** X3: A [Put] that returns nil links the new node, which carries the
    payload, at the head of the frame of the tick [current + ttl], before
    the nodes already there; every other frame is as it was. *)
Theorem Put_wheel x obj ttl x' :
  reachable x → isTick ttl → Put x obj ttl = Ok (x', None) →
  ∃ new : addr,
    (new ∉ liveNodes x) ∧ dataAt (heap x') new = Some obj ∧
    wheel x' =
      <[frameOf x (current x + ttl) :=
          new :: default [] (wheel x !! frameOf x (current x + ttl))]> (wheel x).
Proof.
  intros Hreach Httl Hput.
  destruct (reachable_Inv _ Hreach) as (chains & slots & Hok).
  destruct (Put_inv _ _ _ _ _ Hput) as [(_ & ? & _)|(Hle & _ & Hlen & _)]; [done|].
  destruct (Put_ok x chains slots obj ttl Hok Httl Hle Hlen)
    as (x2 & chains' & slots' & new & Hrun & Hok' & Hnew & _ & Hd & _ & _ & _ & _ & _ & _
        & Hsl & _).
  rewrite Hput in Hrun. simplify_eq.
  rewrite (liveNodes_spec _ _ _ _ Hok), (wheel_spec _ _ _ _ Hok),
    (wheel_spec _ _ _ _ Hok').
  exists new. split; [|split; [|done]].
  - intros Hin. destruct (ok_nodes _ _ _ _ Hok _ Hin) as (d & Hda & _).
    apply fieldAt_lt in Hda. lia.
  - by rewrite dataAt_fieldAt, Hd.
Qed.

(** X4: A [Put] that returns nil appends the new node to the chain of the hash
    of its key, unless a node of that chain other than the last one
    carries the key: then [insert] reports a duplicate, [Put] drops the
    error and no chain changes.  The last node of the chain is never
    compared. *)
Theorem Put_chain x obj ttl x' :
  reachable x → isTick ttl → Put x obj ttl = Ok (x', None) →
  ∃ new : addr,
    (∀ hv (b : addr), b ∈ chainOf x hv → (b < new)%nat) ∧
    dataAt (heap x') new = Some obj ∧
    ((Exists (λ b, keyAt (heap x) b = Some (Key obj))
        (removelast (chainOf x (fnvHash (Key obj)))) ∧
      ∀ hv, chainOf x' hv = chainOf x hv) ∨
     (¬ Exists (λ b, keyAt (heap x) b = Some (Key obj))
          (removelast (chainOf x (fnvHash (Key obj)))) ∧
      ∀ hv, chainOf x' hv =
              if decide (hv = fnvHash (Key obj)) then chainOf x hv ++ [new]
              else chainOf x hv)).
Proof.
  intros Hreach Httl Hput.
  destruct (reachable_Inv _ Hreach) as (chains & slots & Hok).
  destruct (Put_inv _ _ _ _ _ Hput) as [(_ & ? & _)|(Hle & _ & Hlen & _)]; [done|].
  destruct (Put_ok x chains slots obj ttl Hok Httl Hle Hlen)
    as (x2 & chains' & slots' & new & Hrun & Hok' & Hnew & _ & Hd & _ & _ & _ & _ & _ & _
        & _ & Hcase).
  rewrite Hput in Hrun. simplify_eq.
  exists new. split; [|split].
  - intros hv b. rewrite (chainOf_spec _ _ _ _ _ Hok). intros Hb.
    destruct (ck_hash _ _ _ (ok_chains _ _ _ _ Hok) _ _ Hb) as (d & Hda & _).
    apply fieldAt_lt in Hda. lia.
  - by rewrite dataAt_fieldAt, Hd.
  - rewrite (chainOf_spec _ _ _ _ _ Hok).
    destruct Hcase as [[-> (b & Hb & Hk)]|[-> Hno]]; [left|right].
    + split; [apply Exists_exists; eauto|].
      intros hv. by rewrite (chainOf_spec _ _ _ _ _ Hok), (chainOf_spec _ _ _ _ _ Hok').
    + split; [rewrite Exists_exists; naive_solver|].
      intros hv. rewrite (chainOf_spec _ _ _ _ _ Hok), (chainOf_spec _ _ _ _ _ Hok').
      by case_decide; subst.
Qed.

Lemma filter_ext_elem (P Q : addr → Prop) `{!∀ b, Decision (P b)}
    `{!∀ b, Decision (Q b)} (l : list addr) :
  (∀ b, b ∈ l → P b ↔ Q b) → filter P l = filter Q l.
Proof.
  induction l as [|a l IH]; intros Hall; [done|].
  rewrite !filter_cons.
  rewrite IH by (intros b Hb; apply Hall; by right).
  destruct (decide (P a)) as [HP|HP], (decide (Q a)) as [HQ|HQ]; try done.
  - destruct HQ. apply Hall; [by left | done].
  - destruct HP. apply Hall; [by left | done].
Qed.

(** X5: [Get] after a [Put] that returned nil: a key that was found is still
    found, with the same payload, also when it is the key just put (the
    new entry never hides an older one); a key that was not found is found
    afterwards exactly when it is the key just put, with the new payload. *)
Theorem Put_then_Get x obj ttl x' key :
  reachable x → isTick ttl → Put x obj ttl = Ok (x', None) →
  ∃ r, Get x key = Ok r ∧
    Get x' key = Ok (match r with
                     | Some d => Some d
                     | None => if decide (key = Key obj) then Some obj else None
                     end).
Proof.
  intros Hreach Httl Hput.
  destruct (reachable_Inv _ Hreach) as (chains & slots & Hok).
  destruct (Put_inv _ _ _ _ _ Hput) as [(_ & ? & _)|(Hle & _ & Hlen & _)]; [done|].
  destruct (Put_ok x chains slots obj ttl Hok Httl Hle Hlen)
    as (x2 & chains' & slots' & new & Hrun & Hok' & Hnew & _ & Hd & Hold & _ & _ & _ & _ & _
        & _ & Hcase).
  rewrite Hput in Hrun. injection Hrun as <-.
  rewrite (Get_ok _ _ _ _ key Hok), (Get_ok _ _ _ _ key Hok').
  eexists. split; [done|]. f_equal.
  pose proof (ok_chains _ _ _ _ Hok) as Hch.
  assert (∀ hv b, b ∈ chains hv →
            dataAt (heap x') b = dataAt (heap x) b ∧ is_Some (dataAt (heap x) b)) as Hsame.
  { intros hv b Hb. destruct (ck_hash _ _ _ Hch _ _ Hb) as (d & Hda & _).
    rewrite !dataAt_fieldAt, (Hold _ _ Hda), Hda. by split. }
  assert (∀ hv, filter (λ a, keyAt (heap x') a = Some key) (chains hv) =
                filter (λ a, keyAt (heap x) a = Some key) (chains hv)) as Hfil.
  { intros hv. apply filter_ext_elem. intros b Hb. unfold keyAt.
    by rewrite (proj1 (Hsame _ _ Hb)). }
  assert (∀ hv a, head (filter (λ a, keyAt (heap x) a = Some key) (chains hv)) = Some a →
            ∃ d, dataAt (heap x') a = Some d ∧ dataAt (heap x) a = Some d) as Hhead.
  { intros hv a [_ Ha]%head_Some_elem_of%list_elem_of_filter.
    destruct (Hsame _ _ Ha) as [E [d Hd']]. exists d. by rewrite E. }
  assert (keyAt (heap x') new = Some (Key obj)) as Hknew.
  { unfold keyAt. by rewrite dataAt_fieldAt, Hd. }
  destruct Hcase as [[-> (b & Hb & Hk)]|[-> _]].
  - (* insert reported a duplicate: the chains are as they were *)
    rewrite Hfil.
    destruct (head _) as [a|] eqn:Eh.
    + destruct (Hhead _ _ Eh) as (d & E1 & E2). simpl. by rewrite E1, E2.
    + simpl. rewrite decide_False; [done|]. intros ->.
      apply head_None in Eh.
      assert (b ∈ filter (λ a, keyAt (heap x) a = Some (Key obj))
                    (chains (fnvHash (Key obj)))) as Hin.
      { apply list_elem_of_filter. split; [done | by apply elem_of_removelast]. }
      rewrite Eh in Hin. by apply elem_of_nil in Hin.
  - (* the new node is the last one of its chain *)
    destruct (decide (fnvHash key = fnvHash (Key obj))) as [Ehv|Ehv].
    + rewrite filter_app, Hfil, Ehv.
      destruct (filter _ (chains (fnvHash (Key obj)))) as [|a l] eqn:Ef.
      * simpl. rewrite filter_cons, filter_nil, Hknew.
        destruct (decide (key = Key obj)) as [->|Hne].
        -- rewrite decide_True by done. simpl. by rewrite dataAt_fieldAt, Hd.
        -- rewrite decide_False by congruence. done.
      * assert (head (filter (λ a, keyAt (heap x) a = Some key)
                        (chains (fnvHash (Key obj)))) = Some a) as Eh.
        { by rewrite Ef. }
        destruct (Hhead _ _ Eh) as (d & E1 & E2). simpl. by rewrite E1, E2.
    + rewrite Hfil.
      destruct (head _) as [a|] eqn:Eh.
      * destruct (Hhead _ _ Eh) as (d & E1 & E2). simpl. by rewrite E1, E2.
      * simpl. rewrite decide_False; [done|]. by intros ->.
Qed.

(** ** Prune *)

Lemma elem_of_visits x n :
  ∀ (j : Z) (f : nat),
    f ∈ visits x j n ↔ ∃ k, j ≤ k < j + Z.of_nat n ∧ f = frameOf x (current x + k).
Proof.
  induction n as [|n IH]; intros j f; simpl visits.
  - split; [by intros H%elem_of_nil | intros (k & ? & _); lia].
  - rewrite elem_of_cons, IH. split.
    + intros [->|(k & Hk & ->)]; [exists j | exists k]; (split; [lia | done]).
    + intros (k & Hk & ->). destruct (decide (k = j)) as [->|]; [by left | right].
      exists k. split; [lia | done].
Qed.

Lemma lookup_drained_notin fs :
  ∀ (slots : list (list addr)) (i : nat),
    i ∉ fs → drained slots fs !! i = slots !! i.
Proof.
  induction fs as [|f fs IH]; intros slots i Hi; [done|]. simpl.
  apply not_elem_of_cons in Hi as [Hne Hi].
  rewrite IH by done. by apply list_lookup_insert_ne.
Qed.

Lemma elem_of_taken fs :
  ∀ (slots : list (list addr)) (a : addr) (i : nat) l,
    i ∈ fs → slots !! i = Some l → a ∈ l → a ∈ taken slots fs.
Proof.
  induction fs as [|f fs IH]; intros slots a i l Hi Hl Ha.
  - by apply elem_of_nil in Hi.
  - simpl. apply elem_of_app.
    destruct (decide (i = f)) as [->|Hne]; [left; by rewrite Hl|].
    right. apply elem_of_cons in Hi as [?|Hi]; [done|].
    apply (IH _ _ i l); [done | | done]. by rewrite list_lookup_insert_ne.
Qed.

Lemma frameOf_inj x chains slots j (k r : Z) :
  lru_ok x chains slots j → (0 < length (frames x))%nat →
  0 ≤ k < r → r ≤ maxTick x → current x + r < 2 ^ 64 →
  frameOf x (current x + k) ≠ frameOf x (current x + r).
Proof.
  intros Hok Hlen Hk Hr Hno.
  destruct (frames_empty_iff _ _ _ _ Hok) as [_ HL]. specialize (HL Hlen).
  pose proof (ok_current _ _ _ _ Hok) as Hc. unfold isTick in Hc.
  unfold frameOf. rewrite !wrap64_small by (unfold isTick; lia).
  set (L := Z.of_nat (length (frames x))) in *.
  pose proof (Z.mod_pos_bound (current x + k) L ltac:(lia)) as B1.
  pose proof (Z.mod_pos_bound (current x + r) L ltac:(lia)) as B2.
  intros E. apply Z2Nat.inj in E; [|lia..].
  pose proof (Z.div_mod (current x + k) L ltac:(lia)) as E1.
  pose proof (Z.div_mod (current x + r) L ltac:(lia)) as E2.
  rewrite E in E1.
  assert (r - k = L * ((current x + r) `div` L - (current x + k) `div` L)) as Ed by lia.
  generalize dependent ((current x + r) `div` L - (current x + k) `div` L).
  intros d Hd. destruct (decide (d ≤ 0)); nia.
Qed.

Lemma Prune_frames_cases x progress x' res :
  reachable x → isTick progress → Prune x progress = Ok (x', res) →
  (0 < length (frames x))%nat ∨ progress = 0.
Proof.
  intros _ Hp Hprune. destruct (length (frames x)) eqn:E; [right | left; lia].
  by eapply Prune_frames_empty.
Qed.

(** X6: What [Prune(progress)] returns and leaves: it visits the frames of the
    ticks [current], [current+1], ..., [current+progress-1] in this order,
    returns the payloads of each visited frame from its head (the entry
    put last) on, and leaves the visited frames empty and every other
    frame as it was. *)
Theorem Prune_wheel x progress x' res :
  reachable x → isTick progress → Prune x progress = Ok (x', res) →
  res = map (dataAt (heap x)) (taken (wheel x) (visits x 0 (Z.to_nat progress))) ∧
  wheel x' = drained (wheel x) (visits x 0 (Z.to_nat progress)).
Proof.
  intros Hreach Hp Hprune.
  destruct (reachable_Inv _ Hreach) as (chains & slots & Hok).
  destruct (Prune_ok x chains slots progress Hok Hp
              (Prune_frames_cases _ _ _ _ Hreach Hp Hprune))
    as (x2 & chains' & slots' & addrs & Hrun & Hok' & _ & _ & _ & _ & _ & _ & _ & _ & _
        & Had & Hsl).
  rewrite Hprune in Hrun. injection Hrun as <- ->.
  rewrite (wheel_spec _ _ _ _ Hok), (wheel_spec _ _ _ _ Hok').
  by rewrite Had, Hsl.
Qed.

(** X7: [Prune] removes no bucket from the table and unlinks from the hash
    chains exactly the nodes whose payloads it returns; the other nodes
    of each chain stay in their order. *)
Theorem Prune_chains x progress x' res :
  reachable x → isTick progress → Prune x progress = Ok (x', res) →
  table x' = table x ∧
  ∀ hv, chainOf x' hv =
          filter (λ b, b ∉ taken (wheel x) (visits x 0 (Z.to_nat progress)))
            (chainOf x hv).
Proof.
  intros Hreach Hp Hprune.
  destruct (reachable_Inv _ Hreach) as (chains & slots & Hok).
  destruct (Prune_ok x chains slots progress Hok Hp
              (Prune_frames_cases _ _ _ _ Hreach Hp Hprune))
    as (x2 & chains' & slots' & addrs & Hrun & Hok' & _ & _ & Htb & _ & _ & _ & _ & _ & Hch
        & Had & _).
  rewrite Hprune in Hrun. injection Hrun as <- _.
  split; [done|]. intros hv.
  rewrite (wheel_spec _ _ _ _ Hok), (chainOf_spec _ _ _ _ _ Hok),
    (chainOf_spec _ _ _ _ _ Hok'), <-Had. apply Hch.
Qed.

Lemma Prune_slot x chains slots (p : Z) (a : addr) (r : Z) (l : list addr) :
  lru_ok x chains slots 0 → isTick p → (0 < length (frames x))%nat →
  0 ≤ r ≤ maxTick x →
  slots !! frameOf x (current x + r) = Some l → a ∈ l →
  ∃ x' chains' slots' addrs,
    Prune x p = Ok (x', map (dataAt (heap x)) addrs) ∧
    lru_ok x' chains' slots' 0 ∧
    (∀ b, dataAt (heap x') b = dataAt (heap x) b) ∧
    (r < p → a ∈ addrs ∧ a ∉ concat slots') ∧
    (p ≤ r → current x + r < 2 ^ 64 →
     slots' !! frameOf x' (current x' + (r - p)) = Some l) ∧
    addrs ++ concat slots' ≡ₚ concat slots.
Proof.
  intros Hok Hp Hlen Hr Hl Ha.
  destruct (Prune_ok x chains slots p Hok Hp (or_introl Hlen))
    as (x' & chains' & slots' & addrs & Hrun & Hok' & Hperm & _ & _ & Hcur & _ & _ & Hln
        & Hdt & _ & Had & Hsl).
  exists x', chains', slots', addrs. split; [done|]. split; [done|].
  unfold isTick in Hp. split_and!.
  - intros b. by rewrite !dataAt_fieldAt, Hdt.
  - intros Hlt.
    assert (a ∈ addrs) as Hin.
    { rewrite Had. eapply elem_of_taken; [|exact Hl|exact Ha].
      apply elem_of_visits. exists r. split; [lia | done]. }
    split; [done|].
    pose proof (ok_nodup _ _ _ _ Hok) as Hnd. rewrite <-Hperm in Hnd.
    apply NoDup_app in Hnd as (_ & Hdisj & _). by apply Hdisj.
  - intros Hge Hno.
    assert (frameOf x' (current x' + (r - p)) = frameOf x (current x + r)) as ->.
    { unfold frameOf. by rewrite Hln, Hcur, wrap64_add_sub. }
    rewrite Hsl, lookup_drained_notin; [done|].
    intros (k & Hk & E)%elem_of_visits.
    eapply (frameOf_inj x chains slots 0 k r); try done; lia.
  - done.
Qed.

(** X8: Expiry: a node in the frame of the tick [current + r], with
    [0 <= r <= maxTick], is returned and unlinked by [Prune(progress)] when
    [r < progress]; when [progress <= r] (and [current + r] does not pass
    [2^64]) its frame is not touched and is, after the call, the frame of
    the tick [current' + (r - progress)]. *)
Theorem Prune_expiry x progress x' res (a : addr) (r : Z) (l : list addr) :
  reachable x → isTick progress → Prune x progress = Ok (x', res) →
  0 ≤ r ≤ maxTick x →
  wheel x !! frameOf x (current x + r) = Some l → a ∈ l →
  (r < progress → dataAt (heap x) a ∈ res ∧ a ∉ liveNodes x') ∧
  (progress ≤ r → current x + r < 2 ^ 64 →
   wheel x' !! frameOf x' (current x' + (r - progress)) = Some l ∧
   dataAt (heap x') a = dataAt (heap x) a).
Proof.
  intros Hreach Hp Hprune Hr Hl Ha.
  destruct (reachable_Inv _ Hreach) as (chains & slots & Hok).
  rewrite (wheel_spec _ _ _ _ Hok) in Hl.
  assert ((0 < length (frames x))%nat) as Hlen.
  { apply lookup_lt_Some in Hl.
    rewrite <-(Forall2_length _ _ _ (ok_slots _ _ _ _ Hok)) in Hl. lia. }
  destruct (Prune_slot x chains slots progress a r l Hok Hp Hlen Hr Hl Ha)
    as (x2 & chains' & slots' & addrs & Hrun & Hok' & Hdt & Hlt & Hge & _).
  rewrite Hprune in Hrun. injection Hrun as <- ->.
  rewrite (liveNodes_spec _ _ _ _ Hok'), (wheel_spec _ _ _ _ Hok').
  split.
  - intros H. destruct (Hlt H) as [Hin Hout].
    split; [by apply list_elem_of_fmap_2 | done].
  - intros H1 H2. split; [by apply Hge | done].
Qed.


(** X10: Every payload [Prune] returns is non-nil and is the payload of an
    entry that was in the wheel before the call and is not after it. *)
Theorem Prune_returns_entries x progress x' res :
  reachable x → isTick progress → Prune x progress = Ok (x', res) →
  ∀ r, r ∈ res →
    ∃ (d : D) (a : addr),
      r = Some d ∧ dataAt (heap x) a = Some d ∧
      a ∈ liveNodes x ∧ a ∉ liveNodes x'.
Proof.
  intros Hreach Hp Hprune r Hr.
  destruct (reachable_Inv _ Hreach) as (chains & slots & Hok).
  destruct (Prune_ok x chains slots progress Hok Hp
              (Prune_frames_cases _ _ _ _ Hreach Hp Hprune))
    as (x2 & chains' & slots' & addrs & Hrun & Hok' & Hperm & _).
  rewrite Hprune in Hrun. injection Hrun as <- ->.
  rewrite (liveNodes_spec _ _ _ _ Hok), (liveNodes_spec _ _ _ _ Hok').
  apply list_elem_of_fmap in Hr as (a & -> & Ha).
  assert (a ∈ concat slots) as Hin by (rewrite <-Hperm; set_solver).
  destruct (ok_nodes _ _ _ _ Hok _ Hin) as (d & Hda & _).
  exists d, a. rewrite dataAt_fieldAt, Hda. split_and!; try done.
  pose proof (ok_nodup _ _ _ _ Hok) as Hnd. rewrite <-Hperm in Hnd.
  apply NoDup_app in Hnd as (_ & Hdisj & _). by apply Hdisj.
Qed.

Lemma framePrune_retick x f (c cnt : Z) :
  framePrune (mkLruMap (heap x) (table x) (frames x) c (maxTick x) cnt) f =
  ('(x', r) ← framePrune x f;
   Ok (mkLruMap (heap x') (table x') (frames x') c (maxTick x') cnt, r)).
Proof.
  unfold framePrune. cbn [heap frames table current maxTick count].
  destruct (pruneLoop _ _ _ _) as [[h pd]|e]; [|done]. by rewrite !bind_Ok.
Qed.

Lemma framePrune_count x f x' res :
  framePrune x f = Ok (x', res) → count x' = count x.
Proof.
  unfold framePrune. destruct (pruneLoop _ _ _ _) as [[h pd]|]; [|done].
  rewrite bind_Ok. by intros [= <- _].
Qed.

Lemma pruneFrames_count n :
  ∀ x (i : Z) acc x' res,
    pruneFrames n x i acc = Ok (x', res) → count x' = count x.
Proof.
  induction n as [|n IH]; intros x i acc x' res; cbn [pruneFrames].
  - by intros [= <- _].
  - destruct (getFrame _ _) as [f|]; [|done]. rewrite bind_Ok.
    destruct (framePrune x f) as [[x1 pr]|] eqn:E; [|done]. rewrite bind_Ok.
    intros Hrun. apply IH in Hrun. apply framePrune_count in E. congruence.
Qed.

(** The loop of [Prune] only appends to the slice of the payloads. *)
Lemma pruneFrames_acc n :
  ∀ x (i : Z) acc,
    pruneFrames n x i acc = ('(x', r) ← pruneFrames n x i []; Ok (x', acc ++ r)).
Proof.
  induction n as [|n IH]; intros x i acc; cbn [pruneFrames].
  - by rewrite bind_Ok, app_nil_r.
  - destruct (getFrame _ _) as [f|]; [|done]. rewrite !bind_Ok.
    destruct (framePrune x f) as [[x1 pr]|]; [|done]. rewrite !bind_Ok.
    rewrite (IH x1 (i + 1) (acc ++ pr)), (IH x1 (i + 1) ([] ++ pr)).
    destruct (pruneFrames n x1 (i + 1) []) as [[x2 r]|]; [|done].
    repeat (rewrite bind_Ok; cbn beta iota). by rewrite app_assoc.
Qed.

Lemma pruneFrames_app n m :
  ∀ x (i : Z) acc,
    pruneFrames (n + m) x i acc =
    ('(x1, acc1) ← pruneFrames n x i acc; pruneFrames m x1 (i + Z.of_nat n) acc1).
Proof.
  induction n as [|n IH]; intros x i acc.
  - cbn [pruneFrames Nat.add]. rewrite bind_Ok. by rewrite Z.add_0_r.
  - cbn [pruneFrames Nat.add].
    destruct (getFrame _ _) as [f|]; [|done]. rewrite !bind_Ok.
    destruct (framePrune x f) as [[x1 pr]|]; [|done]. rewrite !bind_Ok.
    rewrite IH. by replace (i + 1 + Z.of_nat n) with (i + Z.of_nat (S n)) by lia.
Qed.

Lemma wrap64_succ (c d : Z) : wrap64 c = wrap64 d → wrap64 (c + 1) = wrap64 (d + 1).
Proof.
  unfold wrap64. intros E.
  by rewrite <-(Zplus_mod_idemp_l c), E, Zplus_mod_idemp_l.
Qed.

(** The loop of [Prune] reads [current] only through the tick
    [current + i], and never reads [count]. *)
Lemma pruneFrames_retick n :
  ∀ x (c cnt i j : Z) acc,
    wrap64 (c + i) = wrap64 (current x + j) →
    pruneFrames n (mkLruMap (heap x) (table x) (frames x) c (maxTick x) cnt) i acc =
    ('(x', r) ← pruneFrames n x j acc;
     Ok (mkLruMap (heap x') (table x') (frames x') c (maxTick x') cnt, r)).
Proof.
  induction n as [|n IH]; intros x c cnt i j acc E; cbn [pruneFrames].
  - by rewrite bind_Ok.
  - cbn [current]. rewrite E.
    assert (∀ t, getFrame (mkLruMap (heap x) (table x) (frames x) c (maxTick x) cnt) t
                 = getFrame x t) as -> by done.
    destruct (getFrame x _) as [f|]; [|done]. rewrite !bind_Ok.
    rewrite framePrune_retick.
    destruct (framePrune x f) as [[x1 pr]|] eqn:Ef; [|done]. rewrite !bind_Ok.
    repeat (rewrite bind_Ok; cbn beta iota). apply IH.
    rewrite (framePrune_current _ _ _ _ Ef), !Z.add_assoc. by apply wrap64_succ.
Qed.

(** X11: Composition: for ticks [a] and [b] whose sum is a tick
    ([a + b < 2^64]), [Prune(a + b)] does what [Prune(a)] followed by
    [Prune(b)] does; it gives the same store and the payloads of the two
    calls one after the other, and it panics when one of the two does. *)
Theorem Prune_compose x (a b : Z) :
  isTick a → isTick b → a + b < 2 ^ 64 →
  Prune x (a + b) =
  ('(x1, r1) ← Prune x a; '(x2, r2) ← Prune x1 b; Ok (x2, r1 ++ r2)).
Proof.
  intros [Ha _] [Hb _] _. unfold Prune. rewrite Z2Nat.inj_add by done.
  rewrite pruneFrames_app.
  destruct (pruneFrames (Z.to_nat a) x 0 []) as [[x1 r1]|] eqn:E1; [|done].
  repeat (rewrite bind_Ok; cbn beta iota).
  cbn [heap frames table current maxTick count].
  rewrite (pruneFrames_retick _ x1 _ _ 0 a []).
  2:{ unfold wrap64. by rewrite Z.add_0_r, Z.mod_mod. }
  rewrite (pruneFrames_acc _ x1 _ r1), Z.add_0_l, Z2Nat.id by done.
  destruct (pruneFrames (Z.to_nat b) x1 a []) as [[x2 r2]|] eqn:E2; [|done].
  repeat (rewrite bind_Ok; cbn beta iota).
  cbn [heap frames table current maxTick count].
  f_equal. f_equal. f_equal.
  - rewrite (pruneFrames_current _ _ _ _ _ _ E2).
    unfold wrap64. rewrite Zplus_mod_idemp_l. f_equal. lia.
  - rewrite (pruneFrames_count _ _ _ _ _ _ E2), length_app, Nat2Z.inj_add.
    replace (wrapInt (count x1 - Z.of_nat (length r1)) - Z.of_nat (length r2))
      with (wrapInt (count x1 - Z.of_nat (length r1)) + - Z.of_nat (length r2))
      by lia.
    rewrite wrapInt_add. f_equal. lia.
Qed.

(** ** Stores with unique keys *)

Lemma NoDup_fmap_inj {B : Type} (f : addr → B) (l : list addr) a b :
  NoDup (map f l) → a ∈ l → b ∈ l → f a = f b → a = b.
Proof.
  induction l as [|c l IH]; intros Hnd Ha Hb E; [by apply elem_of_nil in Ha|].
  simpl in Hnd. apply NoDup_cons in Hnd as [Hc Hnd].
  apply elem_of_cons in Ha as [->|Ha], Hb as [->|Hb]; [done| | |by apply IH].
  - destruct Hc. rewrite E. by apply (list_elem_of_fmap_2 f).
  - destruct Hc. rewrite <-E. by apply (list_elem_of_fmap_2 f).
Qed.

Lemma unique_inv x :
  reachable_unique x →
  ∃ chains slots,
    lru_ok x chains slots 0 ∧
    (∀ a, a ∈ concat slots →
       ∃ d, dataAt (heap x) a = Some d ∧ a ∈ chains (fnvHash (Key d))) ∧
    NoDup (map (keyAt (heap x)) (concat slots)) ∧
    count x = wrapInt (Z.of_nat (length (concat slots))).
Proof.
  induction 1 as [m Hm|x x' obj ttl e _ IH Httl Hget Hput|x x' p res _ IH Hp Hprune].
  - eexists _, _. split; [by apply lru_ok_New|].
    rewrite concat_replicate_nil. split_and!; [|constructor|done].
    intros a Ha. by apply elem_of_nil in Ha.
  - destruct IH as (chains & slots & Hok & Hin & Hnd & Hcnt).
    destruct (Put_inv _ _ _ _ _ Hput) as [(_ & _ & ->)|(Hle & -> & Hlen & _)].
    { by exists chains, slots. }
    destruct (Put_ok x chains slots obj ttl Hok Httl Hle Hlen)
      as (x2 & chains' & slots' & new & Hrun & Hok' & Hnew & Hperm & Hd & Hold & _ & _ & _
          & Hcnt' & _ & _ & Hcase).
    rewrite Hput in Hrun. injection Hrun as <-.
    pose proof (ok_chains _ _ _ _ Hok) as Hch.
    (* no node of the chain carries the key *)
    assert (∀ b, b ∈ chains (fnvHash (Key obj)) →
                 keyAt (heap x) b ≠ Some (Key obj)) as Hnone.
    { intros b Hb Hk. rewrite (Get_ok _ _ _ _ _ Hok) in Hget.
      destruct (head _) as [a|] eqn:Eh.
      - apply head_Some_elem_of, list_elem_of_filter in Eh as [_ Ha].
        destruct (ck_hash _ _ _ Hch _ _ Ha) as (d & Hda & _).
        simpl in Hget. by rewrite dataAt_fieldAt, Hda in Hget.
      - apply head_None in Eh.
        assert (b ∈ filter (λ a, keyAt (heap x) a = Some (Key obj))
                      (chains (fnvHash (Key obj)))) as Hbin.
        { by apply list_elem_of_filter. }
        rewrite Eh in Hbin. by apply elem_of_nil in Hbin. }
    destruct Hcase as [[_ (b & Hb & Hk)]|[-> _]].
    { destruct (Hnone b); [by apply elem_of_removelast | done]. }
    assert (∀ a, a ∈ concat slots → dataAt (heap x') a = dataAt (heap x) a) as Hsame.
    { intros a Ha. destruct (ok_nodes _ _ _ _ Hok _ Ha) as (d & Hda & _).
      by rewrite !dataAt_fieldAt, (Hold _ _ Hda), Hda. }
    assert (dataAt (heap x') new = Some obj) as Hdnew.
    { by rewrite dataAt_fieldAt, Hd. }
    eexists _, slots'. split; [exact Hok'|]. split_and!.
    + intros a Ha. rewrite Hperm in Ha. apply elem_of_cons in Ha as [->|Ha].
      * exists obj. split; [done|]. rewrite decide_True by done. set_solver.
      * destruct (Hin _ Ha) as (d & Hda & Hac). exists d.
        split; [by rewrite Hsame|]. case_decide as E; [|done].
        rewrite <-E. set_solver.
    + rewrite Hperm. simpl. apply NoDup_cons. split.
      * unfold keyAt at 1. rewrite Hdnew. simpl.
        intros (a & Hk & Ha)%list_elem_of_fmap.
        destruct (Hin _ Ha) as (d & Hda & Hac).
        unfold keyAt in Hk. rewrite (Hsame _ Ha), Hda in Hk. simpl in Hk.
        injection Hk as Hk. rewrite <-Hk in Hac.
        apply (Hnone a Hac). unfold keyAt. rewrite Hda. simpl. by rewrite Hk.
      * erewrite map_ext_in; [exact Hnd|].
        intros a Ha%list_elem_of_In. unfold keyAt. by rewrite Hsame.
    + rewrite Hcnt', Hcnt, wrapInt_add, Hperm. f_equal. simpl. lia.
  - destruct IH as (chains & slots & Hok & Hin & Hnd & Hcnt).
    destruct (Prune_ok x chains slots p Hok Hp)
      as (x2 & chains' & slots' & addrs & Hrun & Hok' & Hperm & _ & _ & _ & _ & Hcnt' & _
          & Hdt & Hch' & _).
    { destruct (length (frames x)) eqn:E; [right | left; lia].
      by eapply Prune_frames_empty. }
    rewrite Hprune in Hrun. injection Hrun as <- _.
    assert (∀ a, dataAt (heap x') a = dataAt (heap x) a) as Hsame.
    { intros a. by rewrite !dataAt_fieldAt, Hdt. }
    pose proof (ok_nodup _ _ _ _ Hok) as Hndall. rewrite <-Hperm in Hndall.
    apply NoDup_app in Hndall as (_ & Hdisj & _).
    exists chains', slots'. split; [done|]. split_and!.
    + intros a Ha. destruct (Hin a) as (d & Hda & Hac).
      { rewrite <-Hperm. set_solver. }
      exists d. split; [by rewrite Hsame|]. rewrite Hch'.
      apply list_elem_of_filter. split; [|done]. intros Hadd. by apply (Hdisj a).
    + rewrite <-Hperm, map_app in Hnd. apply NoDup_app in Hnd as (_ & _ & Hnd).
      erewrite map_ext; [exact Hnd|]. intros a. unfold keyAt. by rewrite Hsame.
    + rewrite Hcnt', Hcnt.
      replace (wrapInt (Z.of_nat (length (concat slots))) - Z.of_nat (length addrs))
        with (wrapInt (Z.of_nat (length (concat slots))) + - Z.of_nat (length addrs))
        by lia.
      rewrite wrapInt_add, <-Hperm, length_app. f_equal. lia.
Qed.

(** X12: When every object is put only while [Get] finds nothing under its key,
    the entries of the store have distinct keys, [Get] finds exactly the
    payloads of the entries, each under its key, and [Size()] is the
    number of the entries (as an [int]), that is of the keys [Get]
    finds. *)
Theorem unique_keys x :
  reachable_unique x →
  NoDup (map (keyAt (heap x)) (liveNodes x)) ∧
  (∀ key d, Get x key = Ok (Some d) ↔
            ∃ a : addr, a ∈ liveNodes x ∧ dataAt (heap x) a = Some d ∧ Key d = key) ∧
  Size x = wrapInt (Z.of_nat (length (liveNodes x))).
Proof.
  intros (chains & slots & Hok & Hin & Hnd & Hcnt)%unique_inv.
  rewrite (liveNodes_spec _ _ _ _ Hok). split; [done|]. split; [|done].
  intros key d. rewrite (Get_ok _ _ _ _ key Hok). split.
  - intros [= Hget]. destruct (head _) as [a|] eqn:Eh; [|done]. simpl in Hget.
    apply head_Some_elem_of, list_elem_of_filter in Eh as [Hk Ha].
    exists a. split; [by eapply ok_linked|]. split; [done|].
    unfold keyAt in Hk. rewrite Hget in Hk. simpl in Hk. congruence.
  - intros (a & Ha & Hda & <-). f_equal.
    destruct (Hin _ Ha) as (d' & Hda' & Hac).
    assert (d' = d) as -> by congruence.
    assert (keyAt (heap x) a = Some (Key d)) as Hka.
    { unfold keyAt. by rewrite Hda. }
    destruct (head _) as [a'|] eqn:Eh.
    + apply head_Some_elem_of, list_elem_of_filter in Eh as [Hk Ha'].
      assert (a' = a) as ->.
      { eapply (NoDup_fmap_inj (keyAt (heap x))); [exact Hnd| |done|congruence].
        by eapply ok_linked. }
      done.
    + apply head_None in Eh.
      assert (a ∈ filter (λ a, keyAt (heap x) a = Some (Key d))
                    (chains (fnvHash (Key d)))) as Hbin.
      { by apply list_elem_of_filter. }
      rewrite Eh in Hbin. by apply elem_of_nil in Hbin.
Qed.

(** ** The whole store *)

Lemma Put_node_table x obj (ttl : Z) h1 tbl bkt x' e :
  Put_node x obj ttl h1 tbl bkt = Ok (x', e) → table x' = tbl.
Proof.
  unfold Put_node, alloc.
  destruct (insert _ _ _) as [[h3 e3]|f]; [|done]. rewrite bind_Ok. cbn beta iota.
  destruct (getFrame _ _) as [cur|f]; [|done]. rewrite bind_Ok.
  destruct (frameAdd _ _ _ _) as [[h4 frs]|f]; [|done]. rewrite bind_Ok.
  by intros [= <- _].
Qed.

(** X14: No call removes a bucket from the hash table or changes the payload
    of a node: the table only grows (by the bucket of a hash put for the
    first time), also when [Prune] empties the chains. *)
Theorem exec_keeps_buckets x (o : op D) x' :
  reachable x → op_valid o → exec x o = Ok x' →
  table x ⊆ table x' ∧
  ∀ (a : addr) d, dataAt (heap x) a = Some d → dataAt (heap x') a = Some d.
Proof.
  intros Hreach Hvalid Hexec.
  destruct (reachable_Inv _ Hreach) as (chains & slots & Hok).
  destruct o as [obj ttl|key|p|]; unfold exec in Hexec.
  - destruct (Put x obj ttl) as [[x1 e]|f] eqn:Hput; [|done].
    rewrite bind_Ok in Hexec. injection Hexec as ->.
    destruct (Put_inv _ _ _ _ _ Hput) as [(_ & _ & ->)|(Hle & -> & Hlen & _)]; [done|].
    split.
    + pose proof Hput as Hput'. rewrite Put_unfold in Hput'.
      rewrite (proj2 (Z.ltb_ge _ _)) in Hput' by lia.
      destruct (table x !! fnvHash (Key obj)) as [b|] eqn:E;
        apply Put_node_table in Hput'; rewrite Hput'; [done|].
      by apply insert_subseteq.
    + destruct (Put_ok x chains slots obj ttl Hok Hvalid Hle Hlen)
        as (x2 & chains' & slots' & new & Hrun & _ & _ & _ & _ & Hold & _).
      rewrite Hput in Hrun. injection Hrun as <-.
      intros a d. rewrite !dataAt_fieldAt. intros Hd.
      destruct (fieldAt data (heap x) a) as [v|] eqn:E; [|done].
      by rewrite (Hold _ _ E).
  - destruct (Get x key); [|done]. rewrite bind_Ok in Hexec.
    by injection Hexec as ->.
  - destruct (Prune x p) as [[x1 res]|f] eqn:Hprune; [|done].
    rewrite bind_Ok in Hexec. injection Hexec as ->.
    destruct (Prune_ok x chains slots p Hok Hvalid
                (Prune_frames_cases _ _ _ _ Hreach Hvalid Hprune))
      as (x2 & chains' & slots' & addrs & Hrun & _ & _ & _ & Htb & _ & _ & _ & _ & Hdt & _).
    rewrite Hprune in Hrun. injection Hrun as <- _.
    split; [by rewrite Htb|]. intros a d. by rewrite !dataAt_fieldAt, Hdt.
  - by injection Hexec as ->.
Qed.

(** X15: The shape of every reachable store: the wheel has [maxTick + 1] frames
    (as a [uint64]); no node is linked twice in the wheel; every node of a
    frame carries a payload and is in the frame of a tick at most
    [maxTick] ahead of [current]; every hash chain is in the order of
    allocation, and each of its nodes is in the wheel and carries a key
    with the hash of the chain. *)
Theorem reachable_shape x :
  reachable x →
  length (wheel x) = Z.to_nat (wrap64 (maxTick x + 1)) ∧
  NoDup (liveNodes x) ∧
  (∀ (i : nat) l (a : addr), wheel x !! i = Some l → a ∈ l →
     ∃ d r, dataAt (heap x) a = Some d ∧ 0 ≤ r ≤ maxTick x ∧
            i = frameOf x (current x + r)) ∧
  (∀ hv, StronglySorted lt (chainOf x hv)) ∧
  (∀ hv (a : addr), a ∈ chainOf x hv →
     a ∈ liveNodes x ∧ ∃ d, dataAt (heap x) a = Some d ∧ fnvHash (Key d) = hv).
Proof.
  intros Hreach. destruct (reachable_Inv _ Hreach) as (chains & slots & Hok).
  pose proof (ok_chains _ _ _ _ Hok) as Hch.
  rewrite (liveNodes_spec _ _ _ _ Hok). split_and!.
  - unfold wheel. by rewrite length_map, <-(ok_frames _ _ _ _ Hok), Nat2Z.id.
  - apply (ok_nodup _ _ _ _ Hok).
  - rewrite (wheel_spec _ _ _ _ Hok). intros i l a Hi Ha.
    destruct (ok_due _ _ _ _ Hok i l a Hi Ha) as (r & Hr & Hf).
    destruct (ok_nodes _ _ _ _ Hok a) as (d & Hd & _).
    { by eapply elem_of_concat_lookup. }
    exists d, r. by rewrite dataAt_fieldAt, Hd.
  - intros hv. rewrite (chainOf_spec _ _ _ _ _ Hok). apply (ck_sorted _ _ _ Hch).
  - intros hv a. rewrite (chainOf_spec _ _ _ _ _ Hok). intros Ha.
    split; [by eapply ok_linked|].
    destruct (ck_hash _ _ _ Hch _ _ Ha) as (d & Hd & Hh).
    exists d. by rewrite dataAt_fieldAt, Hd.
Qed.

(** ** The links of a chain *)

Implicit Types (h : list (node D)) (r : addr).

(** [attach] in general: [target] is linked after [x], before the node
    that followed [x]. *)
Lemma attach_fields_gen (h : list (node D)) (p t : addr) (pn tn : node D) :
  h !! p = Some pn → h !! t = Some tn → p ≠ t →
  (∀ q, next pn = Some q → q ≠ p ∧ q ≠ t ∧ h !! q ≠ None) →
  ∃ h', attach h p t = Ok h' ∧ length h' = length h ∧
    (∀ b, fieldAt next h' b =
            if decide (b = p) then Some (Some t)
            else if decide (b = t)
                 then Some (match next pn with Some q => Some q | None => next tn end)
                 else fieldAt next h b) ∧
    (∀ b, fieldAt prev h' b =
            if decide (b = t) then Some (Some p)
            else if decide (Some b = next pn) then Some (Some t)
                 else fieldAt prev h b) ∧
    (∀ b, fieldAt frameLink h' b = fieldAt frameLink h b) ∧
    (∀ b, fieldAt data h' b = fieldAt data h b).
Proof.
  intros Hx Ht Hne Hq. unfold attach.
  pose proof (lookup_alloc _ _ _ Hx) as Lx.
  pose proof (lookup_alloc _ _ _ Ht) as Lt.
  unfold load. rewrite Hx. simpl.
  rewrite lookup_write, decide_False, Ht by done. simpl.
  destruct (next pn) as [q|] eqn:Enx.
  - destruct (Hq q eq_refl) as (Hqx & Hqt & Hqa).
    destruct (h !! q) as [qn|] eqn:Eq; [|done].
    pose proof (lookup_alloc _ _ _ Eq) as Lq.
    rewrite !lookup_write, !decide_False, Eq by (rewrite ?length_write; done).
    simpl.
    rewrite lookup_write, decide_False by (rewrite ?length_write; done).
    rewrite lookup_write, decide_True by (rewrite ?length_write; done).
    simpl.
    eexists. split; [done|]. split; [by rewrite !length_write|].
    split_and!; intros b;
      rewrite !fieldAt_write by (rewrite ?length_write; done);
      repeat case_decide; simplify_eq; try done;
      unfold fieldAt; by rewrite ?Hx, ?Ht, ?Eq.
  - eexists. split; [done|]. split; [by rewrite !length_write|].
    split_and!; intros b;
      rewrite !fieldAt_write by (rewrite ?length_write; done);
      repeat case_decide; simplify_eq; try done;
      unfold fieldAt; by rewrite ?Hx, ?Ht.
Qed.

Lemma is_chain_next_last h l2 :
  ∀ l1 r, is_chain h r (l1 ++ l2) →
          fieldAt next h (default r (last l1)) = Some (head l2).
Proof.
  induction l1 as [|b l1 IH]; intros r Hc; simpl in Hc.
  - destruct l2; simpl in *; [done | by destruct Hc].
  - destruct Hc as (_ & _ & Hc). rewrite default_last_cons. by apply IH.
Qed.

Lemma is_chain_insert_mid h h' new l2 :
  ∀ l1 r, is_chain h r (l1 ++ l2) → NoDup (r :: l1 ++ l2) →
    new ∉ r :: l1 ++ l2 →
    (∀ b, fieldAt next h' b =
            if decide (b = default r (last l1)) then Some (Some new)
            else if decide (b = new) then Some (head l2)
                 else fieldAt next h b) →
    (∀ b, fieldAt prev h' b =
            if decide (b = new) then Some (Some (default r (last l1)))
            else if decide (Some b = head l2) then Some (Some new)
                 else fieldAt prev h b) →
    is_chain h' r (l1 ++ new :: l2).
Proof.
  induction l1 as [|b l1 IH]; intros r Hc Hnd Hnew Hn Hp; simpl in *.
  - apply NoDup_cons in Hnd as [Hr Hnd]. split_and!.
    + by rewrite Hn, decide_True.
    + by rewrite Hp, decide_True.
    + destruct l2 as [|c l2]; simpl in *.
      * rewrite Hn, decide_False, decide_True; [done..|]. set_solver.
      * destruct Hc as (Hrc & Hcr & Hc).
        apply NoDup_cons in Hnd as [Hcn Hnd]. split_and!.
        -- rewrite Hn, decide_False, decide_True; [done..|]. set_solver.
        -- rewrite Hp, decide_False, decide_True; [done..|]. set_solver.
        -- eapply is_chain_ext; [| |exact Hc].
           ++ intros d Hd. rewrite Hn, !decide_False; [done|set_solver..].
           ++ intros d Hd. rewrite Hp, !decide_False; [done| |set_solver].
              intros [= ->]. done.
  - destruct Hc as (Hrb & Hbr & Hc).
    apply NoDup_cons in Hnd as [Hr Hnd].
    pose proof (default_last_in b l1) as Hin.
    rewrite default_last_cons in Hn, Hp.
    assert (b ∉ l2) as Hbl2.
    { apply NoDup_cons in Hnd as [Hb _]. set_solver. }
    split_and!.
    + rewrite Hn, !decide_False; [done|set_solver..].
    + rewrite Hp, !decide_False; [done| |set_solver].
      intros E. destruct l2 as [|c l2]; [done|]. simpl in E.
      injection E as ->. set_solver.
    + apply IH; try done. set_solver.
Qed.

(** X17: [attach] on a chain: when [l1 ++ l2] is the doubly linked chain
    after [r] and [new] is a node outside it with no links, attaching
    [new] to the last node of [l1] (to [r] when [l1] is empty) gives the
    chain [l1 ++ new :: l2]: [new] is linked in after that node, also in
    the middle of the chain, and no payload or frame link changes. *)
Theorem attach_links h (r : addr) (l1 l2 : list addr) (new : addr) :
  is_chain h r (l1 ++ l2) → NoDup (r :: l1 ++ l2) →
  new ∉ r :: l1 ++ l2 → is_orphan h new →
  ∃ h', attach h (default r (last l1)) new = Ok h' ∧ length h' = length h ∧
    is_chain h' r (l1 ++ new :: l2) ∧
    (∀ b, fieldAt data h' b = fieldAt data h b) ∧
    (∀ b, fieldAt frameLink h' b = fieldAt frameLink h b).
Proof.
  intros Hc Hnd Hnew [Hnn Hnp].
  set (q := default r (last l1)).
  assert (q ∈ r :: l1) as Hq by apply default_last_in.
  pose proof (is_chain_next_last _ _ _ _ Hc) as Hqn. fold q in Hqn.
  apply fieldAt_Some in Hqn as (nq & Hnq & Hnqn).
  apply fieldAt_Some in Hnn as (nn & Hnnew & Hnnn).
  assert (q ≠ new) as Hqnew by (intros <-; set_solver).
  apply NoDup_cons in Hnd as [Hr Hnd'].
  pose proof Hnd' as Hnd''. apply NoDup_app in Hnd'' as (_ & Hdisj & _).
  destruct (attach_fields_gen h q new nq nn Hnq Hnnew Hqnew)
    as (h' & Hatt & Hlen & Hn & Hp & Hfl & Hdt).
  { intros c Hc'. rewrite Hc' in Hnqn.
    destruct l2 as [|c' l2]; [done|]. simpl in Hnqn.
    assert (c' = c) as -> by congruence.
    split_and!.
    - intros ->. apply elem_of_cons in Hq as [->|Hq]; [set_solver|].
      apply (Hdisj q Hq). by left.
    - intros ->. set_solver.
    - intros E%lookup_ge_None.
      assert (c < length h)%nat; [|lia].
      eapply is_chain_alloc; [exact Hc | set_solver]. }
  exists h'. split_and!; try done.
  apply (is_chain_insert_mid h); try done.
  - by apply NoDup_cons.
  - intros b. rewrite Hn. fold q. case_decide; [done|]. case_decide; [|done].
    rewrite Hnqn. destruct (head l2); [done | by rewrite Hnnn].
  - intros b. rewrite Hp. fold q. case_decide; [done|]. by rewrite Hnqn.
Qed.

(** X18: [detach] on a chain: when [l1 ++ a :: l2] is the doubly linked
    chain after [r], with no node twice, detaching [a] gives the chain
    [l1 ++ l2] and leaves [a] with no links; the links of the nodes
    outside the chain, the payloads and the frame links do not change. *)
Theorem detach_unlinks h (r : addr) (l1 : list addr) (a : addr) (l2 : list addr) :
  is_chain h r (l1 ++ a :: l2) → NoDup (r :: l1 ++ a :: l2) →
  ∃ h', detach h a = Ok h' ∧ length h' = length h ∧
    is_chain h' r (l1 ++ l2) ∧ is_orphan h' a ∧
    (∀ b, b ∉ r :: l1 ++ a :: l2 →
          fieldAt next h' b = fieldAt next h b ∧
          fieldAt prev h' b = fieldAt prev h b) ∧
    (∀ b, fieldAt data h' b = fieldAt data h b) ∧
    (∀ b, fieldAt frameLink h' b = fieldAt frameLink h b).
Proof.
  intros Hc Hnd.
  destruct (is_chain_prev_in _ _ _ _ _ Hc) as (q & Hq & Hqin).
  pose proof (is_chain_next_head _ _ _ _ _ Hc) as Hnx.
  apply fieldAt_Some in Hq as (na & Ha & Hpa).
  apply fieldAt_Some in Hnx as (na' & Ha' & Hna).
  assert (na' = na) as -> by congruence.
  pose proof (is_chain_alloc _ _ _ Hc) as Halloc.
  pose proof Hnd as Hnd0.
  apply NoDup_cons in Hnd as [Hr Hnd].
  apply NoDup_app in Hnd as (Hnd1 & Hdisj & Hnd2).
  apply NoDup_cons in Hnd2 as [Ha2 Hnd2].
  assert (q ≠ a) as Hqa.
  { intros ->. apply elem_of_cons in Hqin as [->|Hqin]; [set_solver|].
    apply (Hdisj a Hqin). by left. }
  assert (∀ c, next na = Some c → c ∈ l2) as Hcl2.
  { intros c Hc'. rewrite Hc' in Hna. destruct l2 as [|c' l2]; [done|].
    simpl in Hna. assert (c' = c) as -> by congruence. by left. }
  assert (∀ c, c ∈ l2 → c ≠ q) as Hcq.
  { intros c Hcin ->. apply elem_of_cons in Hqin as [->|Hqin]; [set_solver|].
    apply (Hdisj q Hqin). by right. }
  destruct (detach_fields h a na Ha) as (h' & Hdet & Hlen & Hn & Hp & Hfl & Hdt).
  { intros c Hc'. apply Hcl2 in Hc'. split; [by intros ->|].
    intros E%lookup_ge_None. assert (c < length h)%nat; [|lia].
    apply Halloc. set_solver. }
  { intros p Hp'. assert (p = q) as -> by congruence. split; [done|].
    intros E%lookup_ge_None. assert (q < length h)%nat; [|lia].
    apply Halloc. set_solver. }
  { intros c p Hc' Hp'. assert (p = q) as -> by congruence.
    by apply Hcq, Hcl2. }
  exists h'. split_and!; try done.
  - by eapply is_chain_detach.
  - split; [rewrite Hn | rewrite Hp]; by rewrite decide_True.
  - intros b Hb.
    assert (b ≠ a) as Hba.
    { intros ->. apply Hb. right. apply elem_of_app. right. by left. }
    assert (Some b ≠ prev na) as Hbp.
    { rewrite Hpa. intros [= ->]. apply Hb.
      apply elem_of_cons in Hqin as [->|Hqin]; [by left|].
      right. apply elem_of_app. by left. }
    assert (Some b ≠ next na) as Hbn.
    { intros E. symmetry in E. apply Hcl2 in E. apply Hb.
      right. apply elem_of_app. right. by right. }
    split.
    + rewrite Hn, decide_False by done. by rewrite decide_False.
    + rewrite Hp, decide_False by done. by rewrite decide_False.
Qed.

End Extras.

(** ** fnvHash *)

Lemma fnvHash_fold (s : list byte) :
  fnvHash s = fold_left fnv1a64_step s fnvBasis.
Proof. unfold fnvHash. exact (fnvLoop_fold s [] fnvBasis). Qed.

Lemma fnv_fold_range (s : list byte) :
  ∀ h, 0 ≤ h < 2 ^ 64 → 0 ≤ fold_left fnv1a64_step s h < 2 ^ 64.
Proof.
  induction s as [|b s IH]; intros h Hh; [done|]. simpl. apply IH.
  unfold fnv1a64_step. apply Z.mod_pos_bound. lia.
Qed.

Lemma log2_lt_64 (z : Z) : 0 ≤ z < 2 ^ 64 → Z.log2 z < 64.
Proof.
  intros Hz. destruct (decide (z = 0)) as [->|Hne]; [done|].
  apply Z.log2_lt_pow2; lia.
Qed.

Lemma byteZ_range (b : byte) : 0 ≤ byteZ b < 2 ^ 64.
Proof.
  unfold byteZ. pose proof (Byte.to_N_bounded b) as Hb. lia.
Qed.

Lemma byteZ_inj (b1 b2 : byte) : byteZ b1 = byteZ b2 → b1 = b2.
Proof.
  unfold byteZ. intros E%N2Z.inj.
  pose proof (Byte.of_to_N b1) as E1. pose proof (Byte.of_to_N b2) as E2.
  rewrite E in E1. congruence.
Qed.

Lemma lxor_range (h c : Z) :
  0 ≤ h < 2 ^ 64 → 0 ≤ c < 2 ^ 64 → 0 ≤ Z.lxor h c < 2 ^ 64.
Proof.
  intros Hh Hc.
  assert (0 ≤ Z.lxor h c) as Hnn by (apply Z.lxor_nonneg; lia).
  split; [done|].
  destruct (decide (Z.lxor h c = 0)) as [->|Hne]; [lia|].
  apply Z.log2_lt_pow2; [lia|].
  pose proof (Z.log2_lxor h c ltac:(lia) ltac:(lia)) as Hl.
  pose proof (log2_lt_64 h Hh). pose proof (log2_lt_64 c Hc). lia.
Qed.

Lemma lxor_cancel_l (h c d : Z) : Z.lxor h c = Z.lxor h d → c = d.
Proof.
  intros E. rewrite <-(Z.lxor_0_l c), <-(Z.lxor_0_l d), <-(Z.lxor_nilpotent h).
  by rewrite !Z.lxor_assoc, E.
Qed.

Lemma lxor_cancel_r (h k c : Z) : Z.lxor h c = Z.lxor k c → h = k.
Proof. rewrite !(Z.lxor_comm _ c). apply lxor_cancel_l. Qed.

(** [fnvPrime] is odd, so the multiplication by it modulo [2^64] can be
    undone. *)
Lemma fnvPrime_mul_inj (c d : Z) :
  0 ≤ c < 2 ^ 64 → 0 ≤ d < 2 ^ 64 →
  wrap64 (c * fnvPrime) = wrap64 (d * fnvPrime) → c = d.
Proof.
  intros Hc Hd E.
  assert (∀ z, 0 ≤ z < 2 ^ 64 →
            z = wrap64 (wrap64 (z * fnvPrime) * 14886173955864302971)) as Hinv.
  { intros z Hz. unfold wrap64. rewrite Zmult_mod_idemp_l, <-Z.mul_assoc.
    rewrite <-Zmult_mod_idemp_r.
    replace ((fnvPrime * 14886173955864302971) mod 2 ^ 64) with 1 by reflexivity.
    rewrite Z.mul_1_r. by rewrite Z.mod_small. }
  rewrite (Hinv c Hc), (Hinv d Hd). by rewrite E.
Qed.

Lemma fnv_step_inj (h k : Z) (b c : byte) :
  0 ≤ h < 2 ^ 64 → 0 ≤ k < 2 ^ 64 →
  fnv1a64_step h b = fnv1a64_step k c →
  Z.lxor h (byteZ b) = Z.lxor k (byteZ c).
Proof.
  intros Hh Hk E. apply fnvPrime_mul_inj; [by apply lxor_range, byteZ_range..|].
  exact E.
Qed.

Lemma fnv_fold_inj (t : list byte) :
  ∀ h k, 0 ≤ h < 2 ^ 64 → 0 ≤ k < 2 ^ 64 →
    fold_left fnv1a64_step t h = fold_left fnv1a64_step t k → h = k.
Proof.
  induction t as [|b t IH]; intros h k Hh Hk E; [done|]. simpl in E.
  apply IH in E; [|unfold fnv1a64_step; apply Z.mod_pos_bound; lia..].
  by apply fnv_step_inj, lxor_cancel_r in E.
Qed.

(** X16: The collisions of [fnvHash]: each step of the loop can be undone, so
    two keys followed by the same bytes collide only when the two keys
    collide, and two keys that differ in their last byte only never
    collide. *)
Theorem fnvHash_collisions (s1 s2 t : list byte) (b1 b2 : byte) :
  (fnvHash (s1 ++ t) = fnvHash (s2 ++ t) ↔ fnvHash s1 = fnvHash s2) ∧
  (fnvHash (s1 ++ [b1]) = fnvHash (s1 ++ [b2]) ↔ b1 = b2).
Proof.
  rewrite !fnvHash_fold, !fold_left_app.
  assert (0 ≤ fnvBasis < 2 ^ 64) as Hb by (unfold fnvBasis; lia).
  pose proof (fnv_fold_range s1 _ Hb) as H1.
  pose proof (fnv_fold_range s2 _ Hb) as H2.
  split; (split; [|by intros ->]).
  - by apply fnv_fold_inj.
  - simpl. intros E. apply fnv_step_inj in E; [|done..].
    by apply lxor_cancel_l, byteZ_inj in E.
Qed.

(** ** The theorems above at the stores of the test suite *)

Lemma Size_counts_live_nodes_witness :
  Size Test.st_put2 = wrapInt (Z.of_nat (length (liveNodes Test.st_put2))).
Proof.
  apply Size_counts_live_nodes.
  run_reachable_tac [OpPut Test.obj1 3; OpPut Test.obj2 3].
Defined.

Lemma Get_sound_witness :
  ∃ r, Get Test.st_put1 Test.key1 = Ok r ∧
    ∀ d, r = Some d →
      Key d = Test.key1 ∧
      ∃ a : addr, a ∈ chainOf Test.st_put1 (fnvHash Test.key1) ∧
                  a ∈ liveNodes Test.st_put1 ∧
                  dataAt (heap Test.st_put1) a = Some d.
Proof.
  apply Get_sound.
  run_reachable_tac [OpPut Test.obj1 3].
Defined.

Lemma Put_outcome_witness :
  (maxTick (New (D := Test.testData) 12) < 3 ∧
   Put (New (D := Test.testData) 12) Test.obj1 3 = Ok (New 12, Some ErrTTLOverMaxTick)) ∨
  (3 ≤ maxTick (New (D := Test.testData) 12) ∧ maxTick (New (D := Test.testData) 12) = 2 ^ 64 - 1 ∧
   Put (New (D := Test.testData) 12) Test.obj1 3 = Fail DivideByZero) ∨
  (3 ≤ maxTick (New (D := Test.testData) 12) ∧ maxTick (New (D := Test.testData) 12) < 2 ^ 64 - 1 ∧
   ∃ x', Put (New (D := Test.testData) 12) Test.obj1 3 = Ok (x', None) ∧
         Size x' = wrapInt (Size (New (D := Test.testData) 12) + 1)).
Proof.
  apply (Put_outcome (New (D := Test.testData) 12) Test.obj1 3).
  - apply reachable_New. unfold isTick. lia.
  - unfold isTick. lia.
Defined.

Lemma Put_wheel_witness :
  ∃ new : addr,
    (new ∉ liveNodes (New (D := Test.testData) 12)) ∧
    dataAt (heap Test.st_put1) new = Some Test.obj1 ∧
    wheel Test.st_put1 =
      <[frameOf (New (D := Test.testData) 12) (current (New (D := Test.testData) 12) + 3) :=
          new :: default [] (wheel (New (D := Test.testData) 12)
                               !! frameOf (New (D := Test.testData) 12)
                                    (current (New (D := Test.testData) 12) + 3))]>
        (wheel (New (D := Test.testData) 12)).
Proof.
  apply (Put_wheel (New (D := Test.testData) 12) Test.obj1 3 Test.st_put1).
  - apply reachable_New. unfold isTick. lia.
  - unfold isTick. lia.
  - vm_compute. reflexivity.
Defined.

Lemma Put_chain_witness :
  ∃ new : addr,
    (∀ hv (b : addr), b ∈ chainOf Test.st_put1 hv → (b < new)%nat) ∧
    dataAt (heap Test.st_put2) new = Some Test.obj2 ∧
    ((Exists (λ b, keyAt (heap Test.st_put1) b = Some (Key Test.obj2))
        (removelast (chainOf Test.st_put1 (fnvHash (Key Test.obj2)))) ∧
      ∀ hv, chainOf Test.st_put2 hv = chainOf Test.st_put1 hv) ∨
     (¬ Exists (λ b, keyAt (heap Test.st_put1) b = Some (Key Test.obj2))
          (removelast (chainOf Test.st_put1 (fnvHash (Key Test.obj2)))) ∧
      ∀ hv, chainOf Test.st_put2 hv =
              if decide (hv = fnvHash (Key Test.obj2))
              then chainOf Test.st_put1 hv ++ [new]
              else chainOf Test.st_put1 hv)).
Proof.
  apply (Put_chain Test.st_put1 Test.obj2 3 Test.st_put2).
  - run_reachable_tac [OpPut Test.obj1 3].
  - unfold isTick. lia.
  - vm_compute. reflexivity.
Defined.

Lemma Put_then_Get_witness :
  ∃ r, Get Test.st_put1 Test.key1 = Ok r ∧
    Get Test.st_put2 Test.key1 =
      Ok (match r with
          | Some d => Some d
          | None => if decide (Test.key1 = Key Test.obj2) then Some Test.obj2 else None
          end).
Proof.
  apply (Put_then_Get Test.st_put1 Test.obj2 3 Test.st_put2 Test.key1).
  - run_reachable_tac [OpPut Test.obj1 3].
  - unfold isTick. lia.
  - vm_compute. reflexivity.
Defined.

Lemma Prune_wheel_witness :
  ([Some Test.obj2; Some Test.obj1] =
     map (dataAt (heap Test.st_put2))
       (taken (wheel Test.st_put2) (visits Test.st_put2 0 (Z.to_nat 20))) ∧
   wheel Test.st_drain2 =
     drained (wheel Test.st_put2) (visits Test.st_put2 0 (Z.to_nat 20))) ∧
  wheel Test.st_put2 !! 3%nat = Some [2; 1]%nat ∧
  taken (wheel Test.st_put2) (visits Test.st_put2 0 (Z.to_nat 20)) = [2; 1]%nat ∧
  wheel Test.st_drain2 = replicate 13 [].
Proof.
  split; [|vm_compute; repeat split; reflexivity].
  apply (Prune_wheel Test.st_put2 20 Test.st_drain2 [Some Test.obj2; Some Test.obj1]).
  - run_reachable_tac [OpPut Test.obj1 3; OpPut Test.obj2 3].
  - unfold isTick. lia.
  - vm_compute. reflexivity.
Defined.

Lemma Prune_chains_witness :
  (table Test.st_two_adv = table Test.st_two ∧
   ∀ hv, chainOf Test.st_two_adv hv =
           filter (λ b, b ∉ taken (wheel Test.st_two)
                              (visits Test.st_two 0 (Z.to_nat 4)))
             (chainOf Test.st_two hv)) ∧
  Prune Test.st_two 4 = Ok (Test.st_two_adv, [Some Test.obj1]) ∧
  chainOf Test.st_two (fnvHash Test.key1) = [1; 2]%nat ∧
  taken (wheel Test.st_two) (visits Test.st_two 0 (Z.to_nat 4)) = [1]%nat ∧
  chainOf Test.st_two_adv (fnvHash Test.key1) = [2]%nat.
Proof.
  split; [|vm_compute; repeat split; reflexivity].
  apply (Prune_chains Test.st_two 4 Test.st_two_adv [Some Test.obj1]).
  - run_reachable_tac [OpPut Test.obj1 3; OpPut Test.obj2 5].
  - unfold isTick. lia.
  - vm_compute. reflexivity.
Defined.

Lemma Prune_expiry_witness :
  Prune Test.st_two 4 = Ok (Test.st_two_adv, [Some Test.obj1]) ∧
  (dataAt (heap Test.st_two) 1%nat ∈ [Some Test.obj1] ∧
   (1%nat ∉ liveNodes Test.st_two_adv)) ∧
  (wheel Test.st_two_adv !! frameOf Test.st_two_adv (current Test.st_two_adv + (5 - 4))
     = Some [2%nat] ∧
   dataAt (heap Test.st_two_adv) 2%nat = dataAt (heap Test.st_two) 2%nat).
Proof.
  assert (reachable Test.st_two) as Hreach.
  { run_reachable_tac [OpPut Test.obj1 3; OpPut Test.obj2 5]. }
  assert (isTick 4) as Hp by (unfold isTick; lia).
  assert (Prune Test.st_two 4 = Ok (Test.st_two_adv, [Some Test.obj1])) as Hprune.
  { vm_compute. reflexivity. }
  split; [exact Hprune|]. split.
  - (* the node 1, due in 3 ticks, is returned by [Prune(4)] *)
    destruct (Prune_expiry Test.st_two 4 Test.st_two_adv [Some Test.obj1]
                1%nat 3 [1%nat] Hreach Hp Hprune) as [Hdue _].
    + vm_compute. split; discriminate.
    + vm_compute. reflexivity.
    + apply list_elem_of_here.
    + apply Hdue. lia.
  - (* the node 2, due in 5 ticks, is kept and is due in 1 tick afterwards *)
    destruct (Prune_expiry Test.st_two 4 Test.st_two_adv [Some Test.obj1]
                2%nat 5 [2%nat] Hreach Hp Hprune) as [_ Hkept].
    + vm_compute. split; discriminate.
    + vm_compute. reflexivity.
    + apply list_elem_of_here.
    + apply Hkept; [lia | vm_compute; reflexivity].
Defined.


Lemma Prune_returns_entries_witness :
  ∃ (d : Test.testData) (a : addr),
    Some Test.obj1 = Some d ∧ dataAt (heap Test.st_adv3) a = Some d ∧
    a ∈ liveNodes Test.st_adv3 ∧ a ∉ liveNodes Test.st_adv4.
Proof.
  apply (Prune_returns_entries Test.st_adv3 1 Test.st_adv4 [Some Test.obj1]).
  - run_reachable_tac [OpPut Test.obj1 3; OpPrune 1; OpPrune 1; OpPrune 1].
  - unfold isTick. lia.
  - vm_compute. reflexivity.
  - apply list_elem_of_here.
Defined.

Lemma Prune_compose_witness :
  Prune Test.st_put1 (3 + 1) =
    ('(x1, r1) ← Prune Test.st_put1 3; '(x2, r2) ← Prune x1 1; Ok (x2, r1 ++ r2)) ∧
  Prune Test.st_put1 3 = Ok (Test.st_adv3, []) ∧
  Prune Test.st_adv3 1 = Ok (Test.st_adv4, [Some Test.obj1]) ∧
  Prune Test.st_put1 (3 + 1) = Ok (Test.st_adv4, [Some Test.obj1]).
Proof.
  split; [|vm_compute; repeat split; reflexivity].
  apply (Prune_compose Test.st_put1 3 1); unfold isTick; lia.
Defined.

Lemma unique_keys_witness :
  NoDup (map (keyAt (heap Test.st_put1)) (liveNodes Test.st_put1)) ∧
  (∀ key d, Get Test.st_put1 key = Ok (Some d) ↔
            ∃ a : addr, a ∈ liveNodes Test.st_put1 ∧
                        dataAt (heap Test.st_put1) a = Some d ∧ Key d = key) ∧
  Size Test.st_put1 = wrapInt (Z.of_nat (length (liveNodes Test.st_put1))).
Proof.
  apply unique_keys.
  apply (unique_Put (New (D := Test.testData) 12) Test.st_put1 Test.obj1 3 None).
  - apply unique_New. unfold isTick. lia.
  - unfold isTick. lia.
  - vm_compute. reflexivity.
  - vm_compute. reflexivity.
Defined.

Lemma exec_keeps_buckets_witness :
  table Test.st_put1 ⊆ table Test.st_put2 ∧
  ∀ (a : addr) d, dataAt (heap Test.st_put1) a = Some d →
                  dataAt (heap Test.st_put2) a = Some d.
Proof.
  apply (exec_keeps_buckets Test.st_put1 (OpPut Test.obj2 3) Test.st_put2).
  - run_reachable_tac [OpPut Test.obj1 3].
  - simpl. unfold isTick. lia.
  - vm_compute. reflexivity.
Defined.

Lemma reachable_shape_witness :
  length (wheel Test.st_put2) = Z.to_nat (wrap64 (maxTick Test.st_put2 + 1)) ∧
  NoDup (liveNodes Test.st_put2) ∧
  (∀ (i : nat) l (a : addr), wheel Test.st_put2 !! i = Some l → a ∈ l →
     ∃ d r, dataAt (heap Test.st_put2) a = Some d ∧ 0 ≤ r ≤ maxTick Test.st_put2 ∧
            i = frameOf Test.st_put2 (current Test.st_put2 + r)) ∧
  (∀ hv, StronglySorted lt (chainOf Test.st_put2 hv)) ∧
  (∀ hv (a : addr), a ∈ chainOf Test.st_put2 hv →
     a ∈ liveNodes Test.st_put2 ∧
     ∃ d, dataAt (heap Test.st_put2) a = Some d ∧ fnvHash (Key d) = hv).
Proof.
  apply reachable_shape.
  run_reachable_tac [OpPut Test.obj1 3; OpPut Test.obj2 3].
Defined.

Lemma attach_links_witness :
  ∃ h', attach (heap Test.st_put3) (default 0%nat (last [1%nat])) 3%nat = Ok h' ∧
    length h' = length (heap Test.st_put3) ∧
    is_chain h' 0%nat ([1%nat] ++ 3%nat :: [2%nat]) ∧
    (∀ b, fieldAt data h' b = fieldAt data (heap Test.st_put3) b) ∧
    (∀ b, fieldAt frameLink h' b = fieldAt frameLink (heap Test.st_put3) b).
Proof.
  apply (attach_links (heap Test.st_put3) 0%nat [1%nat] [2%nat] 3%nat).
  - vm_compute. repeat split; reflexivity.
  - apply (bool_decide_unpack _). vm_compute. exact I.
  - apply (bool_decide_unpack _). vm_compute. exact I.
  - vm_compute. split; reflexivity.
Defined.

Lemma detach_unlinks_witness :
  ∃ h', detach (heap Test.st_put2) 1%nat = Ok h' ∧
    length h' = length (heap Test.st_put2) ∧
    is_chain h' 0%nat ([] ++ [2%nat]) ∧ is_orphan h' 1%nat ∧
    (∀ b : addr, b ∉ 0%nat :: [] ++ 1%nat :: [2%nat] →
          fieldAt next h' b = fieldAt next (heap Test.st_put2) b ∧
          fieldAt prev h' b = fieldAt prev (heap Test.st_put2) b) ∧
    (∀ b, fieldAt data h' b = fieldAt data (heap Test.st_put2) b) ∧
    (∀ b, fieldAt frameLink h' b = fieldAt frameLink (heap Test.st_put2) b).
Proof.
  apply (detach_unlinks (heap Test.st_put2) 0%nat [] 1%nat [2%nat]).
  - vm_compute. repeat split; reflexivity.
  - apply (bool_decide_unpack _). vm_compute. exact I.
Defined.
